(** * The serial shell driver of the ECB10 hardware tester

    A shallow embedding of [test_uart5_tool/shell_executor.py]
    (class [ShellExecutor]) and of the command path of
    [hw_tester_ttl_gui/hw_tester_ttl_gui.py] (class [SerialShell]),
    together with the part of Python's [re] and [str] that those two
    classes rely on.

    Conventions of the model.
    - A Python [str] is a list of Unicode code points ([N]).
    - Time is a logical clock counted in milliseconds ([Z]).  The clock
      advances only through [time.sleep] and through the latency of a
      serial read; computation itself takes no time.
    - The serial port is an interface ([Serial]); its implementation is
      the remote board.  A read hands back the already decoded chunk
      ([bytes.decode("utf-8", errors="ignore")] is folded into the port)
      and the number of milliseconds the call blocked.
    - Every [while] loop of the source whose exit depends on the clock is
      a [Fixpoint] on a fuel argument; running out of fuel is a distinct
      result ([OutOfFuel]), never a value.
    - Threads are not modelled: the lock of [run] is a flag of the world
      that a sequential run takes and gives back. *)

From Stdlib Require Import List NArith ZArith Bool String Ascii Lia.
Import ListNotations.

Set Implicit Arguments.
Open Scope N_scope.

(* ================================================================== *)
(** * Text: Python [str] *)
(* ================================================================== *)

Definition char := N.
Definition str := list char.

Definition char_of_ascii (a : ascii) : char := N_of_ascii a.

(** [txt "abc"] is the Python literal ["abc"] (ASCII only). *)
Definition txt (s : string) : str := map char_of_ascii (list_ascii_of_string s).

Definition LF : char := 10.     (* "\n" *)
Definition CR : char := 13.     (* "\r" *)
Definition ESC : char := 27.    (* "\x1B" *)

Definition str_eqb (a b : str) : bool :=
  if list_eq_dec N.eq_dec a b then true else false.

Definition is_empty (s : str) : bool :=
  match s with [] => true | _ :: _ => false end.

(** [in_range lo hi c]: [lo <= c <= hi]. *)
Definition in_range (lo hi c : char) : bool := (lo <=? c) && (c <=? hi).

(** [Py_UNICODE_ISSPACE]: the characters that [str.strip()] removes and
    that [\s] matches in a [str] pattern. *)
Definition is_space (c : char) : bool :=
  in_range 9 13 c || in_range 28 32 c || (c =? 133) || (c =? 160)
  || (c =? 5760) || in_range 8192 8202 c || (c =? 8232) || (c =? 8233)
  || (c =? 8239) || (c =? 8287) || (c =? 12288).

(** [str.lstrip()], [str.rstrip()], [str.strip()]. *)
Fixpoint lstrip (s : str) : str :=
  match s with
  | c :: s' => if is_space c then lstrip s' else s
  | [] => []
  end.

Definition rstrip (s : str) : str := rev (lstrip (rev s)).

Definition strip (s : str) : str := rstrip (lstrip s).

(** [s.split(sep)] for a one-character separator: one more piece than
    there are separators, so the result is never empty. *)
Fixpoint split (sep : char) (s : str) : list str :=
  match s with
  | [] => [[]]
  | c :: s' =>
      if c =? sep then [] :: split sep s'
      else match split sep s' with
           | l :: ls => (c :: l) :: ls
           | [] => [[c]]
           end
  end.

(** [sep.join(pieces)]. *)
Fixpoint join (sep : str) (pieces : list str) : str :=
  match pieces with
  | [] => []
  | l :: rest =>
      match rest with
      | [] => l
      | _ :: _ => l ++ sep ++ join sep rest
      end
  end.

(** [s.replace(c, "")] for a one-character [c]. *)
Definition remove_char (c : char) (s : str) : str :=
  filter (fun x => negb (x =? c)) s.

Fixpoint starts_with (p s : str) : bool :=
  match p, s with
  | [], _ => true
  | _ :: _, [] => false
  | a :: p', b :: s' => (a =? b) && starts_with p' s'
  end.

(** [needle in hay]. *)
Fixpoint contains (needle hay : str) : bool :=
  starts_with needle hay ||
  match hay with
  | [] => false
  | _ :: hay' => contains needle hay'
  end.

(** [c in s] for a one-character [c]. *)
Definition has_char (c : char) (s : str) : bool := existsb (N.eqb c) s.

(** Text without escape characters and without carriage returns. *)
Definition is_plain (s : str) : bool :=
  negb (has_char ESC s) && negb (has_char CR s).

(* ================================================================== *)
(** * Regular expressions: the fragment of Python's [re] in use *)
(* ================================================================== *)

(** Every pattern of the driver is built from line anchors (all patterns
    that use anchors carry the [(?m)] flag), one-character sets, greedy
    repetition of a one-character set, concatenation and alternation. *)
Inductive regex : Type :=
| Eps                               (* the empty pattern *)
| Bol                               (* [^] under MULTILINE *)
| Eol                               (* [$] under MULTILINE *)
| Cls (p : char -> bool)            (* one character of a set *)
| Star (p : char -> bool)           (* greedy [set*] *)
| Cat (r1 r2 : regex)
| Alt (r1 r2 : regex).

(** [^] under MULTILINE: at the start of the text or right after a
    newline.  [prev] is the character before the position. *)
Definition at_bol (prev : option char) : bool :=
  match prev with
  | None => true
  | Some c => c =? LF
  end.

(** [$] under MULTILINE: at the end of the text or right before a
    newline. *)
Definition at_eol (s : str) : bool :=
  match s with
  | [] => true
  | c :: _ => c =? LF
  end.

Definition or_else {A} (x y : option A) : option A :=
  match x with
  | Some _ => x
  | None => y
  end.

(** Greedy repetition: take as many characters as possible and give them
    back one by one while the rest of the pattern fails. *)
Fixpoint star {A} (p : char -> bool) (prev : option char) (s : str)
         (k : option char -> str -> option A) : option A :=
  match s with
  | c :: s' =>
      if p c then or_else (star p (Some c) s' k) (k prev s) else k prev s
  | [] => k prev s
  end.

(** The backtracking matcher, in continuation-passing style: [k] is the
    rest of the pattern; alternatives are tried in priority order, as
    [sre] does. *)
Fixpoint exec {A} (r : regex) (prev : option char) (s : str)
         (k : option char -> str -> option A) : option A :=
  match r with
  | Eps => k prev s
  | Bol => if at_bol prev then k prev s else None
  | Eol => if at_eol s then k prev s else None
  | Cls p =>
      match s with
      | c :: s' => if p c then k (Some c) s' else None
      | [] => None
      end
  | Star p => star p prev s k
  | Cat r1 r2 => exec r1 prev s (fun prev' s' => exec r2 prev' s' k)
  | Alt r1 r2 => or_else (exec r1 prev s k) (exec r2 prev s k)
  end.

(** A match attempt at one position: the text left after the match. *)
Definition match_here (r : regex) (prev : option char) (s : str) : option str :=
  exec r prev s (fun _ rest => Some rest).

(** [pattern.match(s)]: a match at position 0. *)
Definition re_match (r : regex) (s : str) : bool :=
  match match_here r None s with Some _ => true | None => false end.

(** [pattern.search(s)]: a match at some position, scanning left to
    right. *)
Fixpoint search_from (r : regex) (prev : option char) (s : str) : bool :=
  match match_here r prev s with
  | Some _ => true
  | None =>
      match s with
      | [] => false
      | c :: s' => search_from r (Some c) s'
      end
  end.

Definition re_search (r : regex) (s : str) : bool := search_from r None s.

(** [re.sub(pattern, "", s)] for a pattern that cannot match the empty
    string: scanning left to right, every leftmost match is deleted.
    [skip] counts the characters of the current match still to delete. *)
Fixpoint sub_from (r : regex) (skip : nat) (prev : option char) (s : str) : str :=
  match s with
  | [] => []
  | c :: s' =>
      match skip with
      | S n => sub_from r n (Some c) s'
      | O =>
          match match_here r prev s with
          | Some rest =>
              match (List.length s - List.length rest)%nat with
              | S n => sub_from r n (Some c) s'
              | O => c :: sub_from r O (Some c) s'
              end
          | None => c :: sub_from r O (Some c) s'
          end
      end
  end.

Definition re_sub_delete (r : regex) (s : str) : str := sub_from r O None s.

(** ** Building patterns *)

Definition ch (a : ascii) : char := char_of_ascii a.

Definition is_char (x : char) : char -> bool := fun c => c =? x.

Definition one_of (xs : list char) : char -> bool :=
  fun c => existsb (N.eqb c) xs.

Definition none_of (xs : list char) : char -> bool :=
  fun c => negb (existsb (N.eqb c) xs).

(** The characters a literal letter matches under IGNORECASE in a [str]
    pattern: those whose lower case is the letter, and for [i] and [s]
    also the dotless i (U+0131) and the long s (U+017F). *)
Definition lower (c : char) : char :=
  if in_range 65 90 c then c + 32
  else if c =? 304 then 105          (* U+0130 lowers to i *)
  else if c =? 8490 then 107         (* U+212A KELVIN SIGN lowers to k *)
  else c.

Definition ci (a : ascii) : char -> bool :=
  let x := ch a in
  fun c =>
    (lower c =? x)
    || ((x =? 105) && (c =? 305))
    || ((x =? 115) && (c =? 383)).

Fixpoint cat_all (rs : list regex) : regex :=
  match rs with
  | [] => Eps
  | [r] => r
  | r :: rest => Cat r (cat_all rest)
  end.

(** A literal word matched case-insensitively. *)
Definition word_ci (w : string) : regex :=
  cat_all (map (fun a => Cls (ci a)) (list_ascii_of_string w)).

(** ** The patterns of the driver *)

(** [[^\n\r]] and [[#$]] *)
Definition no_newline : char -> bool := none_of [LF; CR].
Definition hash_or_dollar : char -> bool := one_of [ch "#"; ch "$"].

(** [PROMPT_REGEX = r"(?m)^[^\n\r]*[#$]\s*$"] *)
Definition PROMPT_REGEX : regex :=
  cat_all [Bol; Star no_newline; Cls hash_or_dollar; Star is_space; Eol].

(** [LOGIN_REGEX = r"(?im)^\s*(login|username)\s*:\s*$"] *)
Definition LOGIN_REGEX : regex :=
  cat_all [Bol; Star is_space; Alt (word_ci "login") (word_ci "username");
           Star is_space; Cls (is_char (ch ":")); Star is_space; Eol].

(** [PASSWORD_REGEX = r"(?im)^\s*password\s*:\s*$"] *)
Definition PASSWORD_REGEX : regex :=
  cat_all [Bol; Star is_space; word_ci "password";
           Star is_space; Cls (is_char (ch ":")); Star is_space; Eol].

(** [r"\x1B\[[0-?]*[ -/]*[@-~]"]: an ANSI CSI escape sequence. *)
Definition CSI_REGEX : regex :=
  cat_all [Cls (is_char ESC); Cls (is_char (ch "["));
           Star (in_range (ch "0") (ch "?"));
           Star (in_range (ch " ") (ch "/"));
           Cls (in_range (ch "@") (ch "~"))].

(** [r"activate this console"] with [flags=re.I]. *)
Definition ACTIVATE_REGEX : regex :=
  cat_all (map (fun a => Cls (ci a)) (list_ascii_of_string "activate this console")).

(** The character before the position reached once [a] has been read. *)
Definition prev_after (prev : option char) (a : str) : option char :=
  last (map Some a) prev.

(** ** The prompt pattern in the words of the specification

    "A line consisting of arbitrary non-newline text ending in [#] or [$]
    followed only by trailing whitespace, anchored to match against a
    full line": the text splits into what is [before] the line, the line
    itself ([body], the sign [c], the [trail]ing blanks) and what comes
    [after] it.  Non-newline text has neither a line feed nor a carriage
    return. *)
Definition spec_prompt_pattern (s : str) : Prop :=
  exists before body c trail after,
    s = before ++ body ++ c :: trail ++ after /\
    (before = [] \/ exists b, before = b ++ [LF]) /\
    (after = [] \/ exists a, after = LF :: a) /\
    Forall (fun x => x <> LF /\ x <> CR) body /\
    (c = ch "#" \/ c = ch "$") /\
    Forall (fun x => is_space x = true /\ x <> LF) trail.

(* ================================================================== *)
(** * The world: clock, serial port, lock *)
(* ================================================================== *)

Open Scope Z_scope.

(** [READ_CHUNK = 4096] *)
Definition READ_CHUNK : Z := 4096.

(** The interface of [serial.Serial] as the driver uses it.  The state
    [D] is the remote side together with the port's buffers; each call
    is told the current time.  The port answers every call: what the
    serial layer itself may refuse (a [SerialException] of pyserial) is no
    part of this interface. *)
Class Serial (D : Type) : Type := {
  (** [ser.read(size)] followed by [.decode("utf-8", errors="ignore")]:
      the decoded chunk, the milliseconds the call blocked (the port is
      opened with [timeout=0.1]) and the next state. *)
  ser_read : D -> Z -> Z -> str * Z * D;
  (** [ser.write(data)] *)
  ser_write : D -> Z -> str -> D;
  (** [ser.reset_input_buffer()] *)
  ser_reset_input_buffer : D -> Z -> D
}.

(** What went over the port, most recent first. *)
Inductive io_event : Type :=
| Wrote (s : str)
| ReadGot (chunk : str)
| InputReset.

Record World (D : Type) : Type := mkWorld {
  now : Z;                    (* [time.time()], in milliseconds *)
  dev : D;                    (* the port and the board behind it *)
  io : list io_event;         (* transport I/O performed so far *)
  lock_held : bool            (* [self._lock] *)
}.

Inductive exn : Type :=
| RuntimeError (msg : str).

Inductive result (D A : Type) : Type :=
| Done (a : A) (w : World D)        (* normal return *)
| Raised (e : exn) (w : World D)    (* an exception propagates *)
| OutOfFuel.                        (* no result within the fuel given *)

Arguments OutOfFuel {D A}.
Arguments Raised {D A} e w.

Definition M (D A : Type) : Type := World D -> result D A.

Definition ret {D A} (a : A) : M D A := fun w => Done a w.

Definition bind {D A B} (m : M D A) (f : A -> M D B) : M D B :=
  fun w =>
    match m w with
    | Done a w' => f a w'
    | Raised e w' => Raised e w'
    | OutOfFuel => OutOfFuel
    end.

Definition raise {D A} (e : exn) : M D A := fun w => Raised e w.

Definition out_of_fuel {D A} : M D A := fun _ => OutOfFuel.

Notation "x <- m ;; k" := (bind m (fun x => k))
  (at level 61, m at next level, right associativity).
Notation "m ;;; k" := (bind m (fun _ => k))
  (at level 61, right associativity).

(** [returns m w Q]: from world [w] the computation returns normally, with
    a value and a final world that satisfy [Q]. *)
Definition returns {D A} (m : M D A) (w : World D) (Q : A -> World D -> Prop) : Prop :=
  exists a w', m w = Done a w' /\ Q a w'.

(** The writes among the events of a log, oldest first. *)
Fixpoint writes_of (log : list io_event) : list str :=
  match log with
  | [] => []
  | Wrote s :: rest => writes_of rest ++ [s]
  | _ :: rest => writes_of rest
  end.

Section Driver.

Context {D : Type} `{Serial D}.

(** [time.time()] *)
Definition time_time : M D Z := fun w => Done (now w) w.

(** [time.sleep(ms / 1000)] *)
Definition time_sleep (ms : Z) : M D unit :=
  fun w => Done tt (mkWorld (now w + ms) (dev w) (io w) (lock_held w)).

Definition port_read (size : Z) : M D str :=
  fun w =>
    let '(chunk, blocked, d') := ser_read (dev w) (now w) size in
    Done chunk (mkWorld (now w + blocked) d' (ReadGot chunk :: io w) (lock_held w)).

Definition port_write (s : str) : M D unit :=
  fun w =>
    Done tt (mkWorld (now w) (ser_write (dev w) (now w) s)
                     (Wrote s :: io w) (lock_held w)).

Definition port_reset_input_buffer : M D unit :=
  fun w =>
    Done tt (mkWorld (now w) (ser_reset_input_buffer (dev w) (now w))
                     (InputReset :: io w) (lock_held w)).

(** [with self._lock: body].  A lock that is already held is never
    released in a sequential run, so acquiring it gives no result. *)
Definition with_lock {A} (body : M D A) : M D A :=
  fun w =>
    if lock_held w then OutOfFuel
    else
      match body (mkWorld (now w) (dev w) (io w) true) with
      | Done a w' => Done a (mkWorld (now w') (dev w') (io w') false)
      | Raised e w' => Raised e (mkWorld (now w') (dev w') (io w') false)
      | OutOfFuel => OutOfFuel
      end.

(* ================================================================== *)
(** * [class ShellExecutor] *)
(* ================================================================== *)

(** The [serial.Serial] object held in [self.ser].  [is_open] is the
    flag pyserial keeps on the object; the drivers read it in
    [is_connected] and [is_open()] only, their reads and writes are
    guarded by [self.ser] alone. *)
Record SerialPort : Type := mkSerial {
  port : str;
  baudrate : Z;
  is_open : bool
}.

(** [serial.Serial(port=port, baudrate=baud, ...)]: the constructor call
    of [connect] and [open], which hands back the port opened. *)
Definition mkPort (port : str) (baudrate : Z) : SerialPort :=
  mkSerial port baudrate true.

Record ShellExecutor : Type := mkExecutor {
  ser : option SerialPort;
  username : str;
  password : str
}.

(** [bool(self.ser and self.ser.is_open)] *)
Definition is_connected (self : ShellExecutor) : bool :=
  match ser self with Some p => is_open p | None => false end.

Definition _read_some (self : ShellExecutor) : M D str :=
  match ser self with
  | None => ret []
  | Some _ =>
      data <- port_read READ_CHUNK ;;
      if is_empty data then ret [] else ret data
  end.

Definition _write (self : ShellExecutor) (s : str) : M D unit :=
  match ser self with
  | None => raise (RuntimeError (txt "Not connected"))
  | Some _ => port_write s
  end.

(** The [while time.time() < end] loop of [_drain]. *)
Fixpoint drain_loop (self : ShellExecutor) (end_ : Z) (fuel : nat) (out : str)
  : M D str :=
  match fuel with
  | O => out_of_fuel
  | S fuel' =>
      t <- time_time ;;
      if t <? end_ then
        chunk <- _read_some self ;;
        if negb (is_empty chunk) then drain_loop self end_ fuel' (out ++ chunk)
        else time_sleep 20 ;;; drain_loop self end_ fuel' out
      else ret out
  end.

Definition _drain (fuel : nat) (self : ShellExecutor) (duration : Z) : M D str :=
  t <- time_time ;;
  drain_loop self (t + duration) fuel [].

(** [for _ in range(n)]: the wake-up newlines of [ensure_shell]. *)
Fixpoint wake (fuel : nat) (self : ShellExecutor) (n : nat) (buf : str) : M D str :=
  match n with
  | O => ret buf
  | S n' =>
      _write self [LF] ;;;
      time_sleep 80 ;;;
      d <- _drain fuel self 350 ;;
      wake fuel self n' (buf ++ d)
  end.

(** [if cond: body] where [body] extends [buf]. *)
Definition when_ (cond : bool) (buf : str) (body : M D str) : M D str :=
  if cond then body else ret buf.

(** The [while time.time() - start < overall_timeout] loop of
    [ensure_shell]. *)
Fixpoint poll_loop (fuel : nat) (self : ShellExecutor) (start overall_timeout : Z)
         (n : nat) (buf : str) : M D (bool * str) :=
  match n with
  | O => out_of_fuel
  | S n' =>
      t <- time_time ;;
      if t - start <? overall_timeout then
        _write self [LF] ;;;
        time_sleep 60 ;;;
        d <- _drain fuel self 350 ;;
        let buf := buf ++ d in
        if re_search PROMPT_REGEX buf then
          ret (true, txt "Shell prompt detected.")
        else
          buf <- when_ (re_search LOGIN_REGEX buf) buf
                   (_write self (username self ++ [LF]) ;;;
                    d <- _drain fuel self 800 ;; ret (buf ++ d)) ;;
          buf <- when_ (re_search PASSWORD_REGEX buf) buf
                   (_write self (password self ++ [LF]) ;;;
                    d <- _drain fuel self 1000 ;; ret (buf ++ d)) ;;
          buf <- when_ (re_search ACTIVATE_REGEX buf) buf
                   (_write self [LF] ;;;
                    d <- _drain fuel self 600 ;; ret (buf ++ d)) ;;
          poll_loop fuel self start overall_timeout n' buf
      else ret (false, txt "Prompt not detected (timeout).")
  end.

Definition ensure_shell (fuel : nat) (self : ShellExecutor) (overall_timeout : Z)
  : M D (bool * str) :=
  match ser self with
  | None => ret (false, txt "Not connected")
  | Some _ =>
      buf <- wake fuel self 2 [] ;;
      start <- time_time ;;
      poll_loop fuel self start overall_timeout fuel buf
  end.

(** The [while time.time() < end] loop of [run]; returning is the
    [break] or the end of the window. *)
Fixpoint collect_loop (self : ShellExecutor) (end_ : Z) (fuel : nat) (collected : str)
  : M D str :=
  match fuel with
  | O => out_of_fuel
  | S fuel' =>
      t <- time_time ;;
      if t <? end_ then
        chunk <- _read_some self ;;
        if negb (is_empty chunk) then
          let collected := collected ++ chunk in
          if re_search PROMPT_REGEX collected then ret collected
          else collect_loop self end_ fuel' collected
        else time_sleep 20 ;;; collect_loop self end_ fuel' collected
      else ret collected
  end.

(** [re.sub(r"\x1B\[[0-?]*[ -/]*[@-~]", "", collected).replace("\r", "")] *)
Definition sanitize (collected : str) : str :=
  remove_char CR (re_sub_delete CSI_REGEX collected).

(** [if lines and lines[0].strip() == cmd: lines = lines[1:]] *)
Definition drop_echo (cmd : str) (lines : list str) : list str :=
  match lines with
  | first :: rest => if str_eqb (strip first) cmd then rest else lines
  | [] => lines
  end.

(** [self.prompt_re.match(line + "\n")] *)
Definition is_prompt_line (line : str) : bool :=
  re_match PROMPT_REGEX (line ++ [LF]).

(** [while lines and prompt_re.match(lines[-1] + "\n"): lines = lines[:-1]];
    the loop runs at most [len(lines)] times. *)
Fixpoint drop_prompts_loop (n : nat) (lines : list str) : list str :=
  match n with
  | O => lines
  | S n' =>
      match lines with
      | [] => lines
      | _ :: _ =>
          if is_prompt_line (last lines [])
          then drop_prompts_loop n' (removelast lines)
          else lines
      end
  end.

Definition drop_prompts (lines : list str) : list str :=
  drop_prompts_loop (List.length lines) lines.

(** From [collected] to [out]: lines 165-176 of [run]. *)
Definition clean_output (cmd collected : str) : str :=
  let text := sanitize collected in
  let lines := split LF text in
  let lines := drop_echo cmd lines in
  let lines := drop_prompts lines in
  strip (join [LF] lines).

Definition permission_denied (out : str) : bool :=
  contains (txt "Operation not permitted") out
  || contains (txt "Permission denied") out.

Definition run (fuel : nat) (self : ShellExecutor) (cmd : str) (timeout_s : Z)
  : M D (bool * str) :=
  match ser self with
  | None => ret (false, txt "Not connected")
  | Some _ =>
      let cmd := strip cmd in
      if is_empty cmd then ret (true, [])
      else
        with_lock (
          port_reset_input_buffer ;;;
          _write self (cmd ++ [LF]) ;;;
          t0 <- time_time ;;
          let end_ := t0 + timeout_s in
          collected <- collect_loop self end_ fuel [] ;;
          let out := clean_output cmd collected in
          if permission_denied out then ret (false, out)
          else
            t <- time_time ;;
            if (end_ <=? t) && is_empty out then ret (false, txt "[timeout]")
            else ret (true, out))
  end.

(** The world right after [run] has taken the lock, reset the input
    buffer and written the command line. *)
Definition after_send (cmd : str) (w : World D) : World D :=
  mkWorld (now w)
          (ser_write (ser_reset_input_buffer (dev w) (now w)) (now w) (cmd ++ [LF]))
          (Wrote (cmd ++ [LF]) :: InputReset :: io w) true.

(** Leaving [with self._lock]. *)
Definition released (w : World D) : World D :=
  mkWorld (now w) (dev w) (io w) false.

(** The three [return] statements that end [run], as a function of the
    collected text, the deadline and the time the loop was left. *)
Definition verdict (cmd collected : str) (end_ t : Z) : bool * str :=
  let out := clean_output cmd collected in
  if permission_denied out then (false, out)
  else if (end_ <=? t) && is_empty out then (false, txt "[timeout]")
  else (true, out).

(** The time at which a polling loop is back at its head after a read
    that started at [t]: a read that brought nothing is followed by a
    20 ms sleep. *)
Definition next_round (t : Z) (chunk : str) (blocked : Z) : Z :=
  if is_empty chunk then t + blocked + 20 else t + blocked.

End Driver.

(* ================================================================== *)
(** * [class SerialShell] of the stand-alone tester: [run_cmd] *)
(* ================================================================== *)

Module SerialShell.

Section Shell.

Context {D : Type} `{Serial D}.

(** Every [SerialShell(...)] of the repository is built with the default
    [prompt_regex], so [self.prompt_re] is [PROMPT_REGEX]. *)
Record SerialShell : Type := mkShell {
  ser : option SerialPort;
  username : str;
  password : str;
  buffer : str
}.

Definition set_buffer (self : SerialShell) (b : str) : SerialShell :=
  mkShell (ser self) (username self) (password self) b.

Definition _read_some (self : SerialShell) : M D str :=
  match ser self with
  | None => ret []
  | Some _ =>
      data <- port_read READ_CHUNK ;;
      if is_empty data then ret [] else ret data
  end.

Definition _write (self : SerialShell) (s : str) : M D unit :=
  match ser self with
  | None => raise (RuntimeError (txt "Serial not open"))
  | Some _ => port_write s
  end.

(** The read loop of [run_cmd]; [self.buffer] grows with [collected]. *)
Fixpoint cmd_loop (self : SerialShell) (end_ : Z) (fuel : nat) (collected : str)
  : M D (str * SerialShell) :=
  match fuel with
  | O => out_of_fuel
  | S fuel' =>
      t <- time_time ;;
      if t <? end_ then
        chunk <- _read_some self ;;
        if negb (is_empty chunk) then
          let collected := collected ++ chunk in
          let self := set_buffer self (buffer self ++ chunk) in
          if re_search PROMPT_REGEX (buffer self) then ret (collected, self)
          else cmd_loop self end_ fuel' collected
        else time_sleep 20 ;;; cmd_loop self end_ fuel' collected
      else ret (collected, self)
  end.

(** [run_cmd] returns the cleaned text; the object comes back with its
    [buffer] updated. *)
Definition run_cmd (fuel : nat) (self : SerialShell) (cmd : str) (timeout : Z)
  : M D (str * SerialShell) :=
  match ser self with
  | None => raise (RuntimeError (txt "Serial not open"))
  | Some _ =>
      let self := set_buffer self [] in
      _write self (strip cmd ++ [LF]) ;;;
      t0 <- time_time ;;
      let end_ := t0 + timeout in
      r <- cmd_loop self end_ fuel [] ;;
      let '(collected, self) := r in
      ret (clean_output (strip cmd) collected, self)
  end.

End Shell.

End SerialShell.

(* ================================================================== *)
(** * Simulated transports *)
(* ================================================================== *)

(** A port that plays a script: each read takes the next chunk of the
    script together with the time that read blocks; once the script is
    over every read times out empty after 100 ms.  Writes and resets
    leave the script alone. *)
Definition Script : Type := list (str * Z).

#[export] Instance scripted_port : Serial Script := {
  ser_read := fun d _ _ =>
    match d with
    | (chunk, blocked) :: rest => (chunk, blocked, rest)
    | [] => ([], 100, [])
    end;
  ser_write := fun d _ _ => d;
  ser_reset_input_buffer := fun d _ => d
}.

(** A board behind a login.  It shows its login line on the first read;
    its password line on the first read that starts at least
    [password_delay] ms after the user name was written; its prompt on
    the first read that starts at least [prompt_delay] ms after the
    password was written.  A read that delivers text blocks for
    [answer_ms]; every other read times out empty after 100 ms. *)
Inductive login_stage : Type :=
| ShowLogin
| AwaitUser
| ShowPassword (ready : Z)
| AwaitPassword
| ShowPrompt (ready : Z)
| Idle.

Record LoginBoard : Type := mkBoard {
  stage : login_stage;
  board_user : str;
  board_password : str;
  login_text : str;
  password_text : str;
  prompt_text : str;
  password_delay : Z;
  prompt_delay : Z;
  answer_ms : Z
}.

Definition at_stage (b : LoginBoard) (s : login_stage) : LoginBoard :=
  mkBoard s (board_user b) (board_password b) (login_text b)
          (password_text b) (prompt_text b)
          (password_delay b) (prompt_delay b) (answer_ms b).

(** What the board has to say at time [t], and the stage it moves to
    once that has been read. *)
Definition due (b : LoginBoard) (t : Z) : option (str * login_stage) :=
  match stage b with
  | ShowLogin => Some (login_text b, AwaitUser)
  | ShowPassword ready =>
      if ready <=? t then Some (password_text b, AwaitPassword) else None
  | ShowPrompt ready =>
      if ready <=? t then Some (prompt_text b, Idle) else None
  | _ => None
  end.

#[export] Instance login_board : Serial LoginBoard := {
  ser_read := fun b t _ =>
    match due b t with
    | Some (text, next) => (text, answer_ms b, at_stage b next)
    | None => ([], 100, b)
    end;
  ser_write := fun b t s =>
    match stage b with
    | AwaitUser =>
        if str_eqb s (board_user b ++ [LF])
        then at_stage b (ShowPassword (t + password_delay b)) else b
    | AwaitPassword =>
        if str_eqb s (board_password b ++ [LF])
        then at_stage b (ShowPrompt (t + prompt_delay b)) else b
    | _ => b
    end;
  ser_reset_input_buffer := fun b _ => b
}.

(** A connected executor with the default credentials of [__init__]. *)
Definition connected : ShellExecutor :=
  mkExecutor (Some (mkPort (txt "COM3") 115200)) (txt "root") [].

Definition disconnected : ShellExecutor :=
  mkExecutor None (txt "root") [].

Definition world0 {D} (d : D) : World D := mkWorld 0 d [] false.

(** An executor and a board that agree on the credentials root / toor;
    the board answers a read with text within 50 ms. *)
Definition root_executor : ShellExecutor :=
  mkExecutor (Some (mkPort (txt "COM3") 115200)) (txt "root") (txt "toor").

Definition root_board (password_delay prompt_delay : Z) : LoginBoard :=
  mkBoard ShowLogin (txt "root") (txt "toor")
          (txt "login: ") ([LF] ++ txt "Password: ") ([LF] ++ txt "root@board:~# ")
          password_delay prompt_delay 50.

(* ================================================================== *)
(** * Further parts of the code *)
(* ================================================================== *)

(** The text read among the events of a log, oldest first. *)
Fixpoint reads_of (log : list io_event) : str :=
  match log with
  | [] => []
  | ReadGot chunk :: rest => reads_of rest ++ chunk
  | _ :: rest => reads_of rest
  end.

Definition is_read (e : io_event) : Prop :=
  match e with
  | ReadGot _ => True
  | _ => False
  end.

(** The events [ensure_shell] may add to the log: reads, and writes of a
    bare newline, of the user name line or of the password line. *)
Definition bootstrap_event (user pw : str) (e : io_event) : Prop :=
  match e with
  | ReadGot _ => True
  | Wrote s => s = [LF] \/ s = user ++ [LF] \/ s = pw ++ [LF]
  | InputReset => False
  end.

(** [advanced allowed lo hi w w']: from [w] to [w'] the log has only grown,
    by events that are all [allowed]; between [lo] and [hi] ms have
    passed; the lock is as it was. *)
Definition advanced {D} (allowed : io_event -> Prop) (lo hi : Z) (w w' : World D)
  : Prop :=
  (exists events, io w' = events ++ io w /\ Forall allowed events)
  /\ now w + lo <= now w' <= now w + hi
  /\ lock_held w' = lock_held w.

(** A port that hands over one chunk of a list per read, each read
    blocking for 50 ms, and that times out empty after 100 ms once the list
    is used up.  Writes and resets leave the list alone. *)
Inductive Paced : Type :=
| paced (chunks : list str).

#[export] Instance paced_port : Serial Paced := {
  ser_read := fun d _ _ =>
    match d with
    | paced (chunk :: rest) => (chunk, 50, paced rest)
    | paced [] => ([], 100, paced [])
    end;
  ser_write := fun d _ _ => d;
  ser_reset_input_buffer := fun d _ => d
}.

(** ** [TestUart5Tab._exec_cmd] over a [ShellExecutor]

    The tab looks its executor up by attribute name; a [ShellExecutor]
    has [is_connected] and [run], so the guard is taken and [run] is the
    method called, with its default [timeout_s=6.0].  The result is
    [(res[1] or "").strip()]. *)
Section Tabs.

Context {D : Type} `{Serial D}.

Definition _exec_cmd (fuel : nat) (exec : ShellExecutor) (cmd : str) : M D str :=
  if negb (is_connected exec) then ret (txt "Not connected")
  else
    res <- run fuel exec cmd 6000 ;;
    ret (strip (snd res)).

End Tabs.

(** ** [SerialShell._drain] and [SerialShell.ensure_shell] *)

Module SerialShellBoot.

Import SerialShell.

Section Boot.

Context {D : Type} `{Serial D}.

(** The [while time.time() < end] loop of [_drain]: what is read goes to
    [out] and to [self.buffer]. *)
Fixpoint drain_loop (self : SerialShell) (end_ : Z) (fuel : nat) (out : str)
  : M D (str * SerialShell) :=
  match fuel with
  | O => out_of_fuel
  | S fuel' =>
      t <- time_time ;;
      if t <? end_ then
        chunk <- _read_some self ;;
        if negb (is_empty chunk) then
          drain_loop (set_buffer self (buffer self ++ chunk)) end_ fuel' (out ++ chunk)
        else time_sleep 20 ;;; drain_loop self end_ fuel' out
      else ret (out, self)
  end.

Definition _drain (fuel : nat) (self : SerialShell) (duration : Z)
  : M D (str * SerialShell) :=
  t <- time_time ;;
  drain_loop self (t + duration) fuel [].

(** [for _ in range(n)]: two newlines and a drain per wake attempt. *)
Fixpoint wake (fuel : nat) (self : SerialShell) (n : nat) : M D SerialShell :=
  match n with
  | O => ret self
  | S n' =>
      _write self [LF] ;;;
      time_sleep 100 ;;;
      _write self [LF] ;;;
      r <- _drain fuel self 400 ;;
      wake fuel (snd r) n'
  end.

(** [if cond: body] where [body] leaves a new [self]. *)
Definition when_ (cond : bool) (self : SerialShell) (body : M D SerialShell)
  : M D SerialShell :=
  if cond then body else ret self.

Fixpoint poll_loop (fuel : nat) (start overall_timeout : Z) (n : nat)
         (self : SerialShell) : M D ((bool * str) * SerialShell) :=
  match n with
  | O => out_of_fuel
  | S n' =>
      t <- time_time ;;
      if t - start <? overall_timeout then
        _write self [LF] ;;;
        time_sleep 100 ;;;
        r <- _drain fuel self 500 ;;
        let self := snd r in
        if re_search PROMPT_REGEX (buffer self) then
          ret ((true, txt "Shell prompt detected."), self)
        else
          self <- when_ (re_search LOGIN_REGEX (buffer self)) self
                    (_write self (username self ++ [LF]) ;;;
                     r <- _drain fuel self 800 ;; ret (snd r)) ;;
          self <- when_ (re_search PASSWORD_REGEX (buffer self)) self
                    (_write self (password self ++ [LF]) ;;;
                     r <- _drain fuel self 1000 ;; ret (snd r)) ;;
          self <- when_ (re_search ACTIVATE_REGEX (buffer self)) self
                    (_write self [LF] ;;;
                     r <- _drain fuel self 800 ;; ret (snd r)) ;;
          poll_loop fuel start overall_timeout n' self
      else
        ret ((false,
              txt "Could not detect prompt/login within timeout. Check COM/baud/UART wiring."),
             self)
  end.

Definition ensure_shell (fuel : nat) (self : SerialShell) (overall_timeout : Z)
  : M D ((bool * str) * SerialShell) :=
  start <- time_time ;;
  let self := set_buffer self [] in
  self <- wake fuel self 3 ;;
  poll_loop fuel start overall_timeout fuel self.

End Boot.

End SerialShellBoot.

(** ** [parse_lsusb] *)

(** The line boundaries of [str.splitlines()]. *)
Definition is_linebreak : char -> bool :=
  one_of [10; 11; 12; 13; 28; 29; 30; 133; 8232; 8233]%N.

(** [s.splitlines()]: the lines without their boundaries; [\r\n] is one
    boundary, and a boundary at the very end opens no further line. *)
Fixpoint splitlines (s : str) : list str :=
  match s with
  | [] => []
  | c :: s' =>
      if is_linebreak c then
        [] :: match s' with
              | d :: s'' =>
                  if ((c =? CR) && (d =? LF))%N then splitlines s'' else splitlines s'
              | [] => []
              end
      else
        match splitlines s' with
        | l :: ls => (c :: l) :: ls
        | [] => [[c]]
        end
  end.

(** [{"device_count": ..., "devices": ...}] *)
Record LsusbReport : Type := mkLsusb {
  device_count : nat;
  devices : list str
}.

Definition parse_lsusb (txt_ : str) : LsusbReport :=
  let devices :=
    map strip (filter (fun ln => negb (is_empty (strip ln))) (splitlines txt_)) in
  mkLsusb (List.length devices) devices.

(** ** Relations and predicates used in the statements about [SerialShell]
    and the login pattern *)

(** [shell_advanced allowed lo hi self w self' w']: from [w] to [w'] the
    log has grown by events that are all [allowed], what was read among
    them has been appended to [self.buffer] and nothing else of the object
    has changed, and between [lo] and [hi] ms have passed. *)
Definition shell_advanced {D} (allowed : io_event -> Prop) (lo hi : Z)
           (self : SerialShell.SerialShell) (w : World D)
           (self' : SerialShell.SerialShell) (w' : World D) : Prop :=
  exists events,
    io w' = events ++ io w /\ Forall allowed events
    /\ self' = SerialShell.set_buffer self (SerialShell.buffer self ++ reads_of events)
    /\ now w + lo <= now w' <= now w + hi.

(** [w] spells [word] letter by letter under IGNORECASE. *)
Definition spells_ci (word : string) (w : str) : Prop :=
  Forall2 (fun a c => ci a c = true) (list_ascii_of_string word) w.

(** ** Transcripts as a console sends them

    Around the text it shows a serial console puts carriage returns and
    ANSI CSI sequences (colours, cursor moves).  A transcript is a list
    of pieces: [raw_text] is what goes over the line, [plain_text] is the
    text shown. *)
Inductive piece : Type :=
| Shown (c : char)                        (* a character of the text *)
| CarriageReturn
| Csi (params inter : str) (final : char). (* [ESC [ params inter final] *)

Definition raw_of (p : piece) : str :=
  match p with
  | Shown c => [c]
  | CarriageReturn => [CR]
  | Csi params inter final => ESC :: ch "[" :: params ++ inter ++ [final]
  end.

Definition plain_of (p : piece) : str :=
  match p with
  | Shown c => [c]
  | _ => []
  end.

(** A shown character is neither ESC nor a carriage return; a CSI
    sequence has parameter bytes [0-?], intermediate bytes [ -/] and a
    final byte [@-~]. *)
Definition piece_ok (p : piece) : bool :=
  match p with
  | Shown c => negb (c =? ESC)%N && negb (c =? CR)%N
  | CarriageReturn => true
  | Csi params inter final =>
      forallb (in_range (ch "0") (ch "?")) params
      && forallb (in_range (ch " ") (ch "/")) inter
      && in_range (ch "@") (ch "~") final
  end.

Definition raw_text (ps : list piece) : str := flat_map raw_of ps.

Definition plain_text (ps : list piece) : str := flat_map plain_of ps.

(** [pieces_in_order ds t]: the texts [ds] occur in [t] as they stand,
    one after the other and without overlap. *)
Inductive pieces_in_order : list str -> str -> Prop :=
| pieces_none (t : str) : pieces_in_order [] t
| pieces_next (a d : str) (ds : list str) (b : str) :
    pieces_in_order ds b -> pieces_in_order (d :: ds) (a ++ d ++ b).

(* ================================================================== *)
(** * Properties *)
(* ================================================================== *)

(* ------------------------------------------------------------------ *)
(** ** The matcher and the prompt pattern *)
(* ------------------------------------------------------------------ *)

Lemma prev_after_cons prev c a : prev_after prev (c :: a) = prev_after (Some c) a.
Proof.
  unfold prev_after. revert c prev. induction a as [|x a IH]; intros; [reflexivity|].
  change (map Some (c :: x :: a)) with (Some c :: map Some (x :: a)).
  change (last (Some c :: map Some (x :: a)) prev) with (last (map Some (x :: a)) prev).
  rewrite (IH x prev). rewrite (IH x (Some c)). reflexivity.
Qed.

Lemma prev_after_app prev a b : prev_after prev (a ++ b) = prev_after (prev_after prev a) b.
Proof.
  revert prev. induction a as [|x a IH]; intros; [reflexivity|].
  rewrite <- app_comm_cons, !prev_after_cons. apply IH.
Qed.

Lemma or_else_some {A} (x y : option A) :
  or_else x y <> None <-> x <> None \/ y <> None.
Proof. destruct x, y; simpl; split; intros; try tauto; try (left; discriminate); try (right; discriminate). destruct H; congruence. Qed.

Lemma star_some {A} p (k : option char -> str -> option A) s : forall prev,
  star p prev s k <> None <->
  exists a rest, s = a ++ rest /\ forallb p a = true /\ k (prev_after prev a) rest <> None.
Proof.
  induction s as [|c s IH]; intros prev; simpl.
  - split.
    + intros Hk. exists [], []. auto.
    + intros (a & rest & E & _ & Hk). symmetry in E. apply app_eq_nil in E as [-> ->]. exact Hk.
  - destruct (p c) eqn:Hp.
    + rewrite or_else_some, IH. split.
      * intros [(a & rest & -> & Ha & Hk) | Hk].
        -- exists (c :: a), rest. rewrite prev_after_cons. simpl. rewrite Hp. auto.
        -- exists [], (c :: s). auto.
      * intros (a & rest & E & Ha & Hk). destruct a as [|x a].
        -- right. simpl in E. subst rest. exact Hk.
        -- left. simpl in E. injection E as -> ->. simpl in Ha.
           apply andb_true_iff in Ha as [_ Ha]. rewrite prev_after_cons in Hk.
           exists a, rest. auto.
    + split.
      * intros Hk. exists [], (c :: s). auto.
      * intros (a & rest & E & Ha & Hk). destruct a as [|x a].
        -- simpl in E. subst rest. exact Hk.
        -- simpl in E. injection E as -> ->. simpl in Ha. rewrite Hp in Ha. discriminate.
Qed.

Lemma search_from_true r s : forall prev,
  search_from r prev s = true <->
  exists pre post, s = pre ++ post /\ match_here r (prev_after prev pre) post <> None.
Proof.
  induction s as [|c s IH]; intros prev; cbn [search_from].
  - destruct (match_here r prev []) eqn:E.
    + split; auto. intros _. exists [], []. unfold prev_after; simpl. rewrite E. split; [reflexivity|discriminate].
    + split; [discriminate|]. intros (pre & post & E' & Hm).
      symmetry in E'. apply app_eq_nil in E' as [-> ->]. unfold prev_after in Hm. simpl in Hm. congruence.
  - destruct (match_here r prev (c :: s)) eqn:E.
    + split; auto. intros _. exists [], (c :: s). unfold prev_after; simpl. rewrite E. split; [reflexivity|discriminate].
    + rewrite IH. split.
      * intros (pre & post & -> & Hm). exists (c :: pre), post. rewrite prev_after_cons. auto.
      * intros (pre & post & E' & Hm). destruct pre as [|x pre].
        -- simpl in E'. subst post. unfold prev_after in Hm; simpl in Hm. congruence.
        -- simpl in E'. injection E' as -> ->. rewrite prev_after_cons in Hm. eauto.
Qed.


Lemma prompt_here prev s :
  match_here PROMPT_REGEX prev s <> None <->
  at_bol prev = true /\
  exists a c w rest,
    s = a ++ c :: w ++ rest /\ forallb no_newline a = true /\
    hash_or_dollar c = true /\ forallb is_space w = true /\ at_eol rest = true.
Proof.
  unfold match_here, PROMPT_REGEX. cbn [cat_all exec].
  destruct (at_bol prev); [|split; [congruence | intros [? _]; discriminate]].
  rewrite star_some. split.
  - intros (a & r1 & -> & Ha & Hk). split; [reflexivity|].
    destruct r1 as [|c r1]; [congruence|].
    destruct (hash_or_dollar c) eqn:Hc; [|congruence].
    apply star_some in Hk as (w & rest & -> & Hw & Hk).
    destruct (at_eol rest) eqn:He; [|congruence].
    exists a, c, w, rest. auto.
  - intros (_ & a & c & w & rest & -> & Ha & Hc & Hw & He).
    exists a, (c :: w ++ rest). split; [reflexivity|]. split; [exact Ha|].
    rewrite Hc. apply star_some.
    exists w, rest. rewrite He. repeat split; auto. discriminate.
Qed.

Lemma at_bol_prev_after pre :
  at_bol (prev_after None pre) = true <-> pre = [] \/ exists b, pre = b ++ [LF].
Proof.
  destruct pre as [|x pre] using rev_ind.
  - split; auto.
  - rewrite prev_after_app. unfold prev_after at 1. simpl. split.
    + intros E. apply N.eqb_eq in E. subst x. right. eauto.
    + intros [E | (b & E)].
      * destruct pre; discriminate.
      * apply app_inj_tail in E as [_ ->]. reflexivity.
Qed.

Lemma at_eol_iff s : at_eol s = true <-> s = [] \/ exists a, s = LF :: a.
Proof.
  destruct s as [|c s]; simpl.
  - split; auto.
  - split.
    + intros E. apply N.eqb_eq in E. subst. right. eauto.
    + intros [E | (a & E)]; [discriminate|]. injection E as -> _. reflexivity.
Qed.

(** Cutting a run of whitespace at its first newline. *)
Lemma cut_at_newline w :
  forallb is_space w = true ->
  (Forall (fun x => is_space x = true /\ x <> LF) w) \/
  exists w1 w2, w = w1 ++ LF :: w2 /\ Forall (fun x => is_space x = true /\ x <> LF) w1.
Proof.
  induction w as [|x w IH]; intros Hw.
  - left. constructor.
  - simpl in Hw. apply andb_true_iff in Hw as [Hx Hw].
    destruct (N.eq_dec x LF) as [->|Hne].
    + right. exists [], w. split; [reflexivity|constructor].
    + destruct (IH Hw) as [Hall | (w1 & w2 & -> & Hall)].
      * left. constructor; auto.
      * right. exists (x :: w1), w2. split; [reflexivity|]. constructor; auto.
Qed.

Lemma no_newline_iff x : no_newline x = true <-> x <> LF /\ x <> CR.
Proof.
  unfold no_newline, none_of. simpl. rewrite negb_true_iff, !orb_false_iff.
  rewrite !N.eqb_neq. tauto.
Qed.

Lemma hash_or_dollar_iff c : hash_or_dollar c = true <-> c = ch "#" \/ c = ch "$".
Proof.
  unfold hash_or_dollar, one_of. simpl. rewrite !orb_true_iff, !N.eqb_eq.
  intuition congruence.
Qed.

Lemma forallb_Forall_iff {A} (p : A -> bool) (P : A -> Prop) l :
  (forall x, p x = true <-> P x) -> forallb p l = true <-> Forall P l.
Proof.
  intros Hp. rewrite forallb_forall, Forall_forall. split; intros Hall x Hx; apply Hp, Hall, Hx.
Qed.

Lemma prompt_search_iff s :
  re_search PROMPT_REGEX s = true <-> spec_prompt_pattern s.
Proof.
  unfold re_search. rewrite search_from_true. split.
  - intros (pre & post & -> & Hm). apply prompt_here in Hm as (Hb & a & c & w & rest & -> & Ha & Hc & Hw & He).
    apply at_bol_prev_after in Hb. apply at_eol_iff in He.
    apply (@forallb_Forall_iff _ _ _ a no_newline_iff) in Ha. apply hash_or_dollar_iff in Hc.
    destruct (@cut_at_newline w Hw) as [Hall | (w1 & w2 & -> & Hall)].
    + exists pre, a, c, w, rest. auto 7.
    + exists pre, a, c, w1, (LF :: w2 ++ rest). rewrite <- app_assoc. simpl.
      repeat split; auto. right. eauto.
  - intros (pre & a & c & w & rest & -> & Hb & He & Ha & Hc & Hw).
    exists pre, (a ++ c :: w ++ rest). split; [reflexivity|]. apply prompt_here.
    split; [apply at_bol_prev_after; exact Hb|].
    exists a, c, w, rest. repeat split.
    + apply (@forallb_Forall_iff _ _ _ a no_newline_iff); exact Ha.
    + apply hash_or_dollar_iff; exact Hc.
    + apply forallb_forall. intros x Hx. rewrite Forall_forall in Hw. apply Hw, Hx.
    + apply at_eol_iff; exact He.
Qed.

Lemma prompt_at_last_line pre body c trail :
  (pre = [] \/ exists b, pre = b ++ [LF]) ->
  forallb no_newline body = true -> hash_or_dollar c = true ->
  forallb (fun x => is_space x && negb (x =? LF)%N) trail = true ->
  re_search PROMPT_REGEX (pre ++ body ++ c :: trail) = true.
Proof.
  intros Hpre Hb Hc Ht. apply prompt_search_iff.
  exists pre, body, c, trail, []. rewrite app_nil_r. repeat split; auto.
  - apply (@forallb_Forall_iff _ _ _ body no_newline_iff); exact Hb.
  - apply hash_or_dollar_iff; exact Hc.
  - apply Forall_forall. intros x Hx. rewrite forallb_forall in Ht.
    specialize (Ht x Hx). apply andb_true_iff in Ht as [H1 H2].
    apply negb_true_iff, N.eqb_neq in H2. auto.
Qed.

(** Text that ends in a character that is neither blank nor [#] nor [$]
    adds no prompt line: a match of the whole is a match of what came
    before. *)
Lemma no_prompt_appended s tail_ x :
  ~ In LF (tail_ ++ [x]) -> is_space x = false -> hash_or_dollar x = false ->
  re_search PROMPT_REGEX (s ++ tail_ ++ [x]) = true ->
  re_search PROMPT_REGEX s = true.
Proof.
  intros Hnl Hsp Hhd Hm. apply prompt_search_iff in Hm.
  destruct Hm as (before & body & c & trail & after & E & Hb & He & Hbody & Hc & Ht).
  destruct He as [-> | (a & ->)].
  - exfalso. rewrite app_nil_r in E.
    apply (f_equal (@rev char)) in E. rewrite !rev_app_distr in E. simpl in E.
    rewrite ?rev_app_distr in E. simpl in E.
    destruct (rev trail) as [|y rt] eqn:Ert.
    + simpl in E. injection E as Ex _. subst c.
      apply hash_or_dollar_iff in Hc. congruence.
    + simpl in E. rewrite <- ?app_assoc in E. simpl in E. injection E as Ex _. subst y.
      assert (Hin : In x trail) by (apply in_rev; rewrite Ert; left; reflexivity).
      rewrite Forall_forall in Ht. destruct (Ht x Hin) as [Hx _]. congruence.
  - assert (E' : s ++ (tail_ ++ [x]) = (before ++ body ++ c :: trail ++ [LF]) ++ a).
    { rewrite E. repeat (rewrite <- app_assoc; simpl). reflexivity. }
    apply app_eq_app in E' as (l & [[Hs Ha] | [Hs Ha]]).
    + apply prompt_search_iff. exists before, body, c, trail, (LF :: l).
      split; [rewrite Hs; repeat (rewrite <- app_assoc; simpl); reflexivity|].
      repeat split; auto. right. eauto.
    + destruct l as [|y l] using rev_ind.
      * rewrite app_nil_r in Hs. apply prompt_search_iff.
        exists before, body, c, trail, [LF].
        split; [rewrite <- Hs; repeat (rewrite <- app_assoc; simpl); reflexivity|].
        repeat split; auto. right. exists []. reflexivity.
      * exfalso. apply Hnl. rewrite Ha. apply in_or_app. left.
        assert (y = LF).
        { clear - Hs.
          change (before ++ body ++ c :: trail ++ [LF])
            with (before ++ body ++ (c :: trail) ++ [LF]) in Hs.
          rewrite !app_assoc in Hs. apply app_inj_tail in Hs as [_ Hy]. auto. }
        subst y. apply in_or_app. right. left. reflexivity.
Qed.

(** C6.  The prompt pattern finds a match in a text exactly when the
    text contains a full line of non-newline characters that ends in [#]
    or [$] followed only by blanks.  So a text whose last line ends in
    ["root@board:~# "] or ["user$ "] matches, whatever non-newline text
    [line] precedes the prompt on that line and whatever lines come
    [before] it, and appending ["#define FOO"] to a text never makes it
    match: its [#] is followed by more text. *)
Theorem prompt_pattern_characterised :
  (forall s, re_search PROMPT_REGEX s = true <-> spec_prompt_pattern s)
  /\ (forall before line,
        forallb no_newline line = true ->
        re_search PROMPT_REGEX (line ++ txt "root@board:~# ") = true
        /\ re_search PROMPT_REGEX (before ++ [LF] ++ line ++ txt "root@board:~# ") = true
        /\ re_search PROMPT_REGEX (line ++ txt "user$ ") = true
        /\ re_search PROMPT_REGEX (before ++ [LF] ++ line ++ txt "user$ ") = true)
  /\ (forall s,
        re_search PROMPT_REGEX s = false ->
        re_search PROMPT_REGEX (s ++ txt "#define FOO") = false).
Proof.
  split; [exact prompt_search_iff|]. split.
  - intros before line Hline.
    assert (Hbody : forall name, forallb no_newline name = true ->
                    forallb no_newline (line ++ name) = true).
    { intros name Hname. rewrite forallb_app, Hline, Hname. reflexivity. }
    assert (Hroot : forall pre, (pre = [] \/ exists b, pre = b ++ [LF]) ->
                    re_search PROMPT_REGEX (pre ++ line ++ txt "root@board:~# ") = true).
    { intros pre Hpre.
      replace (line ++ txt "root@board:~# ")
        with ((line ++ txt "root@board:~") ++ ch "#" :: txt " ")
        by (rewrite <- app_assoc; reflexivity).
      apply (@prompt_at_last_line pre _ (ch "#") (txt " ") Hpre);
        [apply Hbody| |]; reflexivity. }
    assert (Huser : forall pre, (pre = [] \/ exists b, pre = b ++ [LF]) ->
                    re_search PROMPT_REGEX (pre ++ line ++ txt "user$ ") = true).
    { intros pre Hpre.
      replace (line ++ txt "user$ ")
        with ((line ++ txt "user") ++ ch "$" :: txt " ")
        by (rewrite <- app_assoc; reflexivity).
      apply (@prompt_at_last_line pre _ (ch "$") (txt " ") Hpre);
        [apply Hbody| |]; reflexivity. }
    split; [|split; [|split]].
    + apply (Hroot []). left; reflexivity.
    + rewrite app_assoc. apply Hroot. right; eauto.
    + apply (Huser []). left; reflexivity.
    + rewrite app_assoc. apply Huser. right; eauto.
  - intros s Hs. destruct (re_search PROMPT_REGEX (s ++ txt "#define FOO")) eqn:E; [|reflexivity].
    rewrite <- Hs. symmetry.
    apply (@no_prompt_appended s (txt "#define FO") (ch "O")); try reflexivity; try exact E.
    vm_compute. intuition discriminate.
Qed.

Lemma prompt_pattern_characterised_witness :
  re_search PROMPT_REGEX (txt "login: root" ++ [LF] ++ txt "last login: " ++ txt "user$ ") = true
  /\ re_search PROMPT_REGEX ((txt "ls -la" ++ [LF]) ++ txt "#define FOO") = false.
Proof.
  split.
  - apply (proj1 (proj2 prompt_pattern_characterised) (txt "login: root") (txt "last login: ")).
    reflexivity.
  - apply (proj2 (proj2 prompt_pattern_characterised) (txt "ls -la" ++ [LF])).
    vm_compute. reflexivity.
Defined.

(* ------------------------------------------------------------------ *)
(** ** Text *)
(* ------------------------------------------------------------------ *)

Lemma has_char_absent c s : has_char c s = false -> ~ In c s.
Proof.
  unfold has_char. intros Hf Hin.
  assert (Ht : existsb (N.eqb c) s = true).
  { apply existsb_exists. exists c. split; [exact Hin|apply N.eqb_refl]. }
  congruence.
Qed.

Lemma has_char_app c a b : has_char c (a ++ b) = has_char c a || has_char c b.
Proof. unfold has_char. apply existsb_app. Qed.

Lemma is_plain_app a b :
  is_plain a = true -> is_plain b = true -> is_plain (a ++ b) = true.
Proof.
  unfold is_plain. rewrite !has_char_app, !andb_true_iff, !negb_true_iff.
  intros [-> ->] [-> ->]. split; reflexivity.
Qed.

Lemma str_eqb_eq a b : str_eqb a b = true <-> a = b.
Proof. unfold str_eqb. destruct (list_eq_dec N.eq_dec a b); split; congruence. Qed.

Lemma str_eqb_refl a : str_eqb a a = true.
Proof. apply str_eqb_eq. reflexivity. Qed.

Lemma is_empty_true s : is_empty s = true <-> s = [].
Proof. destruct s; simpl; split; congruence. Qed.

Lemma lstrip_blank s : forallb is_space s = true -> lstrip s = [].
Proof.
  induction s as [|c s IH]; simpl; [reflexivity|].
  intros Hs. apply andb_true_iff in Hs as [-> Hs]. auto.
Qed.

Lemma strip_blank s : forallb is_space s = true -> strip s = [].
Proof. intros Hs. unfold strip. rewrite (@lstrip_blank s Hs). reflexivity. Qed.

Lemma remove_char_absent c s : ~ In c s -> remove_char c s = s.
Proof.
  induction s as [|x s IH]; simpl; intros Hn; [reflexivity|].
  destruct (N.eqb_spec x c) as [->|Hne]; simpl.
  - exfalso. apply Hn. left. reflexivity.
  - f_equal. apply IH. intros Hin. apply Hn. right. exact Hin.
Qed.

Lemma csi_needs_esc prev c s : c <> ESC -> match_here CSI_REGEX prev (c :: s) = None.
Proof.
  intros Hne. unfold match_here, CSI_REGEX. cbn [cat_all exec].
  unfold is_char at 1. destruct (N.eqb_spec c ESC); [contradiction|reflexivity].
Qed.

Lemma sub_csi_absent s : forall prev, ~ In ESC s -> sub_from CSI_REGEX O prev s = s.
Proof.
  induction s as [|c s IH]; intros prev Hn; [reflexivity|].
  cbn [sub_from]. rewrite csi_needs_esc.
  - f_equal. apply IH. intros Hin. apply Hn. right. exact Hin.
  - intros ->. apply Hn. left. reflexivity.
Qed.


(** Text without escape characters and carriage returns passes through
    [sanitize] unchanged. *)
Lemma sanitize_plain s : is_plain s = true -> sanitize s = s.
Proof.
  unfold is_plain. rewrite andb_true_iff, !negb_true_iff. intros [He Hc].
  unfold sanitize, re_sub_delete.
  rewrite sub_csi_absent by (apply has_char_absent; exact He).
  apply remove_char_absent, has_char_absent, Hc.
Qed.

Lemma split_nonempty sep s : split sep s <> [].
Proof.
  destruct s as [|c s]; simpl; [discriminate|].
  destruct (c =? sep)%N; [discriminate|]. destruct (split sep s); discriminate.
Qed.

Lemma split_absent sep s : ~ In sep s -> split sep s = [s].
Proof.
  induction s as [|c s IH]; simpl; intros Hn; [reflexivity|].
  destruct (N.eqb_spec c sep) as [->|Hne].
  - exfalso. apply Hn. left. reflexivity.
  - rewrite IH; [reflexivity|]. intros Hin. apply Hn. right. exact Hin.
Qed.

Lemma split_cons_line sep a b : ~ In sep a -> split sep (a ++ sep :: b) = a :: split sep b.
Proof.
  induction a as [|c a IH]; simpl; intros Hn.
  - rewrite N.eqb_refl. reflexivity.
  - destruct (N.eqb_spec c sep) as [->|Hne].
    + exfalso. apply Hn. left. reflexivity.
    + rewrite IH; [reflexivity|]. intros Hin. apply Hn. right. exact Hin.
Qed.

Lemma split_snoc_line sep a b : ~ In sep b -> split sep (a ++ sep :: b) = split sep a ++ [b].
Proof.
  intros Hb. induction a as [|c a IH]; simpl.
  - rewrite N.eqb_refl, split_absent by exact Hb. reflexivity.
  - destruct (c =? sep)%N.
    + rewrite IH. reflexivity.
    + rewrite IH. destruct (split sep a) as [|l ls] eqn:E.
      * exfalso. exact (@split_nonempty sep a E).
      * reflexivity.
Qed.

Lemma join_split sep s : join [sep] (split sep s) = s.
Proof.
  induction s as [|c s IH]; simpl; [reflexivity|].
  destruct (c =? sep)%N eqn:Ec.
  - apply N.eqb_eq in Ec. subst c.
    destruct (split sep s) as [|l ls] eqn:E.
    + exfalso. exact (@split_nonempty sep s E).
    + change (join [sep] ([] :: l :: ls)) with ([] ++ [sep] ++ join [sep] (l :: ls)).
      rewrite IH. reflexivity.
  - destruct (split sep s) as [|l ls] eqn:E.
    + exfalso. exact (@split_nonempty sep s E).
    + destruct ls; simpl in *; rewrite <- IH; reflexivity.
Qed.

Lemma drop_prompts_loop_keep n (lines : list str) :
  is_prompt_line (last lines []) = false -> drop_prompts_loop n lines = lines.
Proof.
  intros Hl. destruct n; cbn [drop_prompts_loop]; [reflexivity|].
  rewrite Hl. destruct lines; reflexivity.
Qed.

Lemma drop_prompts_last (lines : list str) (p : str) :
  is_prompt_line p = true -> is_prompt_line (last lines []) = false ->
  drop_prompts (lines ++ [p]) = lines.
Proof.
  intros Hp Hl. unfold drop_prompts. rewrite length_app. simpl.
  rewrite Nat.add_1_r. cbn [drop_prompts_loop].
  destruct (lines ++ [p]) eqn:E; [destruct lines; discriminate|].
  rewrite <- E. rewrite last_last, Hp, removelast_last.
  apply drop_prompts_loop_keep, Hl.
Qed.

(** The transcript of a coloured error line: escape sequences and the
    carriage return go, the text stays. *)
Example clean_output_strips_colour :
  clean_output (txt "make")
               ([ESC] ++ txt "[31mERROR" ++ [ESC] ++ txt "[0m" ++ [CR; LF])
  = txt "ERROR".
Proof. vm_compute. reflexivity. Qed.

(* ------------------------------------------------------------------ *)
(** ** Reasoning about runs of the driver *)
(* ------------------------------------------------------------------ *)

Section Hoare.

Context {D : Type} `{Serial D}.

(** The rules of [returns] for the monad. *)
Lemma returns_ret {A} (a : A) (w : World D) (Q : A -> World D -> Prop) :
  Q a w -> returns (ret a) w Q.
Proof. intros HQ. exists a, w. split; [reflexivity|exact HQ]. Qed.

Lemma returns_bind {A B} (m : M D A) (f : A -> M D B) w (Q : B -> World D -> Prop) :
  returns m w (fun a w' => returns (f a) w' Q) -> returns (bind m f) w Q.
Proof.
  intros (a & w' & Hm & b & w'' & Hf & HQ). exists b, w''.
  unfold bind. rewrite Hm. auto.
Qed.

Lemma returns_weaken {A} (m : M D A) w (P Q : A -> World D -> Prop) :
  returns m w P -> (forall a w', P a w' -> Q a w') -> returns m w Q.
Proof. intros (a & w' & Hm & HP) HPQ. exists a, w'. auto. Qed.

Variable self : ShellExecutor.
Hypothesis Hopen : is_connected self = true.

(** The two port primitives on an open session. *)
Lemma read_some_open (w : World D) :
  _read_some self w
  = let '(chunk, blocked, d') := ser_read (dev w) (now w) READ_CHUNK in
    Done chunk (mkWorld (now w + blocked) d' (ReadGot chunk :: io w) (lock_held w)).
Proof.
  unfold _read_some, is_connected in *. destruct (ser self); [|discriminate].
  unfold bind, port_read. destruct (ser_read (dev w) (now w) READ_CHUNK) as [[chunk blocked] d'].
  destruct chunk; reflexivity.
Qed.

Lemma write_open s (w : World D) :
  _write self s w
  = Done tt (mkWorld (now w) (ser_write (dev w) (now w) s) (Wrote s :: io w) (lock_held w)).
Proof.
  unfold _write, is_connected in *. destruct (ser self); [reflexivity|discriminate].
Qed.


(** One round of the drain loop. *)
Lemma drain_loop_round end_ fuel out (w : World D) :
  drain_loop self end_ (S fuel) out w
  = if now w <? end_ then
      let '(chunk, blocked, d') := ser_read (dev w) (now w) READ_CHUNK in
      drain_loop self end_ fuel (out ++ chunk)
                 (mkWorld (next_round (now w) chunk blocked) d'
                          (ReadGot chunk :: io w) (lock_held w))
    else Done out w.
Proof.
  cbn [drain_loop]. unfold bind at 1. unfold time_time.
  destruct (now w <? end_); [|reflexivity].
  unfold bind at 1. rewrite read_some_open.
  destruct (ser_read (dev w) (now w) READ_CHUNK) as [[chunk blocked] d'].
  unfold next_round. destruct chunk as [|c chunk]; cbn [is_empty negb].
  - rewrite app_nil_r. reflexivity.
  - reflexivity.
Qed.

(** A loop invariant [I time port out] on the head of the drain loop,
    kept by every round that starts before the deadline and that moves the
    clock forward, holds when the loop is left, at or after the deadline. *)
Lemma drain_loop_inv (I : Z -> D -> str -> Prop) (end_ : Z) :
  (forall t d out, I t d out -> t < end_ ->
     let '(chunk, blocked, d') := ser_read d t READ_CHUNK in
     t < next_round t chunk blocked /\ I (next_round t chunk blocked) d' (out ++ chunk)) ->
  forall fuel out (w : World D),
    I (now w) (dev w) out ->
    (Z.to_nat (end_ - now w) < fuel)%nat ->
    returns (drain_loop self end_ fuel out) w
            (fun out' w' => I (now w') (dev w') out' /\ end_ <= now w'
                            /\ now w <= now w'
                            /\ writes_of (io w') = writes_of (io w)
                            /\ lock_held w' = lock_held w).
Proof.
  intros Hstep. induction fuel as [|fuel IH]; intros out w HI Hfuel; [lia|].
  unfold returns. rewrite drain_loop_round.
  destruct (now w <? end_) eqn:Ht.
  - apply Z.ltb_lt in Ht.
    specialize (Hstep (now w) (dev w) out HI Ht).
    destruct (ser_read (dev w) (now w) READ_CHUNK) as [[chunk blocked] d'].
    destruct Hstep as [Hprog Hinv].
    destruct (IH (out ++ chunk)
                 (mkWorld (next_round (now w) chunk blocked) d'
                          (ReadGot chunk :: io w) (lock_held w)))
      as (out' & w' & Hrun & H1 & H2 & H3 & H4 & H5);
      cbn [now dev]; [exact Hinv|lia|].
    exists out', w'. cbn [now dev io lock_held writes_of] in *.
    repeat split; auto. lia.
  - apply Z.ltb_ge in Ht. exists out, w. repeat split; auto. lia.
Qed.

Lemma drain_inv (I : Z -> D -> str -> Prop) (duration : Z) (w : World D) fuel :
  (forall t d out, I t d out -> t < now w + duration ->
     let '(chunk, blocked, d') := ser_read d t READ_CHUNK in
     t < next_round t chunk blocked /\ I (next_round t chunk blocked) d' (out ++ chunk)) ->
  I (now w) (dev w) [] ->
  (Z.to_nat duration < fuel)%nat ->
  returns (_drain fuel self duration) w
          (fun out' w' => I (now w') (dev w') out' /\ now w + duration <= now w'
                          /\ now w <= now w'
                          /\ writes_of (io w') = writes_of (io w)
                          /\ lock_held w' = lock_held w).
Proof.
  intros Hstep HI Hfuel.
  assert (E : _drain fuel self duration w = drain_loop self (now w + duration) fuel [] w)
    by reflexivity.
  unfold returns. rewrite E. apply drain_loop_inv; auto.
  replace (now w + duration - now w) with duration by lia. exact Hfuel.
Qed.

(** [returns] through the clock, a sleep and a write. *)
Lemma returns_bind_time {B} (f : Z -> M D B) w (Q : B -> World D -> Prop) :
  returns (f (now w)) w Q -> returns (bind time_time f) w Q.
Proof. intros Hf. apply returns_bind. exists (now w), w. auto. Qed.

Lemma returns_bind_sleep {B} ms (f : unit -> M D B) w (Q : B -> World D -> Prop) :
  returns (f tt) (mkWorld (now w + ms) (dev w) (io w) (lock_held w)) Q ->
  returns (bind (time_sleep ms) f) w Q.
Proof. intros Hf. apply returns_bind. eexists tt, _. split; [reflexivity|exact Hf]. Qed.

Lemma returns_bind_write {B} s (f : unit -> M D B) w (Q : B -> World D -> Prop) :
  returns (f tt)
          (mkWorld (now w) (ser_write (dev w) (now w) s) (Wrote s :: io w) (lock_held w)) Q ->
  returns (bind (_write self s) f) w Q.
Proof.
  intros Hf. apply returns_bind. eexists tt, _. split; [apply write_open|exact Hf].
Qed.

End Hoare.

Section RunReturns.

Context {D : Type} `{Serial D}.

Variable self : ShellExecutor.
Hypothesis Hopen : is_connected self = true.

(** One round of the read loop of [run]. *)
Lemma collect_loop_round end_ fuel collected (w : World D) :
  collect_loop self end_ (S fuel) collected w
  = if now w <? end_ then
      let '(chunk, blocked, d') := ser_read (dev w) (now w) READ_CHUNK in
      let w1 := mkWorld (next_round (now w) chunk blocked) d'
                        (ReadGot chunk :: io w) (lock_held w) in
      if negb (is_empty chunk) && re_search PROMPT_REGEX (collected ++ chunk)
      then Done (collected ++ chunk) w1
      else collect_loop self end_ fuel (collected ++ chunk) w1
    else Done collected w.
Proof.
  cbn [collect_loop]. unfold bind at 1. unfold time_time.
  destruct (now w <? end_); [|reflexivity].
  unfold bind at 1. rewrite (@read_some_open _ _ self Hopen).
  destruct (ser_read (dev w) (now w) READ_CHUNK) as [[chunk blocked] d'].
  unfold next_round. destruct chunk as [|c chunk]; cbn [is_empty negb andb].
  - rewrite app_nil_r. reflexivity.
  - destruct (re_search PROMPT_REGEX (collected ++ c :: chunk)); reflexivity.
Qed.

(** Every read blocks for some time: the clock moves on. *)
Hypothesis read_takes_time : forall d t,
  let '(_, blocked, _) := ser_read d t READ_CHUNK in 0 < blocked.

Lemma collect_loop_returns end_ : forall fuel collected (w : World D),
  (Z.to_nat (end_ - now w) < fuel)%nat ->
  exists collected' w',
    collect_loop self end_ fuel collected w = Done collected' w'
    /\ (end_ <= now w' \/ re_search PROMPT_REGEX collected' = true).
Proof.
  induction fuel as [|fuel IH]; intros collected w Hfuel; [lia|].
  rewrite collect_loop_round. destruct (now w <? end_) eqn:Ht.
  - apply Z.ltb_lt in Ht. pose proof (read_takes_time (dev w) (now w)) as Hpos.
    destruct (ser_read (dev w) (now w) READ_CHUNK) as [[chunk blocked] d'].
    cbv zeta.
    destruct (negb (is_empty chunk) && re_search PROMPT_REGEX (collected ++ chunk)) eqn:Hbreak.
    + apply andb_true_iff in Hbreak as [_ Hp]. eauto.
    + apply IH. cbn [now]. unfold next_round. destruct (is_empty chunk); lia.
  - apply Z.ltb_ge in Ht. eauto.
Qed.

End RunReturns.

(* ------------------------------------------------------------------ *)
(** ** [run]: guards, verdict, clean-up of the transcript *)
(* ------------------------------------------------------------------ *)

Section RunFacts.

Context {D : Type} `{Serial D}.

(** Once the read loop has handed over [collected], [run] returns the
    verdict on it and gives the lock back. *)
Lemma run_after_collect fuel sp u pw cmd t (w w2 : World D) collected :
  lock_held w = false -> is_empty (strip cmd) = false ->
  collect_loop (mkExecutor (Some sp) u pw) (now w + t) fuel []
               (after_send (strip cmd) w) = Done collected w2 ->
  run fuel (mkExecutor (Some sp) u pw) cmd t w
  = Done (verdict (strip cmd) collected (now w + t) (now w2)) (released w2).
Proof.
  intros Hlock Hcmd Hloop. unfold run. cbn [ser]. rewrite Hcmd.
  unfold with_lock. rewrite Hlock.
  unfold bind at 1. unfold port_reset_input_buffer.
  unfold bind at 1. unfold _write. cbn [ser]. unfold port_write. cbn [now dev io lock_held].
  unfold bind at 1. unfold time_time. cbn [now].
  unfold bind at 1. fold (after_send (strip cmd) w). rewrite Hloop.
  unfold verdict, released.
  destruct (permission_denied (clean_output (strip cmd) collected)); [reflexivity|].
  unfold bind, ret. cbn [now].
  destruct ((now w + t <=? now w2) && is_empty (clean_output (strip cmd) collected));
    reflexivity.
Qed.

(** With a port on which every read takes some time, [run] returns
    whenever the fuel covers the window, on a connected session as on one
    without a port. *)
Lemma run_returns fuel (self : ShellExecutor) cmd t (w : World D) :
  (forall d t', let '(_, blocked, _) := ser_read d t' READ_CHUNK in 0 < blocked) ->
  lock_held w = false -> (Z.to_nat t < fuel)%nat ->
  ser self = None \/ is_connected self = true ->
  exists r w', run fuel self cmd t w = Done r w'.
Proof.
  intros Hread Hlock Hfuel Hself. destruct self as [[sp|] u pw].
  - destruct Hself as [Hnone|Hopen]; [discriminate|].
    destruct (is_empty (strip cmd)) eqn:Hcmd.
    + exists (true, []), w. unfold run. cbn [ser]. rewrite Hcmd. reflexivity.
    + destruct (@collect_loop_returns D _ (mkExecutor (Some sp) u pw) Hopen Hread
                  (now w + t) fuel [] (after_send (strip cmd) w))
        as (collected & w2 & Hloop & _).
      { cbn [now after_send]. replace (now w + t - now w) with t by lia. exact Hfuel. }
      eexists _, _. apply (@run_after_collect fuel sp u pw cmd t w w2 collected Hlock Hcmd Hloop).
  - exists (false, txt "Not connected"), w. reflexivity.
Qed.

(** While the lock is held elsewhere a command does not start: no
    result, hence no I/O of its own. *)
Lemma run_waits_for_lock fuel sp u pw cmd t (w : World D) :
  lock_held w = true -> is_empty (strip cmd) = false ->
  run fuel (mkExecutor (Some sp) u pw) cmd t w = OutOfFuel.
Proof.
  intros Hlock Hcmd. unfold run. cbn [ser]. rewrite Hcmd.
  unfold with_lock. rewrite Hlock. reflexivity.
Qed.

(** C3, as the code has it.  A command attempted on a session without
    a port object fails at once, whatever the timeout, and the failure of
    [run] is a result, not an error: [run] returns the pair
    [(False, "Not connected")]; the write primitive, which [run] does not
    reach then, raises [RuntimeError("Not connected")].  In both cases the
    world is the one before the call, so nothing was written, nothing was
    read and no time has passed. *)
Theorem run_not_connected fuel u pw cmd t (w : World D) :
  run fuel (mkExecutor None u pw) cmd t w = Done (false, txt "Not connected") w
  /\ forall s, _write (mkExecutor None u pw) s w
               = Raised (RuntimeError (txt "Not connected")) w.
Proof. split; reflexivity. Qed.

(** C10.  Without an open session [ensure_shell] returns
    [(False, "Not connected")] for every [overall_timeout]: a normal
    return, not an exception, in the world of the call (no transport I/O,
    no waiting), and with any amount of fuel. *)
Theorem ensure_shell_not_connected fuel u pw overall_timeout (w : World D) :
  ensure_shell fuel (mkExecutor None u pw) overall_timeout w
  = Done (false, txt "Not connected") w.
Proof. reflexivity. Qed.

(** C5.  On an open session a command that is empty or made of
    whitespace only returns [(True, "")] for every timeout, in the world
    of the call: no transport I/O, no waiting, the lock untouched. *)
Theorem run_blank_command fuel sp u pw cmd t (w : World D) :
  forallb is_space cmd = true ->
  run fuel (mkExecutor (Some sp) u pw) cmd t w = Done (true, []) w.
Proof.
  intros Hblank. unfold run. cbn [ser]. rewrite (strip_blank cmd Hblank). reflexivity.
Qed.

(** C4.  When the cleaned output contains "Permission denied" or
    "Operation not permitted" anywhere, [run] returns [ok = False] with
    that output, whatever was collected around it (a prompt included) and
    whether or not the window has elapsed. *)
Theorem run_permission_denied fuel sp u pw cmd t (w w2 : World D) collected :
  lock_held w = false -> is_empty (strip cmd) = false ->
  collect_loop (mkExecutor (Some sp) u pw) (now w + t) fuel []
               (after_send (strip cmd) w) = Done collected w2 ->
  (contains (txt "Permission denied") (clean_output (strip cmd) collected) = true
   \/ contains (txt "Operation not permitted") (clean_output (strip cmd) collected) = true) ->
  run fuel (mkExecutor (Some sp) u pw) cmd t w
  = Done (false, clean_output (strip cmd) collected) (released w2).
Proof.
  intros Hlock Hcmd Hloop Hden.
  rewrite (@run_after_collect fuel sp u pw cmd t w w2 _ Hlock Hcmd Hloop). unfold verdict.
  replace (permission_denied (clean_output (strip cmd) collected)) with true; [reflexivity|].
  symmetry. unfold permission_denied. apply orb_true_iff. tauto.
Qed.

(** C2, as the code has it.  When the read loop is left with the window
    elapsed, [run] returns [(False, "[timeout]")] only if the cleaned text
    is empty; text that was collected is returned with [ok = True], unless
    it contains a permission-denial phrase, in which case it is returned
    with [ok = False]. *)
Theorem run_window_elapsed fuel sp u pw cmd t (w w2 : World D) collected :
  lock_held w = false -> is_empty (strip cmd) = false ->
  collect_loop (mkExecutor (Some sp) u pw) (now w + t) fuel []
               (after_send (strip cmd) w) = Done collected w2 ->
  now w + t <= now w2 ->
  run fuel (mkExecutor (Some sp) u pw) cmd t w
  = Done (let out := clean_output (strip cmd) collected in
          if permission_denied out then (false, out)
          else if is_empty out then (false, txt "[timeout]")
          else (true, out)) (released w2).
Proof.
  intros Hlock Hcmd Hloop Hlate.
  rewrite (@run_after_collect fuel sp u pw cmd t w w2 _ Hlock Hcmd Hloop). unfold verdict.
  replace (now w + t <=? now w2) with true by (symmetry; apply Z.leb_le; exact Hlate).
  reflexivity.
Qed.

End RunFacts.

(** [run] without a session comes back normally, with a pair whose
    first component is [False]: no exception is raised. *)
Lemma run_not_connected_is_a_result :
  run 5 disconnected (txt "ls") 6000 (world0 ([] : Script))
  = Done (false, txt "Not connected") (world0 [])
  /\ forall e w', run 5 disconnected (txt "ls") 6000 (world0 ([] : Script))
                  <> Raised e w'.
Proof. split; [reflexivity|intros e w'; discriminate]. Defined.

Lemma run_blank_command_witness :
  run 0 connected (txt "   ") 6000 (world0 ([] : Script)) = Done (true, []) (world0 []).
Proof.
  apply (@run_blank_command Script _ 0 (mkPort (txt "COM3") 115200) (txt "root") []).
  reflexivity.
Defined.

Lemma run_permission_denied_witness :
  exists w2 : World Script,
    run 5 connected (txt "cat /etc/shadow") 6000
        (world0 [(txt "cat /etc/shadow" ++ [LF]
                  ++ txt "cat: /etc/shadow: Permission denied" ++ [LF]
                  ++ txt "user@board:~$ ", 100)])
    = Done (false, txt "cat: /etc/shadow: Permission denied") (released w2).
Proof.
  eexists.
  refine (@run_permission_denied Script _ 5 (mkPort (txt "COM3") 115200) (txt "root") []
            (txt "cat /etc/shadow") 6000 _ _
            (txt "cat /etc/shadow" ++ [LF]
             ++ txt "cat: /etc/shadow: Permission denied" ++ [LF]
             ++ txt "user@board:~$ ") _ _ _ _).
  - reflexivity.
  - reflexivity.
  - vm_compute. reflexivity.
  - left. vm_compute. reflexivity.
Defined.

Lemma run_window_elapsed_witness :
  exists w2 : World Script,
    run 20 connected (txt "sleep 60") 1000 (world0 [])
    = Done (false, txt "[timeout]") (released w2).
Proof.
  eexists.
  refine (@run_window_elapsed Script _ 20 (mkPort (txt "COM3") 115200) (txt "root") []
            (txt "sleep 60") 1000 (world0 []) _ [] _ _ _ _).
  - reflexivity.
  - reflexivity.
  - vm_compute. reflexivity.
  - vm_compute. discriminate.
Defined.

(** The window elapses, no prompt has matched, some text was collected:
    [run] reports it with [ok = True]. *)
Lemma run_partial_text_reported_ok :
  exists w2 : World Script,
    collect_loop connected 1000 20 []
                 (after_send (txt "ls") (world0 [(txt "partial", 100)]))
    = Done (txt "partial") w2
    /\ 1000 <= now w2
    /\ re_search PROMPT_REGEX (txt "partial") = false
    /\ run 20 connected (txt "ls") 1000 (world0 [(txt "partial", 100)])
       = Done (true, txt "partial") (released w2).
Proof.
  eexists. split; [vm_compute; reflexivity|].
  split; [vm_compute; discriminate|]. split; vm_compute; reflexivity.
Defined.

(** C1.  The transcript of the claim, [cmd LF output LF prompt LF], at
    [run("ls")]: splitting at the newline after the prompt leaves an empty
    last line, which is not prompt-like, so the loop that removes trailing
    prompt lines removes nothing and the prompt stays in the returned
    text, which is not the output. *)
Lemma run_keeps_prompt_before_final_newline :
  exists w' : World Script,
    run 5 connected (txt "ls") 6000
        (world0 [(txt "ls" ++ [LF] ++ txt "a.txt" ++ [LF]
                  ++ txt "root@board:~# " ++ [LF], 100)])
    = Done (true, txt "a.txt" ++ [LF] ++ txt "root@board:~#") w'
    /\ txt "a.txt" ++ [LF] ++ txt "root@board:~#" <> txt "a.txt".
Proof.
  eexists. split; [vm_compute; reflexivity|discriminate].
Defined.

(* ------------------------------------------------------------------ *)
(** ** [SerialShell.run_cmd]: the same clean-up, no guard on blanks *)
(* ------------------------------------------------------------------ *)

Section RunCmdFacts.

Context {D : Type} `{Serial D}.

Lemma run_cmd_not_open fuel u pw b cmd t (w : World D) :
  SerialShell.run_cmd fuel (SerialShell.mkShell None u pw b) cmd t w
  = Raised (RuntimeError (txt "Serial not open")) w.
Proof. reflexivity. Qed.

(** [run_cmd] returns the text that [clean_output] makes of what its
    read loop collected. *)
Lemma run_cmd_cleans fuel sp u pw b cmd t (w w2 : World D) collected self' :
  SerialShell.cmd_loop (SerialShell.mkShell (Some sp) u pw []) (now w + t) fuel []
    (mkWorld (now w) (ser_write (dev w) (now w) (strip cmd ++ [LF]))
             (Wrote (strip cmd ++ [LF]) :: io w) (lock_held w))
  = Done (collected, self') w2 ->
  SerialShell.run_cmd fuel (SerialShell.mkShell (Some sp) u pw b) cmd t w
  = Done (clean_output (strip cmd) collected, self') w2.
Proof.
  intros Hloop. unfold SerialShell.run_cmd. cbn [SerialShell.ser].
  unfold SerialShell.set_buffer. cbn [SerialShell.ser SerialShell.username SerialShell.password].
  unfold bind at 1. unfold SerialShell._write. cbn [SerialShell.ser]. unfold port_write.
  unfold bind at 1. unfold time_time. cbn [now].
  unfold bind at 1. rewrite Hloop. reflexivity.
Qed.

End RunCmdFacts.

(** A blank command is not short-circuited by [run_cmd]: a bare newline
    goes out and the window is waited for. *)
Lemma run_cmd_blank_writes_newline :
  exists (self' : SerialShell.SerialShell) (w' : World Script),
    SerialShell.run_cmd 20 (SerialShell.mkShell (Some (mkPort (txt "COM3") 115200))
                                                (txt "root") [] [])
                        (txt "   ") 500 (world0 [])
    = Done ([], self') w'
    /\ writes_of (io w') = [[LF]] /\ now w' = 600.
Proof.
  eexists _, _. split; [vm_compute; reflexivity|]. split; reflexivity.
Qed.

(* ------------------------------------------------------------------ *)
(** ** [ensure_shell] on a port that never shows a prompt *)
(* ------------------------------------------------------------------ *)

Section NoPrompt.

Context {D : Type} `{Serial D}.

Variable self : ShellExecutor.
Hypothesis Hopen : is_connected self = true.

(** [Quiet port buf]: what the port has delivered so far ([buf]) and
    whatever it may still deliver from its state [port] matches none of
    the patterns of the bootstrap loop. *)
Variable Quiet : D -> str -> Prop.

Hypothesis Quiet_read : forall d buf t,
  Quiet d buf ->
  let '(chunk, blocked, d') := ser_read d t READ_CHUNK in
  0 < blocked <= 100 /\ Quiet d' (buf ++ chunk).

Hypothesis Quiet_write : forall d buf t s,
  Quiet d buf -> Quiet (ser_write d t s) buf.

Hypothesis Quiet_no_match : forall d buf,
  Quiet d buf ->
  re_search PROMPT_REGEX buf = false /\ re_search LOGIN_REGEX buf = false
  /\ re_search PASSWORD_REGEX buf = false /\ re_search ACTIVATE_REGEX buf = false.

Lemma drain_quiet fuel duration buf (w : World D) :
  Quiet (dev w) buf -> 0 <= duration -> (Z.to_nat duration < fuel)%nat ->
  returns (_drain fuel self duration) w
          (fun out w' => Quiet (dev w') (buf ++ out)
                         /\ now w + duration <= now w' < now w + duration + 120).
Proof.
  intros HQ Hd Hfuel.
  eapply returns_weaken.
  - apply (@drain_inv D _ self Hopen
             (fun t d out => Quiet d (buf ++ out) /\ t < now w + duration + 120)).
    + intros t d out [Hq Ht] Hlt.
      pose proof (@Quiet_read d (buf ++ out) t Hq) as Hr.
      destruct (ser_read d t READ_CHUNK) as [[chunk blocked] d'].
      destruct Hr as [Hb Hq']. unfold next_round.
      rewrite app_assoc. destruct (is_empty chunk); repeat split; auto; lia.
    + rewrite app_nil_r. split; [exact HQ|lia].
    + exact Hfuel.
  - cbn beta. intros out w' ((Hq & Ht) & Hge & _). repeat split; auto.
Qed.

Lemma poll_quiet fuel start T : (350 < fuel)%nat ->
  forall n buf (w : World D),
    Quiet (dev w) buf ->
    now w < start + T + 530 ->
    (Z.to_nat (start + T - now w) < n)%nat ->
    returns (poll_loop fuel self start T n buf) w
            (fun r w' => r = (false, txt "Prompt not detected (timeout).")
                         /\ now w <= now w'
                         /\ start + T <= now w' < start + T + 530).
Proof.
  intros Hfuel. induction n as [|n IH]; intros buf w HQ Hhi Hn; [lia|].
  cbn [poll_loop]. apply returns_bind_time.
  destruct (now w - start <? T) eqn:Ht.
  - apply Z.ltb_lt in Ht.
    apply returns_bind_write; [exact Hopen|]. apply returns_bind_sleep.
    apply returns_bind. eapply returns_weaken.
    + apply (@drain_quiet fuel 350 buf); cbn [dev now]; [apply Quiet_write; exact HQ|lia|lia].
    + cbn [now dev]. intros d w1 (Hq & Hlo & Hup).
      destruct (@Quiet_no_match _ _ Hq) as (E1 & E2 & E3 & E4).
      rewrite E1, E2. unfold when_ at 1. apply returns_bind, returns_ret.
      rewrite E3. unfold when_ at 1. apply returns_bind, returns_ret.
      rewrite E4. unfold when_ at 1. apply returns_bind, returns_ret.
      eapply returns_weaken.
      * apply IH; [exact Hq|lia|lia].
      * cbn beta. intros r w' (Hr & Hmono & Hb). repeat split; auto; lia.
  - apply Z.ltb_ge in Ht. apply returns_ret. repeat split; auto; lia.
Qed.

(** C8.  A port that never delivers text matching the prompt, login,
    password or activation patterns, and whose reads block between 1 and
    100 ms: for every [overall_timeout >= 0], [ensure_shell] returns
    [(False, "Prompt not detected (timeout).")] as soon as the fuel covers
    the timeout.  It returns neither at once nor late: the two wake-up
    rounds take between 0.86 s and 1.1 s, and the polling that follows
    lasts at least [overall_timeout] and less than 0.53 s (one round)
    more. *)
Theorem ensure_shell_times_out fuel overall_timeout (w : World D) :
  Quiet (dev w) [] ->
  0 <= overall_timeout ->
  (Z.to_nat overall_timeout + 350 < fuel)%nat ->
  exists w',
    ensure_shell fuel self overall_timeout w
    = Done (false, txt "Prompt not detected (timeout).") w'
    /\ now w + 860 + overall_timeout <= now w'
    /\ now w' < now w + 1100 + overall_timeout + 530.
Proof.
  intros HQ HT Hfuel.
  assert (Hret : returns (ensure_shell fuel self overall_timeout) w
            (fun r w' => r = (false, txt "Prompt not detected (timeout).")
                         /\ now w + 860 + overall_timeout <= now w'
                         /\ now w' < now w + 1100 + overall_timeout + 530)).
  { unfold ensure_shell. pose proof Hopen as Hopen'. unfold is_connected in Hopen'.
    destruct (ser self) eqn:Es; [clear Hopen'|discriminate].
    apply returns_bind. cbn [wake].
    apply returns_bind_write; [exact Hopen|]. apply returns_bind_sleep.
    apply returns_bind. eapply returns_weaken.
    { apply (@drain_quiet fuel 350 []); cbn [dev now]; [apply Quiet_write; exact HQ|lia|lia]. }
    cbn [now dev]. intros d1 w1 (Hq1 & Hlo1 & Hup1).
    apply returns_bind_write; [exact Hopen|]. apply returns_bind_sleep.
    apply returns_bind. eapply returns_weaken.
    { apply (@drain_quiet fuel 350 ([] ++ d1)); cbn [dev now]; [apply Quiet_write; exact Hq1|lia|lia]. }
    cbn [now dev]. intros d2 w2 (Hq2 & Hlo2 & Hup2).
    apply returns_ret. apply returns_bind_time.
    eapply returns_weaken.
    { apply (@poll_quiet fuel (now w2) overall_timeout); [lia|exact Hq2|lia|lia]. }
    cbn beta. intros r w' (Hr & Hmono & Hb). repeat split; auto; lia. }
  destruct Hret as (r & w' & Hrun & -> & Hb). exists w'. auto.
Qed.

End NoPrompt.

Lemma ensure_shell_times_out_witness :
  exists w' : World Script,
    ensure_shell 2400 connected 2000 (world0 [])
    = Done (false, txt "Prompt not detected (timeout).") w'
    /\ 0 + 860 + 2000 <= now w'
    /\ now w' < 0 + 1100 + 2000 + 530.
Proof.
  apply (@ensure_shell_times_out Script _ connected eq_refl
           (fun d buf => d = [] /\ buf = [])).
  - intros d buf t [-> ->]. simpl. split; [lia|auto].
  - intros d buf t s Hq. exact Hq.
  - intros d buf [_ ->]. vm_compute. auto.
  - split; reflexivity.
  - lia.
  - lia.
Defined.

(* ------------------------------------------------------------------ *)
(** ** [ensure_shell] in front of a login *)
(* ------------------------------------------------------------------ *)

Section LoginFlow.

Variable self : ShellExecutor.
Hypothesis Hopen : is_connected self = true.

Lemma board_drain_quiet (b : LoginBoard) fuel duration (w : World LoginBoard) :
  (forall t, due b t = None) -> dev w = b ->
  0 <= duration -> (Z.to_nat duration < fuel)%nat ->
  returns (_drain fuel self duration) w
          (fun out w' => out = [] /\ dev w' = b
                         /\ writes_of (io w') = writes_of (io w)
                         /\ now w + duration <= now w' < now w + duration + 120).
Proof.
  intros Hdue Hdev Hd Hfuel.
  eapply returns_weaken.
  - apply (@drain_inv _ _ self Hopen
             (fun t d out => d = b /\ out = [] /\ t < now w + duration + 120)).
    + intros t d out (-> & -> & Ht) Hlt. cbn [ser_read login_board].
      rewrite Hdue. unfold next_round. cbn [is_empty app]. repeat split; auto; lia.
    + repeat split; auto; lia.
    + exact Hfuel.
  - cbn beta. intros out w' ((Hb & Ho & Ht) & Hge & _ & Hw & _). repeat split; auto.
Qed.

Lemma board_drain_pending (b : LoginBoard) text next ready fuel duration
      (w : World LoginBoard) :
  0 < answer_ms b <= 100 ->
  (forall t, due b t = Some (text, next) \/ (due b t = None /\ t < ready)) ->
  (forall t, due (at_stage b next) t = None) ->
  dev w = b -> 120 <= duration -> ready + 120 <= now w + duration ->
  (Z.to_nat duration < fuel)%nat ->
  returns (_drain fuel self duration) w
          (fun out w' => out = text /\ dev w' = at_stage b next
                         /\ writes_of (io w') = writes_of (io w)
                         /\ now w + duration <= now w' < now w + duration + 120).
Proof.
  intros Hans Hdue Hnext Hdev Hd Hr Hfuel.
  eapply returns_weaken.
  - apply (@drain_inv _ _ self Hopen
             (fun t d out =>
                ((d = b /\ out = [] /\ t < Z.max ready (now w) + 120)
                 \/ (d = at_stage b next /\ out = text))
                /\ t < now w + duration + 120)).
    + intros t d out ([(-> & -> & Ht) | (-> & ->)] & Hup) Hlt; cbn [ser_read login_board].
      * destruct (Hdue t) as [Hsome | [Hnone Hlt']].
        -- rewrite Hsome. unfold next_round. cbn [app answer_ms].
           destruct (is_empty text); (split; [lia|]); (split; [right; auto|lia]).
        -- rewrite Hnone. unfold next_round. cbn [is_empty app].
           split; [lia|]. split; [left; repeat split; auto; lia|lia].
      * rewrite Hnext. unfold next_round. cbn [is_empty]. rewrite app_nil_r.
        split; [lia|]. split; [right; auto|lia].
    + split; [left; repeat split; auto; lia|lia].
    + exact Hfuel.
  - cbn beta. intros out w' (([(Hb & Ho & Ht) | (Hb & Ho)] & Hup) & Hge & _ & Hw & _).
    + lia.
    + repeat split; auto.
Qed.


Lemma nudge_is_not_user (u : str) : u <> [] -> str_eqb [LF] (u ++ [LF]) = false.
Proof.
  intros Hu. unfold str_eqb. destruct (list_eq_dec N.eq_dec [LF] (u ++ [LF])) as [E|]; [|reflexivity].
  destruct u as [|c u]; [contradiction|]. destruct u; discriminate.
Qed.


Lemma board_write_at_login (b : LoginBoard) t s :
  stage b = ShowLogin -> ser_write b t s = b.
Proof. intros Hst. cbn [ser_write login_board]. rewrite Hst. reflexivity. Qed.

Lemma board_write_nudge (b : LoginBoard) t :
  board_user b <> [] -> ser_write (at_stage b AwaitUser) t [LF] = at_stage b AwaitUser.
Proof.
  intros Hu. cbn [ser_write login_board stage at_stage board_user].
  rewrite (nudge_is_not_user Hu). reflexivity.
Qed.

Lemma board_write_user (b : LoginBoard) t :
  ser_write (at_stage b AwaitUser) t (board_user b ++ [LF])
  = at_stage b (ShowPassword (t + password_delay b)).
Proof.
  cbn [ser_write login_board stage at_stage board_user]. rewrite str_eqb_refl. reflexivity.
Qed.

Lemma board_write_password (b : LoginBoard) t :
  ser_write (at_stage b AwaitPassword) t (board_password b ++ [LF])
  = at_stage b (ShowPrompt (t + prompt_delay b)).
Proof.
  cbn [ser_write login_board stage at_stage board_password]. rewrite str_eqb_refl. reflexivity.
Qed.

Lemma due_password (b : LoginBoard) ready t :
  due (at_stage b (ShowPassword ready)) t = Some (password_text b, AwaitPassword)
  \/ (due (at_stage b (ShowPassword ready)) t = None /\ t < ready).
Proof.
  unfold due. cbn [stage at_stage password_text].
  destruct (ready <=? t) eqn:E; [left; reflexivity|right]. apply Z.leb_gt in E. auto.
Qed.

Lemma due_prompt (b : LoginBoard) ready t :
  due (at_stage b (ShowPrompt ready)) t = Some (prompt_text b, Idle)
  \/ (due (at_stage b (ShowPrompt ready)) t = None /\ t < ready).
Proof.
  unfold due. cbn [stage at_stage prompt_text].
  destruct (ready <=? t) eqn:E; [left; reflexivity|right]. apply Z.leb_gt in E. auto.
Qed.

End LoginFlow.

Ltac drain_step lem :=
  apply returns_bind; eapply returns_weaken; [eapply lem|].

(** C7, as the code has it.  A connected session with a user name that
    is not empty, and a board that answers a read with text within 0.1 s
    and that has its login line waiting when [ensure_shell] is called (the
    first read delivers it), then shows, within 0.68 s of the user name
    being written, a password line, then, within 0.88 s of the password
    being written, a prompt; the buffer matches the login pattern but not
    the prompt pattern after the login line, the password pattern after
    the password line and the prompt pattern after the prompt.  With
    [overall_timeout] of 3.29 s or more [ensure_shell] returns
    [(True, "Shell prompt detected.")] and its writes are exactly: three
    newlines (two wake-ups, one poll), the user name once, the password
    once, one more newline if the buffer also shows the activation
    banner, and the newline of the round that finds the prompt. *)
Theorem ensure_shell_login_flow fuel sp (b : LoginBoard) overall_timeout (w : World LoginBoard) :
  is_open sp = true ->
  dev w = b -> stage b = ShowLogin -> board_user b <> [] ->
  0 < answer_ms b <= 100 ->
  0 <= password_delay b <= 680 -> 0 <= prompt_delay b <= 880 ->
  re_search PROMPT_REGEX (login_text b) = false ->
  re_search LOGIN_REGEX (login_text b) = true ->
  re_search PASSWORD_REGEX (login_text b ++ password_text b) = true ->
  re_search PROMPT_REGEX (login_text b ++ password_text b ++ prompt_text b) = true ->
  3290 <= overall_timeout -> (1000 < fuel)%nat ->
  exists w',
    ensure_shell fuel (mkExecutor (Some sp) (board_user b) (board_password b))
                 overall_timeout w
    = Done (true, txt "Shell prompt detected.") w'
    /\ writes_of (io w')
       = writes_of (io w)
         ++ [[LF]; [LF]; [LF]; board_user b ++ [LF]; board_password b ++ [LF]]
         ++ (if re_search ACTIVATE_REGEX
                  (login_text b ++ password_text b ++ prompt_text b)
             then [[LF]] else [])
         ++ [[LF]].
Proof.
  intros Hsp Hdev Hst Hu Hans Hpd Hrd HpL HlL HpP HpR HT Hfuel.
  set (self := mkExecutor (Some sp) (board_user b) (board_password b)).
  assert (Hopen : is_connected self = true) by exact Hsp.
  set (Q := fun (r : bool * str) (w' : World LoginBoard) =>
              r = (true, txt "Shell prompt detected.")
              /\ writes_of (io w')
                 = writes_of (io w)
                   ++ [[LF]; [LF]; [LF]; board_user b ++ [LF]; board_password b ++ [LF]]
                   ++ (if re_search ACTIVATE_REGEX
                            (login_text b ++ password_text b ++ prompt_text b)
                       then [[LF]] else [])
                   ++ [[LF]]).
  assert (Hret : returns (ensure_shell fuel self overall_timeout) w Q).
  { unfold ensure_shell. cbn [ser self].
    apply returns_bind. cbn [wake].
    (* first wake-up newline: the login line arrives *)
    apply returns_bind_write; [exact Hopen|]. apply returns_bind_sleep.
    drain_step (@board_drain_pending self Hopen b (login_text b) AwaitUser (now w)).
    { exact Hans. }
    { intros t. left. unfold due. rewrite Hst. reflexivity. }
    { intros t. reflexivity. }
    { cbn [dev]. rewrite Hdev. apply board_write_at_login, Hst. }
    { lia. }
    { cbn [now]. lia. }
    { lia. }
    cbn [now io writes_of]. intros d1 w1 (-> & Hdev1 & Hw1 & Ht1).
    (* second wake-up newline *)
    apply returns_bind_write; [exact Hopen|]. apply returns_bind_sleep.
    drain_step (@board_drain_quiet self Hopen (at_stage b AwaitUser)).
    { intros t. reflexivity. }
    { cbn [dev]. rewrite Hdev1. apply board_write_nudge, Hu. }
    { lia. }
    { lia. }
    cbn [now io writes_of]. intros d2 w2 (-> & Hdev2 & Hw2 & Ht2).
    apply returns_ret. apply returns_bind_time.
    cbn [app]. rewrite app_nil_r.
    assert (Hpoll : forall n, (2 <= n)%nat ->
              returns (poll_loop fuel self (now w2) overall_timeout n (login_text b)) w2 Q).
    { intros n Hn. destruct n as [|[|n]]; [lia|lia|].
      (* first round: user name and password are asked for and sent *)
      cbn [poll_loop]. apply returns_bind_time.
      replace (now w2 - now w2 <? overall_timeout) with true
        by (symmetry; apply Z.ltb_lt; lia).
      apply returns_bind_write; [exact Hopen|]. apply returns_bind_sleep.
      drain_step (@board_drain_quiet self Hopen (at_stage b AwaitUser)).
      { intros t. reflexivity. }
      { cbn [dev]. rewrite Hdev2. apply board_write_nudge, Hu. }
      { lia. }
      { lia. }
      cbn [now io writes_of]. intros d3 w3 (-> & Hdev3 & Hw3 & Ht3).
      rewrite app_nil_r, HpL, HlL. unfold when_ at 1.
      apply returns_bind.
      apply returns_bind_write; [exact Hopen|].
      drain_step (@board_drain_pending self Hopen
                    (at_stage b (ShowPassword (now w3 + password_delay b)))
                    (password_text b) AwaitPassword (now w3 + password_delay b)).
      { exact Hans. }
      { intros t. apply due_password. }
      { intros t. reflexivity. }
      { cbn [dev now username self]. rewrite Hdev3. apply board_write_user. }
      { lia. }
      { cbn [now]. lia. }
      { lia. }
      cbn [now io writes_of username self]. intros d4 w4 (-> & Hdev4 & Hw4 & Ht4).
      change (dev w4 = at_stage b AwaitPassword) in Hdev4.
      apply returns_ret. rewrite HpP. unfold when_ at 1.
      apply returns_bind.
      apply returns_bind_write; [exact Hopen|].
      drain_step (@board_drain_pending self Hopen
                    (at_stage b (ShowPrompt (now w4 + prompt_delay b)))
                    (prompt_text b) Idle (now w4 + prompt_delay b)).
      { exact Hans. }
      { intros t. apply due_prompt. }
      { intros t. reflexivity. }
      { cbn [dev now password self]. rewrite Hdev4. apply board_write_password. }
      { lia. }
      { cbn [now]. lia. }
      { lia. }
      cbn [now io writes_of password self]. intros d5 w5 (-> & Hdev5 & Hw5 & Ht5).
      change (dev w5 = at_stage b Idle) in Hdev5.
      apply returns_ret. rewrite <- app_assoc.
      (* the second round sees the prompt *)
      assert (Hlast : forall (w6 : World LoginBoard),
                dev w6 = at_stage b Idle -> now w6 < now w2 + overall_timeout ->
                writes_of (io w6)
                = writes_of (io w)
                  ++ [[LF]; [LF]; [LF]; board_user b ++ [LF]; board_password b ++ [LF]]
                  ++ (if re_search ACTIVATE_REGEX
                           (login_text b ++ password_text b ++ prompt_text b)
                      then [[LF]] else []) ->
                returns (poll_loop fuel self (now w2) overall_timeout (S n)
                           (login_text b ++ password_text b ++ prompt_text b)) w6 Q).
      { intros w6 Hdev6 Ht6 Hw6. cbn [poll_loop]. apply returns_bind_time.
        replace (now w6 - now w2 <? overall_timeout) with true
          by (symmetry; apply Z.ltb_lt; lia).
        apply returns_bind_write; [exact Hopen|]. apply returns_bind_sleep.
        drain_step (@board_drain_quiet self Hopen (at_stage b Idle)).
        { intros t. reflexivity. }
        { cbn [dev]. rewrite Hdev6. reflexivity. }
        { lia. }
        { lia. }
        cbn [now io writes_of]. intros d7 w7 (-> & Hdev7 & Hw7 & Ht7).
        rewrite app_nil_r, HpR. apply returns_ret. split; [reflexivity|].
        rewrite Hw7, Hw6. repeat rewrite <- app_assoc. reflexivity. }
      destruct (re_search ACTIVATE_REGEX
                  (login_text b ++ password_text b ++ prompt_text b)) eqn:Ea;
        unfold when_.
      - apply returns_bind.
        apply returns_bind_write; [exact Hopen|].
        drain_step (@board_drain_quiet self Hopen (at_stage b Idle)).
        { intros t. reflexivity. }
        { cbn [dev]. rewrite Hdev5. reflexivity. }
        { lia. }
        { lia. }
        cbn [now io writes_of]. intros d6 w6 (-> & Hdev6 & Hw6 & Ht6).
        apply returns_ret. rewrite app_nil_r. apply Hlast; [exact Hdev6|lia|].
        rewrite Hw6, Hw5, Hw4, Hw3, Hw2, Hw1. repeat rewrite <- app_assoc. reflexivity.
      - apply returns_bind, returns_ret. apply Hlast; [exact Hdev5|lia|].
        rewrite Hw5, Hw4, Hw3, Hw2, Hw1. repeat rewrite <- app_assoc. reflexivity. }
    apply Hpoll. lia. }
  destruct Hret as (r & w' & Hrun & -> & Hw). exists w'. split; [exact Hrun|exact Hw].
Qed.

Lemma ensure_shell_login_flow_witness :
  exists w' : World LoginBoard,
    ensure_shell 1100 root_executor 15000 (world0 (root_board 200 300))
    = Done (true, txt "Shell prompt detected.") w'
    /\ writes_of (io w')
       = [[LF]; [LF]; [LF]; txt "root" ++ [LF]; txt "toor" ++ [LF]; [LF]].
Proof.
  apply (@ensure_shell_login_flow 1100 (mkPort (txt "COM3") 115200)
           (root_board 200 300) 15000 (world0 (root_board 200 300))).
  - reflexivity.
  - reflexivity.
  - reflexivity.
  - discriminate.
  - simpl. lia.
  - simpl. lia.
  - simpl. lia.
  - vm_compute. reflexivity.
  - vm_compute. reflexivity.
  - vm_compute. reflexivity.
  - vm_compute. reflexivity.
  - lia.
  - lia.
Defined.

(** A board that shows its password line one second after the user name
    was written, that is after the 0.8 s drain that follows the write: the
    next round still finds the login line in the buffer and writes the
    user name a second time. *)
Lemma ensure_shell_slow_board_repeats_user :
  exists w' : World LoginBoard,
    ensure_shell 1100 root_executor 15000 (world0 (root_board 1000 0))
    = Done (true, txt "Shell prompt detected.") w'
    /\ writes_of (io w')
       = [[LF]; [LF]; [LF]; txt "root" ++ [LF]; [LF];
          txt "root" ++ [LF]; txt "toor" ++ [LF]; [LF]]
    /\ count_occ (list_eq_dec N.eq_dec) (writes_of (io w')) (txt "root" ++ [LF]) = 2%nat.
Proof.
  eexists. split; [vm_compute; reflexivity|]. split; vm_compute; reflexivity.
Defined.

(** A port that stays silent for 3.9 s and then goes through the same
    login, with [overall_timeout] of 3.29 s: the login line arrives in the
    last round the timeout allows, the user name and the password are
    written once each and the prompt is read, but the prompt is only looked
    for at the head of a round, and no further round starts: the result is
    the timeout, 6.19 s after the call. *)
Lemma ensure_shell_late_login_times_out :
  exists w' : World Script,
    ensure_shell 1100 root_executor 3290
      (world0 (repeat ([], 100) 28 ++ [(txt "login: ", 50)] ++ repeat ([], 100) 3
               ++ [([LF] ++ txt "Password: ", 50)] ++ repeat ([], 100) 7
               ++ [([LF] ++ txt "root@board:~# ", 50)]))
    = Done (false, txt "Prompt not detected (timeout).") w'
    /\ writes_of (io w')
       = repeat [LF] 10 ++ [txt "root" ++ [LF]; txt "toor" ++ [LF]]
    /\ re_search PROMPT_REGEX (reads_of (io w')) = true
    /\ now w' = 6190.
Proof.
  eexists. split; [vm_compute; reflexivity|]. repeat split; vm_compute; reflexivity.
Qed.

(* ================================================================== *)
(** * Further properties of the drivers *)
(* ================================================================== *)

(* ------------------------------------------------------------------ *)
(** ** More on text: trimming, lines *)
(* ------------------------------------------------------------------ *)

Lemma lstrip_idem s : lstrip (lstrip s) = lstrip s.
Proof.
  induction s as [|c s IH]; [reflexivity|]. cbn [lstrip].
  destruct (is_space c) eqn:Hc; [exact IH|]. cbn [lstrip]. rewrite Hc. reflexivity.
Qed.

Lemma lstrip_snoc_solid s c :
  is_space c = false -> lstrip (s ++ [c]) = lstrip s ++ [c].
Proof.
  intros Hc. induction s as [|x s IH]; cbn [lstrip app].
  - rewrite Hc. reflexivity.
  - destruct (is_space x); [exact IH|reflexivity].
Qed.

Lemma rstrip_cons_solid c s : is_space c = false -> rstrip (c :: s) = c :: rstrip s.
Proof.
  intros Hc. unfold rstrip. cbn [rev]. rewrite (@lstrip_snoc_solid (rev s) c Hc).
  rewrite rev_app_distr. reflexivity.
Qed.

Lemma rstrip_idem s : rstrip (rstrip s) = rstrip s.
Proof. unfold rstrip. rewrite rev_involutive, lstrip_idem. reflexivity. Qed.

(** A text that starts with a blank is not a result of [lstrip]. *)
Lemma lstrip_head s : lstrip s = [] \/ exists c rest, lstrip s = c :: rest /\ is_space c = false.
Proof.
  induction s as [|c s IH]; [left; reflexivity|]. cbn [lstrip].
  destruct (is_space c) eqn:Hc; [exact IH|]. right. eauto.
Qed.

Lemma lstrip_solid c s : is_space c = false -> lstrip (c :: s) = c :: s.
Proof. intros Hc. cbn [lstrip]. rewrite Hc. reflexivity. Qed.

Lemma strip_idem s : strip (strip s) = strip s.
Proof.
  unfold strip. destruct (lstrip_head s) as [E | (c & rest & E & Hc)]; rewrite E.
  - reflexivity.
  - rewrite (@rstrip_cons_solid c rest Hc), (@lstrip_solid c (rstrip rest) Hc).
    rewrite <- (@rstrip_cons_solid c rest Hc). apply rstrip_idem.
Qed.

Lemma lstrip_incl s c : In c (lstrip s) -> In c s.
Proof.
  induction s as [|x s IH]; cbn [lstrip]; [auto|].
  destruct (is_space x); [intros Hin; right; auto|auto].
Qed.

Lemma strip_incl s c : In c (strip s) -> In c s.
Proof.
  unfold strip, rstrip. intros Hin.
  apply in_rev, lstrip_incl, in_rev in Hin. apply lstrip_incl, Hin.
Qed.

Lemma join_incl sep (ls : list str) c :
  In c (join sep ls) -> In c sep \/ exists l, In l ls /\ In c l.
Proof.
  induction ls as [|l rest IH]; cbn [join]; [intros []|].
  destruct rest as [|l2 rest].
  - intros Hin. right. exists l. split; [left; reflexivity|exact Hin].
  - intros Hin. apply in_app_or in Hin as [Hin|Hin].
    + right. exists l. split; [left; reflexivity|exact Hin].
    + apply in_app_or in Hin as [Hin|Hin]; [left; exact Hin|].
      destruct (IH Hin) as [Hs | (l' & Hl' & Hc)]; [left; exact Hs|].
      right. exists l'. split; [right; exact Hl'|exact Hc].
Qed.

Lemma split_incl sep s (l : str) c : In l (split sep s) -> In c l -> In c s.
Proof.
  revert l. induction s as [|x s IH]; intros l; cbn [split].
  - intros [<-|[]] [].
  - destruct (x =? sep)%N.
    + intros [<-|Hl] Hc; [destruct Hc|]. right. exact (IH l Hl Hc).
    + destruct (split sep s) as [|l0 ls] eqn:E.
      * intros [<-|[]] [<-|[]]. left. reflexivity.
      * intros [<-|Hl] Hc.
        -- destruct Hc as [<-|Hc]; [left; reflexivity|].
           right. apply (IH l0); [left; reflexivity|exact Hc].
        -- right. apply (IH l); [right; exact Hl|exact Hc].
Qed.

(* ------------------------------------------------------------------ *)
(** ** The clean-up of a transcript *)
(* ------------------------------------------------------------------ *)

Lemma drop_prompts_loop_spec : forall n (lines : list str),
  (List.length lines <= n)%nat ->
  exists dropped,
    lines = drop_prompts_loop n lines ++ dropped
    /\ Forall (fun l => is_prompt_line l = true) dropped
    /\ (drop_prompts_loop n lines = []
        \/ is_prompt_line (last (drop_prompts_loop n lines) []) = false).
Proof.
  induction n as [|n IH]; intros lines Hn.
  - destruct lines; [|simpl in Hn; lia]. exists []. simpl. auto.
  - cbn [drop_prompts_loop]. destruct lines as [|l0 rest] eqn:El.
    + exists []. simpl. auto.
    + rewrite <- El in *. assert (Hne : lines <> []) by (rewrite El; discriminate).
      destruct (is_prompt_line (last lines [])) eqn:Hp.
      * destruct (IH (removelast lines)) as (dropped & Hd & Hall & Hlast).
        { pose proof (app_removelast_last [] Hne) as E.
          apply (f_equal (@List.length str)) in E. rewrite length_app in E.
          cbn [List.length] in E. unfold str in *. lia. }
        exists (dropped ++ [last lines []]). split; [|split].
        -- rewrite app_assoc, <- Hd. apply app_removelast_last, Hne.
        -- apply Forall_app. split; [exact Hall|]. constructor; [exact Hp|constructor].
        -- exact Hlast.
      * exists []. rewrite app_nil_r. auto.
Qed.

(** X1.  The loop that removes trailing prompt lines only cuts lines off
    the end, every line it cuts is prompt-like, and it stops at the first
    line from the end that is not: what is left is empty or ends in a line
    that is not prompt-like. *)
Theorem drop_prompts_cuts_trailing_prompts (lines : list str) :
  exists dropped,
    lines = drop_prompts lines ++ dropped
    /\ Forall (fun l => is_prompt_line l = true) dropped
    /\ (drop_prompts lines = []
        \/ is_prompt_line (last (drop_prompts lines) []) = false).
Proof. apply drop_prompts_loop_spec. apply Nat.le_refl. Qed.

Lemma drop_prompts_incl (lines : list str) l : In l (drop_prompts lines) -> In l lines.
Proof.
  intros Hin. destruct (drop_prompts_loop_spec lines (Nat.le_refl _)) as (dropped & E & _).
  fold (drop_prompts lines) in E. rewrite E. apply in_or_app. left. exact Hin.
Qed.

Lemma drop_echo_incl cmd (lines : list str) l : In l (drop_echo cmd lines) -> In l lines.
Proof.
  unfold drop_echo. destruct lines as [|first rest]; [auto|].
  destruct (str_eqb (strip first) cmd); [intros Hin; right; exact Hin|auto].
Qed.

Lemma clean_output_incl cmd collected c :
  In c (clean_output cmd collected) -> c = LF \/ In c (sanitize collected).
Proof.
  unfold clean_output. intros Hin. apply strip_incl, join_incl in Hin.
  destruct Hin as [Hlf | (l & Hl & Hc)].
  - destruct Hlf as [<-|[]]. left. reflexivity.
  - apply drop_prompts_incl, drop_echo_incl in Hl. right.
    exact (@split_incl LF (sanitize collected) l c Hl Hc).
Qed.

Lemma sanitize_no_cr collected : ~ In CR (sanitize collected).
Proof.
  unfold sanitize, remove_char. intros Hin. apply filter_In in Hin as [_ Hc].
  rewrite N.eqb_refl in Hc. discriminate.
Qed.

Lemma clean_output_no_cr cmd collected : ~ In CR (clean_output cmd collected).
Proof.
  intros Hin. apply clean_output_incl in Hin as [E|Hin]; [discriminate|].
  exact (sanitize_no_cr _ Hin).
Qed.

Lemma clean_output_trimmed cmd collected :
  strip (clean_output cmd collected) = clean_output cmd collected.
Proof. unfold clean_output. apply strip_idem. Qed.

(* ------------------------------------------------------------------ *)
(** ** What [run] hands back *)
(* ------------------------------------------------------------------ *)

Section RunContract.

Context {D : Type} `{Serial D}.

(** [run] on an open session, a command that is not blank and a free
    lock: the outcome of the read loop decides. *)
Lemma run_open_cases fuel sp u pw cmd t (w : World D) :
  lock_held w = false -> is_empty (strip cmd) = false ->
  run fuel (mkExecutor (Some sp) u pw) cmd t w
  = match collect_loop (mkExecutor (Some sp) u pw) (now w + t) fuel []
                       (after_send (strip cmd) w) with
    | Done collected w2 =>
        Done (verdict (strip cmd) collected (now w + t) (now w2)) (released w2)
    | Raised e w2 => Raised e (released w2)
    | OutOfFuel => OutOfFuel
    end.
Proof.
  intros Hlock Hcmd. unfold run. cbn [ser]. rewrite Hcmd.
  unfold with_lock. rewrite Hlock.
  unfold bind at 1. unfold port_reset_input_buffer.
  unfold bind at 1. unfold _write. cbn [ser]. unfold port_write. cbn [now dev io lock_held].
  unfold bind at 1. unfold time_time. cbn [now].
  unfold bind at 1. fold (after_send (strip cmd) w).
  destruct (collect_loop (mkExecutor (Some sp) u pw) (now w + t) fuel []
                         (after_send (strip cmd) w)) as [collected w2|e w2|];
    [|reflexivity|reflexivity].
  unfold verdict, released.
  destruct (permission_denied (clean_output (strip cmd) collected)); [reflexivity|].
  unfold bind, ret. cbn [now].
  destruct ((now w + t <=? now w2) && is_empty (clean_output (strip cmd) collected));
    reflexivity.
Qed.

(** Whatever [run] returns is one of: the not-connected failure, the
    empty success of a blank command, or the verdict on some collected
    text. *)
Lemma run_result_cases fuel self cmd t (w w' : World D) r :
  run fuel self cmd t w = Done r w' ->
  r = (false, txt "Not connected") \/ r = (true, [])
  \/ exists collected end_ t2, r = verdict (strip cmd) collected end_ t2.
Proof.
  destruct self as [[sp|] u pw].
  - destruct (is_empty (strip cmd)) eqn:Hcmd.
    + unfold run. cbn [ser]. rewrite Hcmd. intros E. injection E as <- _. auto.
    + destruct (lock_held w) eqn:Hlock.
      * unfold run. cbn [ser]. rewrite Hcmd. unfold with_lock. rewrite Hlock. discriminate.
      * rewrite (run_open_cases fuel sp u pw cmd t w Hlock Hcmd).
        destruct (collect_loop _ _ _ _ _) as [collected w2|e w2|]; try discriminate.
        intros E. injection E as <- _. right. right. eauto.
  - intros E. injection E as <- _. auto.
Qed.

Lemma run_result_shape fuel self cmd t (w w' : World D) ok text :
  run fuel self cmd t w = Done (ok, text) w' ->
  strip text = text /\ ~ In CR text
  /\ (ok = true -> permission_denied text = false)
  /\ (ok = false ->
      text = txt "Not connected" \/ text = txt "[timeout]"
      \/ permission_denied text = true).
Proof.
  intros Hrun. apply run_result_cases in Hrun.
  destruct Hrun as [E | [E | (collected & end_ & t2 & E)]].
  - injection E as -> ->. split; [reflexivity|]. split; [|split; [discriminate|auto]].
    vm_compute. intuition discriminate.
  - injection E as -> ->. split; [reflexivity|]. split; [intros []|].
    split; [reflexivity|discriminate].
  - unfold verdict in E.
    destruct (permission_denied (clean_output (strip cmd) collected)) eqn:Hden.
    + injection E as -> ->. split; [apply clean_output_trimmed|].
      split; [apply clean_output_no_cr|]. split; [discriminate|auto].
    + destruct ((end_ <=? t2) && is_empty (clean_output (strip cmd) collected)).
      * injection E as -> ->. split; [reflexivity|]. split; [|split; [discriminate|auto]].
        vm_compute. intuition discriminate.
      * injection E as -> ->. split; [apply clean_output_trimmed|].
        split; [apply clean_output_no_cr|]. split; [auto|discriminate].
Qed.

(** X2.  The result contract of [run].  Whatever the port does, a text
    that [run] returns has no surrounding whitespace and no carriage
    return; with [ok = True] it contains no permission-denial phrase; with
    [ok = False] it is "Not connected", "[timeout]" or a text with a
    permission-denial phrase. *)
Theorem run_result_contract fuel self cmd t (w w' : World D) ok text :
  run fuel self cmd t w = Done (ok, text) w' ->
  strip text = text /\ ~ In CR text
  /\ (ok = true -> permission_denied text = false)
  /\ (ok = false ->
      text = txt "Not connected" \/ text = txt "[timeout]"
      \/ permission_denied text = true).
Proof. apply run_result_shape. Qed.

(** X3.  What the test tab gets from its executor.  On a connected
    executor (a port object whose [is_open] flag is set) [_exec_cmd]
    hands on the text of [run(cmd)], with the default window of 6 s,
    exactly as [run] returned it (its own [strip] finds nothing to remove)
    and in the world [run] left; what [run] raises it raises.  On any other
    executor (no port object, or one that has been closed) it returns
    "Not connected" without calling [run]: no port I/O, no waiting. *)
Theorem exec_cmd_returns_run_text fuel exec cmd (w : World D) :
  _exec_cmd fuel exec cmd w
  = if is_connected exec then
      match run fuel exec cmd 6000 w with
      | Done r w' => Done (snd r) w'
      | Raised e w' => Raised e w'
      | OutOfFuel => OutOfFuel
      end
    else Done (txt "Not connected") w.
Proof.
  unfold _exec_cmd. destruct (is_connected exec); cbn [negb]; [|reflexivity].
  unfold bind. destruct (run fuel exec cmd 6000 w) as [[ok text] w'|e w'|] eqn:Hrun;
    [|reflexivity|reflexivity].
  cbn [snd]. unfold ret.
  destruct (run_result_shape _ _ _ _ _ Hrun) as [-> _]. reflexivity.
Qed.

End RunContract.

Lemma run_result_contract_witness :
  (strip (txt "ls: cannot open: Permission denied") = txt "ls: cannot open: Permission denied"
   /\ ~ In CR (txt "ls: cannot open: Permission denied")
   /\ (false = true -> permission_denied (txt "ls: cannot open: Permission denied") = false)
   /\ (false = false ->
       txt "ls: cannot open: Permission denied" = txt "Not connected"
       \/ txt "ls: cannot open: Permission denied" = txt "[timeout]"
       \/ permission_denied (txt "ls: cannot open: Permission denied") = true)).
Proof.
  apply (@run_result_contract Script _ 5 connected (txt "ls /root") 6000
           (world0 [(txt "ls /root" ++ [CR; LF]
                     ++ txt "ls: cannot open: Permission denied" ++ [CR; LF]
                     ++ txt "user@board:~$ ", 100)])
           (mkWorld 100 []
              [ReadGot (txt "ls /root" ++ [CR; LF]
                        ++ txt "ls: cannot open: Permission denied" ++ [CR; LF]
                        ++ txt "user@board:~$ ");
               Wrote (txt "ls /root" ++ [LF]); InputReset] false)).
  vm_compute. reflexivity.
Defined.

(** The guard of the tab is not the guard of [run]: on a port object
    that has been closed [run] still answers a blank command with
    [(True, "")], while the tab reports "Not connected". *)
Example exec_cmd_closed_port :
  run 0 (mkExecutor (Some (mkSerial (txt "COM3") 115200 false)) (txt "root") [])
      (txt " ") 6000 (world0 ([] : Script))
  = Done (true, []) (world0 [])
  /\ _exec_cmd 0 (mkExecutor (Some (mkSerial (txt "COM3") 115200 false)) (txt "root") [])
               (txt " ") (world0 ([] : Script))
     = Done (txt "Not connected") (world0 []).
Proof. split; reflexivity. Qed.

(* ------------------------------------------------------------------ *)
(** ** Polling loops on a port whose reads block for 1 to 100 ms *)
(* ------------------------------------------------------------------ *)

Lemma reads_of_app a b : reads_of (a ++ b) = reads_of b ++ reads_of a.
Proof.
  induction a as [|e a IH]; cbn [app reads_of]; [rewrite app_nil_r; reflexivity|].
  destruct e; rewrite IH; [reflexivity|rewrite app_assoc; reflexivity|reflexivity].
Qed.

Lemma writes_of_app a b : writes_of (a ++ b) = writes_of b ++ writes_of a.
Proof.
  induction a as [|e a IH]; cbn [app writes_of]; [rewrite app_nil_r; reflexivity|].
  destruct e; rewrite IH; [rewrite app_assoc; reflexivity|reflexivity|reflexivity].
Qed.

Lemma writes_of_reads reads : Forall is_read reads -> writes_of reads = [].
Proof.
  induction 1 as [|e reads He _ IH]; [reflexivity|].
  destruct e; cbn [is_read] in He; try contradiction. exact IH.
Qed.

Section Timed.

Context {D : Type} `{Serial D}.

Variable self : ShellExecutor.
Hypothesis Hopen : is_connected self = true.

(** The port is opened with [timeout=0.1]: a read blocks for at most
    100 ms, and it takes some time. *)
Hypothesis read_blocks : forall d t,
  let '(_, blocked, _) := ser_read d t READ_CHUNK in 0 < blocked <= 100.

Lemma drain_loop_shape end_ : forall fuel out (w : World D),
  (Z.to_nat (end_ - now w) < fuel)%nat ->
  exists reads out' w',
    drain_loop self end_ fuel out w = Done out' w'
    /\ io w' = reads ++ io w /\ Forall is_read reads
    /\ out' = out ++ reads_of reads
    /\ lock_held w' = lock_held w
    /\ now w <= now w' /\ end_ <= now w'
    /\ (now w < end_ -> now w' <= end_ + 119).
Proof.
  induction fuel as [|fuel IH]; intros out w Hfuel; [lia|].
  rewrite (@drain_loop_round _ _ self Hopen). destruct (now w <? end_) eqn:Ht.
  - apply Z.ltb_lt in Ht. pose proof (read_blocks (dev w) (now w)) as Hb.
    destruct (ser_read (dev w) (now w) READ_CHUNK) as [[chunk blocked] d'].
    assert (Hnext : now w < next_round (now w) chunk blocked <= now w + 120).
    { unfold next_round. destruct (is_empty chunk); lia. }
    destruct (IH (out ++ chunk)
                 (mkWorld (next_round (now w) chunk blocked) d'
                          (ReadGot chunk :: io w) (lock_held w)))
      as (reads & out' & w' & Hrun & Hio & Hall & Hout & Hlock & Hmono & Hend & Hup);
      [cbn [now]; lia|].
    cbn [now io lock_held] in *.
    exists (reads ++ [ReadGot chunk]), out', w'. split; [exact Hrun|].
    split; [rewrite Hio, <- app_assoc; reflexivity|].
    split; [apply Forall_app; split; [exact Hall|repeat constructor]|].
    split; [rewrite Hout, reads_of_app, <- app_assoc; reflexivity|].
    split; [exact Hlock|]. split; [lia|]. split; [exact Hend|].
    intros _. destruct (Z_lt_le_dec (next_round (now w) chunk blocked) end_) as [Hlt|Hge].
    + auto.
    + (* the round that was just made was the last one *)
      destruct fuel as [|fuel']; [cbn [drain_loop] in Hrun; discriminate|].
      rewrite (@drain_loop_round _ _ self Hopen) in Hrun. cbn [now] in Hrun.
      replace (next_round (now w) chunk blocked <? end_) with false in Hrun
        by (symmetry; apply Z.ltb_ge; exact Hge).
      injection Hrun as _ <-. cbn [now]. lia.
  - apply Z.ltb_ge in Ht. exists [], out, w. rewrite app_nil_r.
    repeat split; auto; lia.
Qed.

Lemma drain_shape fuel duration (w : World D) :
  0 <= duration -> (Z.to_nat duration < fuel)%nat ->
  exists reads out w',
    _drain fuel self duration w = Done out w'
    /\ io w' = reads ++ io w /\ Forall is_read reads
    /\ out = reads_of reads
    /\ lock_held w' = lock_held w
    /\ now w + duration <= now w' <= now w + duration + 119.
Proof.
  intros Hd Hfuel.
  destruct (@drain_loop_shape (now w + duration) fuel [] w)
    as (reads & out & w' & Hrun & Hio & Hall & Hout & Hlock & Hmono & Hend & Hup).
  { replace (now w + duration - now w) with duration by lia. exact Hfuel. }
  exists reads, out, w'. split; [exact Hrun|]. repeat split; auto.
  destruct (Z.eq_dec duration 0) as [->|Hne].
  - destruct fuel as [|fuel']; [lia|].
    rewrite (@drain_loop_round _ _ self Hopen) in Hrun.
    replace (now w <? now w + 0) with false in Hrun by (symmetry; apply Z.ltb_ge; lia).
    injection Hrun as _ <-. lia.
  - apply Hup. lia.
Qed.

Lemma collect_loop_shape end_ : forall fuel collected (w : World D),
  (Z.to_nat (end_ - now w) < fuel)%nat ->
  exists reads collected' w',
    collect_loop self end_ fuel collected w = Done collected' w'
    /\ io w' = reads ++ io w /\ Forall is_read reads
    /\ collected' = collected ++ reads_of reads
    /\ lock_held w' = lock_held w
    /\ now w <= now w'
    /\ (now w <= end_ -> now w' <= end_ + 119)
    /\ (now w' < end_ -> re_search PROMPT_REGEX collected' = true).
Proof.
  induction fuel as [|fuel IH]; intros collected w Hfuel; [lia|].
  rewrite (@collect_loop_round _ _ self Hopen). destruct (now w <? end_) eqn:Ht.
  - apply Z.ltb_lt in Ht. pose proof (read_blocks (dev w) (now w)) as Hb.
    destruct (ser_read (dev w) (now w) READ_CHUNK) as [[chunk blocked] d'].
    assert (Hnext : now w < next_round (now w) chunk blocked <= now w + 120).
    { unfold next_round. destruct (is_empty chunk); lia. }
    cbv zeta.
    destruct (negb (is_empty chunk) && re_search PROMPT_REGEX (collected ++ chunk)) eqn:Hbreak.
    + apply andb_true_iff in Hbreak as [_ Hp].
      exists [ReadGot chunk], (collected ++ chunk), 
        (mkWorld (next_round (now w) chunk blocked) d' (ReadGot chunk :: io w) (lock_held w)).
      cbn [now io lock_held reads_of app]. repeat split; auto; try lia.
      repeat constructor.
    + destruct (IH (collected ++ chunk)
                   (mkWorld (next_round (now w) chunk blocked) d'
                            (ReadGot chunk :: io w) (lock_held w)))
        as (reads & c' & w' & Hrun & Hio & Hall & Hc & Hlock & Hmono & Hup & Hp);
        [cbn [now]; lia|].
      cbn [now io lock_held] in *.
      exists (reads ++ [ReadGot chunk]), c', w'. split; [exact Hrun|].
      split; [rewrite Hio, <- app_assoc; reflexivity|].
      split; [apply Forall_app; split; [exact Hall|repeat constructor]|].
      split; [rewrite Hc, reads_of_app, <- app_assoc; reflexivity|].
      split; [exact Hlock|]. split; [lia|]. split; [|exact Hp].
      intros _. destruct (Z_le_gt_dec (next_round (now w) chunk blocked) end_) as [Hle|Hgt].
      * auto.
      * destruct fuel as [|fuel']; [cbn [collect_loop] in Hrun; discriminate|].
        rewrite (@collect_loop_round _ _ self Hopen) in Hrun. cbn [now] in Hrun.
        replace (next_round (now w) chunk blocked <? end_) with false in Hrun
          by (symmetry; apply Z.ltb_ge; lia).
        injection Hrun as _ <-. cbn [now]. lia.
  - apply Z.ltb_ge in Ht. exists [], collected, w. rewrite app_nil_r.
    repeat split; auto; lia.
Qed.

(** X4.  [_drain(duration)] on an open session returns, with enough
    fuel, exactly the text it has read, in the order read; it only reads
    (no write, no reset), leaves the lock alone, and lasts at least
    [duration] and at most [duration] + 119 ms. *)
Theorem drain_reads_for_duration fuel duration (w : World D) :
  0 <= duration -> (Z.to_nat duration < fuel)%nat ->
  exists reads out w',
    _drain fuel self duration w = Done out w'
    /\ io w' = reads ++ io w /\ Forall is_read reads
    /\ out = reads_of reads
    /\ lock_held w' = lock_held w
    /\ now w + duration <= now w' <= now w + duration + 119.
Proof. apply drain_shape. Qed.

(** [run] on a command that is not blank, with the lock free. *)
Lemma run_shape fuel cmd t (w : World D) :
  lock_held w = false -> is_empty (strip cmd) = false ->
  0 <= t -> (Z.to_nat t < fuel)%nat ->
  exists reads w',
    run fuel self cmd t w
    = Done (verdict (strip cmd) (reads_of reads) (now w + t) (now w')) w'
    /\ io w' = reads ++ Wrote (strip cmd ++ [LF]) :: InputReset :: io w
    /\ Forall is_read reads
    /\ (now w' < now w + t -> re_search PROMPT_REGEX (reads_of reads) = true)
    /\ lock_held w' = false
    /\ now w <= now w' <= now w + t + 119.
Proof.
  intros Hlock Hcmd Ht Hfuel.
  assert (Eself : exists sp u pw, self = mkExecutor (Some sp) u pw).
  { clear - Hopen. destruct self as [[sp|] u pw]; [eauto|discriminate]. }
  destruct Eself as (sp & u & pw & Eself).
  destruct (@collect_loop_shape (now w + t) fuel [] (after_send (strip cmd) w))
    as (reads & collected & w2 & Hloop & Hio & Hall & Hc & Hl & Hmono & Hup & Hp).
  { cbn [now after_send]. replace (now w + t - now w) with t by lia. exact Hfuel. }
  cbn [app] in Hc. subst collected. cbn [now io after_send] in *.
  exists reads, (released w2). rewrite Eself.
  rewrite (run_open_cases fuel sp u pw cmd t w Hlock Hcmd). rewrite <- Eself, Hloop.
  cbn [released now io lock_held]. repeat split; auto; lia.
Qed.

(** X5.  A command that is not blank is dispatched exactly once: [run]
    resets the input buffer once, writes the trimmed command and a newline
    once, and after that only reads; what it returns is the verdict on
    exactly the text read; it returns before the deadline only if the
    prompt pattern has matched that text. *)
Theorem run_dispatches_once fuel cmd t (w : World D) :
  lock_held w = false -> is_empty (strip cmd) = false ->
  0 <= t -> (Z.to_nat t < fuel)%nat ->
  exists reads w',
    run fuel self cmd t w
    = Done (verdict (strip cmd) (reads_of reads) (now w + t) (now w')) w'
    /\ io w' = reads ++ Wrote (strip cmd ++ [LF]) :: InputReset :: io w
    /\ Forall is_read reads
    /\ (now w' < now w + t -> re_search PROMPT_REGEX (reads_of reads) = true).
Proof.
  intros Hlock Hcmd Ht Hfuel.
  destruct (@run_shape fuel cmd t w Hlock Hcmd Ht Hfuel) as (reads & w' & H1 & H2 & H3 & H4 & _).
  exists reads, w'. auto.
Qed.

(** X6.  The wait of [run] is bounded: with the lock free and fuel for
    the window, [run] returns, at most 119 ms after the deadline, and with
    the lock released. *)
Theorem run_bounded_wait fuel cmd t (w : World D) :
  lock_held w = false -> 0 <= t -> (Z.to_nat t < fuel)%nat ->
  exists r w',
    run fuel self cmd t w = Done r w'
    /\ lock_held w' = false
    /\ now w <= now w' <= now w + t + 119.
Proof.
  intros Hlock Ht Hfuel. destruct (is_empty (strip cmd)) eqn:Hcmd.
  - exists (true, []), w. pose proof Hopen as Ho. unfold is_connected in Ho.
    unfold run. destruct (ser self); [|discriminate]. rewrite Hcmd.
    split; [reflexivity|]. split; [exact Hlock|lia].
  - destruct (@run_shape fuel cmd t w Hlock Hcmd Ht Hfuel) as (reads & w' & H1 & _ & _ & _ & H5 & H6).
    eexists _, w'. eauto.
Qed.

End Timed.

(* ------------------------------------------------------------------ *)
(** ** [ensure_shell] on any port *)
(* ------------------------------------------------------------------ *)

Lemma advanced_refl {D} (P : io_event -> Prop) (w : World D) : advanced P 0 0 w w.
Proof.
  split; [exists []; split; [reflexivity|constructor]|]. split; [lia|reflexivity].
Qed.

Lemma advanced_trans {D} (P : io_event -> Prop) a b c d (w w1 w2 : World D) :
  advanced P a b w w1 -> advanced P c d w1 w2 -> advanced P (a + c) (b + d) w w2.
Proof.
  intros ((e1 & Hio1 & Hall1) & Ht1 & Hl1) ((e2 & Hio2 & Hall2) & Ht2 & Hl2).
  split; [|split; [lia|congruence]].
  exists (e2 ++ e1). split; [rewrite Hio2, Hio1, app_assoc; reflexivity|].
  apply Forall_app. auto.
Qed.

Lemma advanced_weaken {D} (P : io_event -> Prop) a b a' b' (w w' : World D) :
  advanced P a b w w' -> a' <= a -> b <= b' -> advanced P a' b' w w'.
Proof. intros (He & Ht & Hl) Ha Hb. split; [exact He|]. split; [lia|exact Hl]. Qed.

Section Bootstrap.

Context {D : Type} `{Serial D}.

Variable self : ShellExecutor.
Hypothesis Hopen : is_connected self = true.

Hypothesis read_blocks : forall d t,
  let '(_, blocked, _) := ser_read d t READ_CHUNK in 0 < blocked <= 100.

Let allowed : io_event -> Prop := bootstrap_event (username self) (password self).

Lemma drain_advances fuel duration (w : World D) :
  0 <= duration -> (Z.to_nat duration < fuel)%nat ->
  returns (_drain fuel self duration) w
          (fun _ w' => advanced allowed duration (duration + 119) w w'
                       /\ writes_of (io w') = writes_of (io w)).
Proof.
  intros Hd Hfuel.
  destruct (@drain_shape D _ self Hopen read_blocks fuel duration w Hd Hfuel)
    as (reads & out & w' & Hrun & Hio & Hall & _ & Hlock & Ht).
  exists out, w'. split; [exact Hrun|]. split.
  - split; [|split; [lia|exact Hlock]]. exists reads. split; [exact Hio|].
    eapply Forall_impl; [|exact Hall]. intros [s| |]; cbn; tauto.
  - rewrite Hio, writes_of_app, (writes_of_reads Hall), app_nil_r. reflexivity.
Qed.

Lemma wrote_advances s (w : World D) :
  allowed (Wrote s) ->
  advanced allowed 0 0 w
           (mkWorld (now w) (ser_write (dev w) (now w) s) (Wrote s :: io w) (lock_held w)).
Proof.
  intros Hs. split; [exists [Wrote s]; split; [reflexivity|apply Forall_cons; [exact Hs|apply Forall_nil]]|].
  cbn [now lock_held]. split; [lia|reflexivity].
Qed.

Lemma slept_advances ms (w : World D) :
  advanced allowed ms ms w (mkWorld (now w + ms) (dev w) (io w) (lock_held w)).
Proof.
  split; [exists []; split; [reflexivity|constructor]|].
  cbn [now lock_held]. split; [lia|reflexivity].
Qed.

(** A line is written and the answer is drained. *)
Lemma send_and_drain fuel s duration hi (buf : str) (w : World D) :
  allowed (Wrote s) -> 0 <= duration -> (Z.to_nat duration < fuel)%nat ->
  duration + 119 <= hi ->
  returns (_write self s ;;; d <- _drain fuel self duration ;; ret (buf ++ d)) w
          (fun _ w' => advanced allowed 0 hi w w').
Proof.
  intros Hs Hd Hfuel Hhi. apply returns_bind_write; [exact Hopen|].
  apply returns_bind. eapply returns_weaken; [apply drain_advances; assumption|].
  cbn beta. intros d w1 [Hadv _]. apply returns_ret.
  apply (advanced_trans (wrote_advances w Hs)) in Hadv.
  apply (advanced_weaken Hadv); lia.
Qed.

Lemma when_advances cond buf body hi (w : World D) :
  0 <= hi ->
  (cond = true -> returns body w (fun _ w' => advanced allowed 0 hi w w')) ->
  returns (when_ cond buf body) w (fun _ w' => advanced allowed 0 hi w w').
Proof.
  intros Hhi Hbody. unfold when_. destruct cond; [auto|].
  apply returns_ret. apply (advanced_weaken (advanced_refl allowed w)); lia.
Qed.

(** A newline, a pause, a drain of 350 ms: the head of every round. *)
Lemma nudge_advances fuel pause {B} (k : str -> M D B) (w : World D)
      (Q : B -> World D -> Prop) :
  0 <= pause -> (350 < fuel)%nat ->
  (forall d w1, advanced allowed (pause + 350) (pause + 469) w w1 ->
                writes_of (io w1) = writes_of (io w) ++ [[LF]] ->
                returns (k d) w1 Q) ->
  returns (_write self [LF] ;;; time_sleep pause ;;; d <- _drain fuel self 350 ;; k d) w Q.
Proof.
  intros Hp Hfuel Hk. apply returns_bind_write; [exact Hopen|]. apply returns_bind_sleep.
  apply returns_bind. eapply returns_weaken; [apply (@drain_advances fuel 350); lia|].
  cbn beta. intros d w1 [Hadv Hw]. apply Hk.
  - assert (Hnl : allowed (Wrote [LF])) by (left; reflexivity).
    pose proof (advanced_trans (advanced_trans (wrote_advances w Hnl)
                                               (slept_advances pause _)) Hadv) as Hall.
    apply (advanced_weaken Hall); lia.
  - exact Hw.
Qed.

Lemma poll_shape fuel start T : (1000 < fuel)%nat ->
  forall n buf (w : World D),
    (Z.to_nat (start + T - now w) < n)%nat ->
    returns (poll_loop fuel self start T n buf) w
            (fun r w' =>
               advanced allowed 0 (Z.max 0 (start + T + 3285 - now w)) w w'
               /\ (r = (true, txt "Shell prompt detected.")
                   \/ (r = (false, txt "Prompt not detected (timeout).")
                       /\ start + T <= now w'))).
Proof.
  intros Hfuel. induction n as [|n IH]; intros buf w Hn; [lia|].
  cbn [poll_loop]. apply returns_bind_time.
  destruct (now w - start <? T) eqn:Ht.
  - apply Z.ltb_lt in Ht. apply nudge_advances; [lia|lia|].
    intros d w1 Hadv1 _.
    destruct (re_search PROMPT_REGEX (buf ++ d)).
    + apply returns_ret. split; [|left; reflexivity].
      apply (advanced_weaken Hadv1); lia.
    + apply returns_bind. eapply returns_weaken.
      { apply (@when_advances _ _ _ 919); [lia|]. intros _.
        apply (@send_and_drain fuel _ 800); [right; left; reflexivity|lia|lia|lia]. }
      cbn beta. intros b2 w2 Hadv2.
      apply returns_bind. eapply returns_weaken.
      { apply (@when_advances _ _ _ 1119); [lia|]. intros _.
        apply (@send_and_drain fuel _ 1000); [right; right; reflexivity|lia|lia|lia]. }
      cbn beta. intros b3 w3 Hadv3.
      apply returns_bind. eapply returns_weaken.
      { apply (@when_advances _ _ _ 719); [lia|]. intros _.
        apply (@send_and_drain fuel _ 600); [left; reflexivity|lia|lia|lia]. }
      cbn beta. intros b4 w4 Hadv4.
      pose proof (advanced_trans (advanced_trans (advanced_trans Hadv1 Hadv2) Hadv3) Hadv4)
        as Hround.
      assert (Ht4 : now w + 410 <= now w4 <= now w + 3286)
        by (destruct Hround as (_ & Hb & _); lia).
      eapply returns_weaken; [apply IH; lia|].
      cbn beta. intros r w' [Hadv Hr]. split; [|exact Hr].
      pose proof (advanced_trans Hround Hadv) as Hall.
      destruct Hall as (He & _ & Hl). destruct Hadv as (_ & Hb & _).
      split; [exact He|]. split; [lia|exact Hl].
  - apply Z.ltb_ge in Ht. apply returns_ret. split.
    + apply (advanced_weaken (advanced_refl allowed w)); lia.
    + right. split; [reflexivity|lia].
Qed.

Lemma ensure_shell_shape fuel overall_timeout (w : World D) :
  (Z.to_nat overall_timeout + 1000 < fuel)%nat ->
  returns (ensure_shell fuel self overall_timeout) w
          (fun r w' =>
             advanced allowed 860 (1098 + Z.max 0 (overall_timeout + 3285)) w w'
             /\ (r = (true, txt "Shell prompt detected.")
                 \/ (r = (false, txt "Prompt not detected (timeout).")
                     /\ now w + 860 + overall_timeout <= now w'))).
Proof.
  intros Hfuel. unfold ensure_shell.
  assert (Eser : exists sp, ser self = Some sp).
  { clear - Hopen. unfold is_connected in Hopen. destruct (ser self); [eauto|discriminate]. }
  destruct Eser as (sp & ->).
  apply returns_bind. cbn [wake].
  apply nudge_advances; [lia|lia|]. intros d1 w1 Hadv1 _.
  apply nudge_advances; [lia|lia|]. intros d2 w2 Hadv2 _.
  apply returns_ret. apply returns_bind_time.
  pose proof (advanced_trans Hadv1 Hadv2) as Hwake.
  assert (Htw : now w + 860 <= now w2 <= now w + 1098)
    by (destruct Hwake as (_ & Hb & _); lia).
  eapply returns_weaken; [apply (@poll_shape fuel (now w2) overall_timeout); lia|].
  cbn beta. intros r w' [Hadv Hr]. split.
  - pose proof (advanced_trans Hwake Hadv) as Hall.
    destruct Hall as (He & _ & Hl). destruct Hadv as (_ & Hb & _).
    split; [exact He|]. split; [lia|exact Hl].
  - destruct Hr as [Hr | [Hr Hlate]]; [left; exact Hr|right]. split; [exact Hr|lia].
Qed.

(** X7.  [ensure_shell] always comes back, whatever the board sends: with
    fuel for the timeout it returns either "Shell prompt detected." or
    "Prompt not detected (timeout).", never before the two wake-up rounds
    are over (0.86 s), never later than 1.098 s plus the timeout plus one
    full round (3.285 s), and it gives up only once the timeout has run
    out. *)
Theorem ensure_shell_bounded fuel overall_timeout (w : World D) :
  (Z.to_nat overall_timeout + 1000 < fuel)%nat ->
  exists r w',
    ensure_shell fuel self overall_timeout w = Done r w'
    /\ (r = (true, txt "Shell prompt detected.")
        \/ (r = (false, txt "Prompt not detected (timeout).")
            /\ now w + 860 + overall_timeout <= now w'))
    /\ now w + 860 <= now w' <= now w + 1098 + Z.max 0 (overall_timeout + 3285).
Proof.
  intros Hfuel.
  destruct (@ensure_shell_shape fuel overall_timeout w Hfuel) as (r & w' & Hrun & (_ & Hb & _) & Hr).
  exists r, w'. split; [exact Hrun|]. split; [exact Hr|lia].
Qed.

(** X8.  What [ensure_shell] puts on the line: apart from reading, it
    only ever writes a bare newline, the user name line or the password
    line; it never resets the input buffer. *)
Theorem ensure_shell_writes_only_credentials fuel overall_timeout (w : World D) :
  (Z.to_nat overall_timeout + 1000 < fuel)%nat ->
  exists r events w',
    ensure_shell fuel self overall_timeout w = Done r w'
    /\ io w' = events ++ io w
    /\ Forall (bootstrap_event (username self) (password self)) events.
Proof.
  intros Hfuel.
  destruct (@ensure_shell_shape fuel overall_timeout w Hfuel)
    as (r & w' & Hrun & ((events & Hio & Hall) & _) & _).
  exists r, events, w'. auto.
Qed.

(** X9.  With [overall_timeout <= 0] the polling loop is never entered:
    [ensure_shell] writes its two wake-up newlines, drains twice and
    reports the timeout, whatever the port has delivered meanwhile (a
    prompt included). *)
Theorem ensure_shell_without_time fuel overall_timeout (w : World D) :
  overall_timeout <= 0 -> (350 < fuel)%nat ->
  exists w',
    ensure_shell fuel self overall_timeout w
    = Done (false, txt "Prompt not detected (timeout).") w'
    /\ writes_of (io w') = writes_of (io w) ++ [[LF]; [LF]]
    /\ now w + 860 <= now w' <= now w + 1098.
Proof.
  intros HT Hfuel.
  assert (Hret : returns (ensure_shell fuel self overall_timeout) w
            (fun r w' => r = (false, txt "Prompt not detected (timeout).")
                         /\ writes_of (io w') = writes_of (io w) ++ [[LF]; [LF]]
                         /\ now w + 860 <= now w' <= now w + 1098)).
  { unfold ensure_shell.
    assert (Eser : exists sp, ser self = Some sp).
    { clear - Hopen. unfold is_connected in Hopen. destruct (ser self); [eauto|discriminate]. }
    destruct Eser as (sp & ->).
    apply returns_bind. cbn [wake].
    apply nudge_advances; [lia|lia|]. intros d1 w1 Hadv1 Hw1.
    apply nudge_advances; [lia|lia|]. intros d2 w2 Hadv2 Hw2.
    apply returns_ret. apply returns_bind_time.
    destruct fuel as [|n]; [lia|]. cbn [poll_loop]. apply returns_bind_time.
    replace (now w2 - now w2 <? overall_timeout) with false
      by (symmetry; apply Z.ltb_ge; lia).
    apply returns_ret. split; [reflexivity|]. split.
    - rewrite Hw2, Hw1, <- app_assoc. reflexivity.
    - destruct Hadv1 as (_ & Hb1 & _). destruct Hadv2 as (_ & Hb2 & _). lia. }
  destruct Hret as (r & w' & Hrun & -> & Hw & Hb). exists w'. auto.
Qed.

End Bootstrap.

Lemma paced_read_blocks : forall (d : Paced) t,
  let '(_, blocked, _) := ser_read d t READ_CHUNK in 0 < blocked <= 100.
Proof. intros [[|chunk rest]] t; cbn; lia. Qed.

Lemma drain_reads_for_duration_witness :
  exists reads out (w' : World Paced),
    _drain 400 connected 350 (world0 (paced [txt "boot"; txt " ok"])) = Done out w'
    /\ io w' = reads ++ [] /\ Forall is_read reads
    /\ out = reads_of reads
    /\ lock_held w' = false
    /\ 0 + 350 <= now w' <= 0 + 350 + 119.
Proof.
  apply (@drain_reads_for_duration Paced _ connected eq_refl paced_read_blocks
           400 350 (world0 (paced [txt "boot"; txt " ok"]))); lia.
Defined.

Lemma run_dispatches_once_witness :
  exists reads (w' : World Paced),
    run 1100 connected (txt " ls ") 1000 (world0 (paced [txt "ls"; [LF] ++ txt "# "]))
    = Done (verdict (txt "ls") (reads_of reads) (0 + 1000) (now w')) w'
    /\ io w' = reads ++ [Wrote (txt "ls" ++ [LF]); InputReset]
    /\ Forall is_read reads
    /\ (now w' < 0 + 1000 -> re_search PROMPT_REGEX (reads_of reads) = true).
Proof.
  apply (@run_dispatches_once Paced _ connected eq_refl paced_read_blocks
           1100 (txt " ls ") 1000 (world0 (paced [txt "ls"; [LF] ++ txt "# "])));
    try reflexivity; lia.
Defined.

Lemma run_bounded_wait_witness :
  exists r (w' : World Paced),
    run 1100 connected (txt "sleep 5") 1000 (world0 (paced [])) = Done r w'
    /\ lock_held w' = false
    /\ 0 <= now w' <= 0 + 1000 + 119.
Proof.
  apply (@run_bounded_wait Paced _ connected eq_refl paced_read_blocks
           1100 (txt "sleep 5") 1000 (world0 (paced []))); try reflexivity; lia.
Defined.

Lemma ensure_shell_bounded_witness :
  exists r (w' : World Paced),
    ensure_shell 3100 connected 2000 (world0 (paced [txt "garbage"])) = Done r w'
    /\ (r = (true, txt "Shell prompt detected.")
        \/ (r = (false, txt "Prompt not detected (timeout).")
            /\ 0 + 860 + 2000 <= now w'))
    /\ 0 + 860 <= now w' <= 0 + 1098 + Z.max 0 (2000 + 3285).
Proof.
  apply (@ensure_shell_bounded Paced _ connected eq_refl paced_read_blocks
           3100 2000 (world0 (paced [txt "garbage"]))). lia.
Defined.

Lemma ensure_shell_writes_only_credentials_witness :
  exists r events (w' : World Paced),
    ensure_shell 3100 connected 2000 (world0 (paced [txt "login: "])) = Done r w'
    /\ io w' = events ++ []
    /\ Forall (bootstrap_event (txt "root") []) events.
Proof.
  apply (@ensure_shell_writes_only_credentials Paced _ connected eq_refl paced_read_blocks
           3100 2000 (world0 (paced [txt "login: "]))). lia.
Defined.

Lemma ensure_shell_without_time_witness :
  exists w' : World Paced,
    ensure_shell 400 connected 0 (world0 (paced [txt "root@board:~# "]))
    = Done (false, txt "Prompt not detected (timeout).") w'
    /\ writes_of (io w') = [] ++ [[LF]; [LF]]
    /\ 0 + 860 <= now w' <= 0 + 1098.
Proof.
  apply (@ensure_shell_without_time Paced _ connected eq_refl paced_read_blocks
           400 0 (world0 (paced [txt "root@board:~# "]))); lia.
Defined.

(* ------------------------------------------------------------------ *)
(** ** [ensure_shell] in front of a shell that is already there *)
(* ------------------------------------------------------------------ *)

(** X10.  A board that is already at its prompt (it shows a text matching
    the prompt pattern at the latest 0.31 s into the call): for every
    positive [overall_timeout], [ensure_shell] returns
    [(True, "Shell prompt detected.")] in its first polling round, and all
    it has written are the two wake-up newlines and the newline of that
    round; neither the user name nor the password goes out. *)
Theorem ensure_shell_prompt_at_once fuel self (b : LoginBoard) ready overall_timeout
        (w : World LoginBoard) :
  is_connected self = true ->
  dev w = b -> stage b = ShowPrompt ready -> ready <= now w + 310 ->
  0 < answer_ms b <= 100 ->
  re_search PROMPT_REGEX (prompt_text b) = true ->
  0 < overall_timeout -> (350 < fuel)%nat ->
  exists w',
    ensure_shell fuel self overall_timeout w = Done (true, txt "Shell prompt detected.") w'
    /\ writes_of (io w') = writes_of (io w) ++ [[LF]; [LF]; [LF]]
    /\ now w' <= now w + 1098 + 529.
Proof.
  intros Hopen Hdev Hst Hready Hans Hp HT Hfuel.
  assert (Hwr : forall t s, ser_write b t s = b).
  { intros t s. cbn [ser_write login_board]. rewrite Hst. reflexivity. }
  assert (Hret : returns (ensure_shell fuel self overall_timeout) w
            (fun r w' => r = (true, txt "Shell prompt detected.")
                         /\ writes_of (io w') = writes_of (io w) ++ [[LF]; [LF]; [LF]]
                         /\ now w' <= now w + 1098 + 529)).
  { unfold ensure_shell.
    assert (Eser : exists sp, ser self = Some sp).
    { clear - Hopen. unfold is_connected in Hopen. destruct (ser self); [eauto|discriminate]. }
    destruct Eser as (sp & ->).
    apply returns_bind. cbn [wake].
    apply returns_bind_write; [exact Hopen|]. apply returns_bind_sleep.
    drain_step (@board_drain_pending self Hopen b (prompt_text b) Idle ready).
    { exact Hans. }
    { intros t. unfold due. rewrite Hst.
      destruct (ready <=? t) eqn:E; [left; reflexivity|right].
      apply Z.leb_gt in E. auto. }
    { intros t. reflexivity. }
    { cbn [dev]. rewrite Hdev. apply Hwr. }
    { lia. }
    { cbn [now]. lia. }
    { lia. }
    cbn [now io writes_of]. intros d1 w1 (-> & Hdev1 & Hw1 & Ht1).
    apply returns_bind_write; [exact Hopen|]. apply returns_bind_sleep.
    drain_step (@board_drain_quiet self Hopen (at_stage b Idle)).
    { intros t. reflexivity. }
    { cbn [dev]. rewrite Hdev1. reflexivity. }
    { lia. }
    { lia. }
    cbn [now io writes_of]. intros d2 w2 (-> & Hdev2 & Hw2 & Ht2).
    apply returns_ret. apply returns_bind_time.
    assert (Hn : exists n, fuel = S n) by (destruct fuel; [lia|eauto]).
    destruct Hn as (n & Hn). rewrite Hn at 2.
    cbn [poll_loop]. apply returns_bind_time.
    replace (now w2 - now w2 <? overall_timeout) with true
      by (symmetry; apply Z.ltb_lt; lia).
    apply returns_bind_write; [exact Hopen|]. apply returns_bind_sleep.
    drain_step (@board_drain_quiet self Hopen (at_stage b Idle)).
    { intros t. reflexivity. }
    { cbn [dev]. rewrite Hdev2. reflexivity. }
    { lia. }
    { lia. }
    cbn [now io writes_of]. intros d3 w3 (-> & Hdev3 & Hw3 & Ht3).
    cbn [app]. rewrite !app_nil_r, Hp. apply returns_ret.
    split; [reflexivity|]. split; [|lia].
    rewrite Hw3, Hw2, Hw1. repeat rewrite <- app_assoc. reflexivity. }
  destruct Hret as (r & w' & Hrun & -> & Hw & Hb). exists w'. auto.
Qed.

Lemma ensure_shell_prompt_at_once_witness :
  exists w' : World LoginBoard,
    ensure_shell 400 root_executor 15000
                 (world0 (at_stage (root_board 0 0) (ShowPrompt 200)))
    = Done (true, txt "Shell prompt detected.") w'
    /\ writes_of (io w') = [] ++ [[LF]; [LF]; [LF]]
    /\ now w' <= 0 + 1098 + 529.
Proof.
  apply (@ensure_shell_prompt_at_once 400 root_executor
           (at_stage (root_board 0 0) (ShowPrompt 200)) 200 15000
           (world0 (at_stage (root_board 0 0) (ShowPrompt 200))));
    try reflexivity; try (simpl; lia); try lia.
Defined.

(* ------------------------------------------------------------------ *)
(** ** Escape sequences *)
(* ------------------------------------------------------------------ *)

(** A greedy repetition that can take all of [a] and cannot go on takes
    all of [a], when the rest of the pattern agrees. *)
Lemma star_greedy {A} p (k : option char -> str -> option A) a rest x : forall prev,
  forallb p a = true ->
  match rest with [] => true | c :: _ => negb (p c) end = true ->
  k (prev_after prev a) rest = Some x ->
  star p prev (a ++ rest) k = Some x.
Proof.
  induction a as [|y a IH]; intros prev Ha Hstop Hk.
  - cbn [app]. unfold prev_after in Hk. cbn in Hk.
    destruct rest as [|c rest]; cbn [star]; [exact Hk|].
    apply negb_true_iff in Hstop. rewrite Hstop. exact Hk.
  - cbn [forallb] in Ha. apply andb_true_iff in Ha as [Hy Ha].
    cbn [app star]. rewrite Hy. rewrite prev_after_cons in Hk.
    rewrite (IH (Some y) Ha Hstop Hk). reflexivity.
Qed.

Lemma in_range_iff lo hi c : in_range lo hi c = true <-> (lo <= c <= hi)%N.
Proof. unfold in_range. rewrite andb_true_iff, !N.leb_le. tauto. Qed.

Lemma in_range_out lo hi c : (c < lo \/ hi < c)%N -> in_range lo hi c = false.
Proof.
  intros Hout. destruct (in_range lo hi c) eqn:E; [|reflexivity].
  apply in_range_iff in E. lia.
Qed.

Lemma csi_match prev params inter final rest :
  forallb (in_range (ch "0") (ch "?")) params = true ->
  forallb (in_range (ch " ") (ch "/")) inter = true ->
  in_range (ch "@") (ch "~") final = true ->
  match_here CSI_REGEX prev (ESC :: ch "[" :: params ++ inter ++ final :: rest)
  = Some rest.
Proof.
  intros Hp Hi Hf. unfold match_here, CSI_REGEX. cbn [cat_all exec].
  unfold is_char at 1. rewrite N.eqb_refl. unfold is_char at 1. rewrite N.eqb_refl.
  apply in_range_iff in Hf. change (ch "@") with 64%N in Hf.
  apply (@star_greedy _ (in_range (ch "0") (ch "?")) _ params
                      (inter ++ final :: rest) rest _ Hp).
  - destruct inter as [|c inter]; cbn [app]; apply negb_true_iff.
    + apply in_range_out. change (ch "?") with 63%N. lia.
    + cbn [forallb] in Hi. apply andb_true_iff in Hi as [Hc _].
      apply in_range_iff in Hc. change (ch "/") with 47%N in Hc.
      apply in_range_out. change (ch "0") with 48%N. lia.
  - apply (@star_greedy _ (in_range (ch " ") (ch "/")) _ inter (final :: rest) rest _ Hi).
    + apply negb_true_iff. apply in_range_out. change (ch "/") with 47%N. lia.
    + cbn [exec]. replace (in_range (ch "@") (ch "~") final) with true; [reflexivity|].
      symmetry. apply in_range_iff. change (ch "@") with 64%N. exact Hf.
Qed.

Lemma csi_any_prev p1 p2 s : match_here CSI_REGEX p1 s = match_here CSI_REGEX p2 s.
Proof.
  unfold match_here, CSI_REGEX. cbn [cat_all exec].
  destruct s as [|c s]; [reflexivity|]. destruct (is_char ESC c); reflexivity.
Qed.

Lemma sub_csi_any_prev n p1 p2 s : sub_from CSI_REGEX n p1 s = sub_from CSI_REGEX n p2 s.
Proof.
  destruct s as [|c s]; [reflexivity|]. cbn [sub_from].
  destruct n; [|reflexivity]. rewrite (csi_any_prev p1 p2). reflexivity.
Qed.

Lemma sub_from_skip r q : forall prev b,
  sub_from r (List.length q) prev (q ++ b) = sub_from r O (prev_after prev q) b.
Proof.
  induction q as [|c q IH]; intros prev b; [reflexivity|].
  cbn [List.length app sub_from]. rewrite IH, prev_after_cons. reflexivity.
Qed.

Lemma sub_csi_plain_prefix a : forall prev b,
  has_char ESC a = false ->
  sub_from CSI_REGEX O prev (a ++ b) = a ++ sub_from CSI_REGEX O None b.
Proof.
  induction a as [|c a IH]; intros prev b Ha.
  - apply sub_csi_any_prev.
  - unfold has_char in Ha. cbn [existsb] in Ha. apply orb_false_iff in Ha as [Hc Ha].
    cbn [app sub_from]. rewrite csi_needs_esc.
    + f_equal. apply IH. exact Ha.
    + intros ->. unfold ESC in Hc. rewrite N.eqb_refl in Hc. discriminate.
Qed.

Lemma sub_from_matched r prev c q b :
  match_here r prev (c :: q ++ b) = Some b ->
  sub_from r O prev (c :: q ++ b) = sub_from r O (prev_after (Some c) q) b.
Proof.
  intros Hm. rewrite <- sub_from_skip. cbn [sub_from]. rewrite Hm.
  replace (List.length (c :: q ++ b) - List.length b)%nat with (S (List.length q)).
  - reflexivity.
  - cbn [List.length]. rewrite length_app. lia.
Qed.

Lemma sub_csi_sequence prev params inter final b :
  forallb (in_range (ch "0") (ch "?")) params = true ->
  forallb (in_range (ch " ") (ch "/")) inter = true ->
  in_range (ch "@") (ch "~") final = true ->
  sub_from CSI_REGEX O prev (ESC :: ch "[" :: params ++ inter ++ final :: b)
  = sub_from CSI_REGEX O None b.
Proof.
  intros Hp Hi Hf. pose proof (csi_match prev _ _ _ b Hp Hi Hf) as Hm.
  assert (Hq : ch "[" :: params ++ inter ++ final :: b
               = (ch "[" :: params ++ inter ++ [final]) ++ b).
  { cbn [app]. rewrite <- !app_assoc. reflexivity. }
  rewrite Hq in *. rewrite (sub_from_matched _ _ _ _ Hm). apply sub_csi_any_prev.
Qed.

(** X11.  An ANSI CSI sequence ([ESC [], parameter bytes [0-?], intermediate
    bytes [ -/], one final byte [@-~]) that follows text free of escape
    characters is removed whole, and the clean-up goes on behind it; the
    text before it only loses its carriage returns. *)
Theorem sanitize_removes_csi a params inter final b :
  has_char ESC a = false ->
  forallb (in_range (ch "0") (ch "?")) params = true ->
  forallb (in_range (ch " ") (ch "/")) inter = true ->
  in_range (ch "@") (ch "~") final = true ->
  sanitize (a ++ ESC :: ch "[" :: params ++ inter ++ final :: b)
  = remove_char CR a ++ sanitize b.
Proof.
  intros Ha Hp Hi Hf. unfold sanitize, re_sub_delete.
  rewrite (sub_csi_plain_prefix _ _ _ Ha), (sub_csi_sequence None _ _ _ b Hp Hi Hf).
  unfold remove_char. apply filter_app.
Qed.

Lemma sanitize_removes_csi_witness :
  sanitize (txt "status: " ++ ESC :: ch "[" :: txt "1;31" ++ [] ++ ch "m"
            :: txt "FAIL" ++ [ESC] ++ txt "[0m" ++ [CR; LF])
  = remove_char CR (txt "status: ")
    ++ sanitize (txt "FAIL" ++ [ESC] ++ txt "[0m" ++ [CR; LF]).
Proof.
  apply (@sanitize_removes_csi (txt "status: ") (txt "1;31") [] (ch "m")); reflexivity.
Defined.

(* ------------------------------------------------------------------ *)
(** ** The clean-up of a console transcript *)
(* ------------------------------------------------------------------ *)

(** Carriage returns and CSI sequences go, the text shown stays. *)
Lemma sub_csi_transcript (ps : list piece) : forall prev,
  forallb piece_ok ps = true ->
  remove_char CR (sub_from CSI_REGEX O prev (raw_text ps)) = plain_text ps.
Proof.
  induction ps as [|p ps IH]; intros prev Hok; [reflexivity|].
  cbn [forallb] in Hok. apply andb_true_iff in Hok as [Hp Hps].
  unfold raw_text, plain_text in *. cbn [flat_map].
  destruct p as [c| |params inter final]; cbn [raw_of plain_of piece_ok app] in *.
  - apply andb_true_iff in Hp as [Hesc Hcr].
    apply negb_true_iff in Hesc, Hcr. apply N.eqb_neq in Hesc.
    cbn [sub_from]. rewrite (csi_needs_esc prev _ Hesc).
    unfold remove_char. cbn [filter]. rewrite Hcr. cbn [negb].
    f_equal. apply (IH (Some c) Hps).
  - cbn [sub_from]. rewrite csi_needs_esc by discriminate.
    unfold remove_char. cbn [filter]. change (CR =? CR)%N with true. cbn [negb].
    apply (IH (Some CR) Hps).
  - apply andb_true_iff in Hp as [Hp Hf]. apply andb_true_iff in Hp as [Hp Hi].
    replace ((params ++ inter ++ [final]) ++ flat_map raw_of ps)
      with (params ++ inter ++ final :: flat_map raw_of ps)
      by (rewrite <- !app_assoc; reflexivity).
    rewrite (sub_csi_sequence prev _ _ _ _ Hp Hi Hf). apply (IH None Hps).
Qed.

Lemma sanitize_transcript (ps : list piece) :
  forallb piece_ok ps = true -> sanitize (raw_text ps) = plain_text ps.
Proof. intros Hok. unfold sanitize, re_sub_delete. apply sub_csi_transcript. exact Hok. Qed.

Lemma clean_output_transcript cmd (ps : list piece) echo output prompt :
  forallb piece_ok ps = true ->
  plain_text ps = echo ++ LF :: output ++ LF :: prompt ->
  strip echo = cmd -> has_char LF echo = false ->
  strip output = output ->
  is_prompt_line (last (split LF output) []) = false ->
  has_char LF prompt = false -> is_prompt_line prompt = true ->
  clean_output cmd (raw_text ps) = output.
Proof.
  intros Hok Hplain Hecho Hnl Hso Hlast Hnp Hp.
  unfold clean_output. rewrite (sanitize_transcript ps Hok), Hplain.
  rewrite split_cons_line by (apply has_char_absent; exact Hnl).
  unfold drop_echo. rewrite Hecho, str_eqb_refl.
  rewrite split_snoc_line by (apply has_char_absent; exact Hnp).
  rewrite drop_prompts_last by assumption.
  rewrite join_split. exact Hso.
Qed.

Section RunTranscript.

Context {D : Type} `{Serial D}.

(** X21.  Echo and prompt suppression on a console transcript.  The read
    loop of [run] has collected a transcript of carriage returns, CSI
    sequences and shown text, and the text shown is
    [echo LF output LF prompt]: the echoed line trims to the trimmed
    command, the prompt is the last line, is prompt-like and is not
    followed by a newline, [output] is trimmed and does not itself end in
    a prompt-like line, and either there is output or the prompt came
    before the deadline.  Then [run] returns exactly [output], whatever
    carriage returns and CSI sequences the transcript carries and wherever
    they stand; [ok] is [False] only for a permission-denial phrase. *)
Theorem run_strips_echo_and_prompt fuel sp u pw cmd t (w w2 : World D)
        (ps : list piece) echo output prompt :
  lock_held w = false -> is_empty (strip cmd) = false ->
  forallb piece_ok ps = true ->
  plain_text ps = echo ++ LF :: output ++ LF :: prompt ->
  strip echo = strip cmd -> has_char LF echo = false ->
  strip output = output ->
  is_prompt_line (last (split LF output) []) = false ->
  has_char LF prompt = false -> is_prompt_line prompt = true ->
  collect_loop (mkExecutor (Some sp) u pw) (now w + t) fuel []
               (after_send (strip cmd) w)
  = Done (raw_text ps) w2 ->
  (output <> [] \/ now w2 < now w + t) ->
  run fuel (mkExecutor (Some sp) u pw) cmd t w
  = Done (negb (permission_denied output), output) (released w2).
Proof.
  intros Hlock Hcmd Hok Hplain Hecho Hnl Hso Hlast Hnp Hp Hloop Hlive.
  rewrite (@run_after_collect _ _ fuel sp u pw cmd t w w2 _ Hlock Hcmd Hloop). unfold verdict.
  rewrite (@clean_output_transcript (strip cmd) ps echo output prompt) by assumption.
  destruct (permission_denied output); [reflexivity|]. cbn [negb].
  destruct Hlive as [Hout | Htime].
  - destruct output; [contradiction|]. rewrite andb_false_r. reflexivity.
  - replace (now w + t <=? now w2) with false; [reflexivity|].
    symmetry. apply Z.leb_gt. exact Htime.
Qed.

End RunTranscript.

Lemma run_strips_echo_and_prompt_witness :
  exists w2 : World Script,
    run 5 connected (txt " ls ") 6000
        (world0 [(txt "ls" ++ [CR; LF]
                  ++ [ESC] ++ txt "[1;34mbin" ++ [ESC] ++ txt "[0m" ++ txt "  a.txt" ++ [CR; LF]
                  ++ txt "root@board:~# ", 100)])
    = Done (true, txt "bin  a.txt") (released w2).
Proof.
  eexists.
  refine (@run_strips_echo_and_prompt Script _ 5 (mkPort (txt "COM3") 115200)
            (txt "root") [] (txt " ls ") 6000 _ _
            (map Shown (txt "ls") ++ [CarriageReturn; Shown LF]
             ++ [Csi (txt "1;34") [] (ch "m")] ++ map Shown (txt "bin")
             ++ [Csi (txt "0") [] (ch "m")] ++ map Shown (txt "  a.txt")
             ++ [CarriageReturn; Shown LF] ++ map Shown (txt "root@board:~# "))
            (txt "ls") (txt "bin  a.txt") (txt "root@board:~# ")
            _ _ _ _ _ _ _ _ _ _ _ _).
  all: try (vm_compute; reflexivity).
  left. discriminate.
Defined.

(* ------------------------------------------------------------------ *)
(** ** The login pattern *)
(* ------------------------------------------------------------------ *)

Lemma exec_cat_all_cons {A} r rs prev s (k : option char -> str -> option A) :
  exec (cat_all (r :: rs)) prev s k
  = exec r prev s (fun prev' s' => exec (cat_all rs) prev' s' k).
Proof. destruct rs; reflexivity. Qed.

(** A literal word: the text starts with characters that fit it one by
    one. *)
Lemma exec_word {A} (letters : list ascii) : forall prev s (k : option char -> str -> option A),
  exec (cat_all (map (fun a => Cls (ci a)) letters)) prev s k <> None <->
  exists w rest, s = w ++ rest
                 /\ Forall2 (fun a c => ci a c = true) letters w
                 /\ k (prev_after prev w) rest <> None.
Proof.
  induction letters as [|a letters IH]; intros prev s k.
  - cbn [map cat_all exec]. split.
    + intros Hk. exists [], s. split; [reflexivity|]. split; [constructor|exact Hk].
    + intros (w & rest & -> & Hw & Hk). inversion Hw; subst. exact Hk.
  - cbn [map]. rewrite exec_cat_all_cons. cbn [exec]. split.
    + destruct s as [|c s']; [congruence|]. destruct (ci a c) eqn:Hc; [|congruence].
      intros Hk. apply IH in Hk as (w & rest & -> & Hw & Hk).
      exists (c :: w), rest. rewrite prev_after_cons. split; [reflexivity|].
      split; [constructor; assumption|exact Hk].
    + intros (w & rest & -> & Hw & Hk). inversion Hw as [|? c ? w' Hc Hw']; subst.
      cbn [app]. rewrite Hc. apply IH. exists w', rest. rewrite prev_after_cons in Hk. auto.
Qed.

Lemma login_here prev s :
  match_here LOGIN_REGEX prev s <> None <->
  at_bol prev = true /\
  exists sp1 w sp2 sp3 rest,
    s = sp1 ++ w ++ sp2 ++ ch ":" :: sp3 ++ rest
    /\ forallb is_space sp1 = true
    /\ (spells_ci "login" w \/ spells_ci "username" w)
    /\ forallb is_space sp2 = true /\ forallb is_space sp3 = true
    /\ at_eol rest = true.
Proof.
  unfold match_here, LOGIN_REGEX. rewrite exec_cat_all_cons. cbn [exec].
  destruct (at_bol prev); [|split; [congruence | intros [? _]; discriminate]].
  rewrite exec_cat_all_cons. cbn [exec]. rewrite star_some. split.
  - intros (sp1 & r1 & -> & Hsp1 & Hk). split; [reflexivity|].
    rewrite exec_cat_all_cons in Hk. cbn [exec] in Hk.
    assert (Hw : exists w r2, r1 = w ++ r2
                   /\ (spells_ci "login" w \/ spells_ci "username" w)
                   /\ exec (cat_all [Star is_space; Cls (is_char (ch ":")); Star is_space; Eol])
                           (prev_after (prev_after prev sp1) w) r2
                           (fun _ rest => Some rest) <> None).
    { apply or_else_some in Hk. destruct Hk as [Hl|Hu].
      - unfold word_ci in Hl. apply (proj1 (exec_word _ _ _ _)) in Hl.
        destruct Hl as (w & r2 & E & Hspell & Hcont). exists w, r2.
        split; [exact E|]. split; [left; exact Hspell|exact Hcont].
      - unfold word_ci in Hu. apply (proj1 (exec_word _ _ _ _)) in Hu.
        destruct Hu as (w & r2 & E & Hspell & Hcont). exists w, r2.
        split; [exact E|]. split; [right; exact Hspell|exact Hcont]. }
    clear Hk. destruct Hw as (w & r2 & -> & Hw & Hk).
    rewrite exec_cat_all_cons in Hk. cbn [exec] in Hk.
    apply star_some in Hk as (sp2 & r3 & -> & Hsp2 & Hk).
    rewrite exec_cat_all_cons in Hk. cbn [exec] in Hk.
    destruct r3 as [|c r3]; [congruence|].
    destruct (is_char (ch ":") c) eqn:Hc; [|congruence].
    unfold is_char in Hc. apply N.eqb_eq in Hc. subst c.
    rewrite exec_cat_all_cons in Hk. cbn [exec cat_all] in Hk.
    apply star_some in Hk as (sp3 & rest & -> & Hsp3 & Hk).
    destruct (at_eol rest) eqn:He; [|congruence].
    exists sp1, w, sp2, sp3, rest. auto 8.
  - intros (_ & sp1 & w & sp2 & sp3 & rest & -> & Hsp1 & Hw & Hsp2 & Hsp3 & He).
    exists sp1, (w ++ sp2 ++ ch ":" :: sp3 ++ rest). split; [reflexivity|].
    split; [exact Hsp1|].
    rewrite exec_cat_all_cons. cbn [exec].
    assert (Hrest : forall p,
               exec (cat_all [Star is_space; Cls (is_char (ch ":")); Star is_space; Eol])
                    p (sp2 ++ ch ":" :: sp3 ++ rest) (fun _ rest => Some rest) <> None).
    { intros p. rewrite exec_cat_all_cons. cbn [exec]. apply star_some.
      exists sp2, (ch ":" :: sp3 ++ rest). split; [reflexivity|]. split; [exact Hsp2|].
      rewrite exec_cat_all_cons. cbn [exec]. unfold is_char at 1. rewrite N.eqb_refl.
      rewrite exec_cat_all_cons. cbn [exec cat_all]. apply star_some.
      exists sp3, rest. rewrite He. repeat split; auto. discriminate. }
    apply or_else_some. destruct Hw as [Hw|Hw]; [left|right]; apply exec_word;
      exists w, (sp2 ++ ch ":" :: sp3 ++ rest); (split; [reflexivity|]); (split; [exact Hw|]);
      apply Hrest.
Qed.

Lemma login_search_iff s :
  re_search LOGIN_REGEX s = true <->
  exists before sp1 w sp2 sp3 after,
    s = before ++ sp1 ++ w ++ sp2 ++ ch ":" :: sp3 ++ after
    /\ (before = [] \/ exists b, before = b ++ [LF])
    /\ (after = [] \/ exists a, after = LF :: a)
    /\ forallb is_space sp1 = true
    /\ (spells_ci "login" w \/ spells_ci "username" w)
    /\ forallb is_space sp2 = true /\ forallb is_space sp3 = true.
Proof.
  unfold re_search. rewrite search_from_true. split.
  - intros (pre & post & -> & Hm).
    apply login_here in Hm as (Hb & sp1 & w & sp2 & sp3 & rest & -> & H1 & Hw & H2 & H3 & He).
    apply at_bol_prev_after in Hb. apply at_eol_iff in He.
    exists pre, sp1, w, sp2, sp3, rest. auto 8.
  - intros (pre & sp1 & w & sp2 & sp3 & rest & -> & Hb & He & H1 & Hw & H2 & H3).
    exists pre, (sp1 ++ w ++ sp2 ++ ch ":" :: sp3 ++ rest). split; [reflexivity|].
    apply login_here. split; [apply at_bol_prev_after; exact Hb|].
    exists sp1, w, sp2, sp3, rest. apply at_eol_iff in He. auto 8.
Qed.
(** X12.  The login pattern finds a match exactly when the text has,
    from the start of a line to the end of a line, the word [login] or
    [username] in any letter case followed by a colon, with nothing but
    white space before, between and after them. *)
Theorem login_pattern_characterised s :
  re_search LOGIN_REGEX s = true <->
  exists before sp1 w sp2 sp3 after,
    s = before ++ sp1 ++ w ++ sp2 ++ ch ":" :: sp3 ++ after
    /\ (before = [] \/ exists b, before = b ++ [LF])
    /\ (after = [] \/ exists a, after = LF :: a)
    /\ forallb is_space sp1 = true
    /\ (spells_ci "login" w \/ spells_ci "username" w)
    /\ forallb is_space sp2 = true /\ forallb is_space sp3 = true.
Proof. apply login_search_iff. Qed.

Lemma leading_blanks_unique (b : str) : forall (b' a a' : str) x x',
  b ++ x :: a = b' ++ x' :: a' ->
  forallb is_space b = true -> forallb is_space b' = true ->
  is_space x = false -> is_space x' = false ->
  b = b' /\ x = x' /\ a = a'.
Proof.
  induction b as [|y b IH]; intros [|y' b'] a a' x x' E Hb Hb' Hx Hx'; cbn [app] in E.
  - injection E as -> ->. auto.
  - injection E as -> _. cbn [forallb] in Hb'. apply andb_true_iff in Hb' as [Hy _]. congruence.
  - injection E as -> _. cbn [forallb] in Hb. apply andb_true_iff in Hb as [Hy _]. congruence.
  - injection E as -> E. cbn [forallb] in Hb, Hb'.
    apply andb_true_iff in Hb as [_ Hb]. apply andb_true_iff in Hb' as [_ Hb'].
    destruct (IH b' a a' x x' E Hb Hb' Hx Hx') as (-> & -> & ->). auto.
Qed.

Lemma forallb_rev (p : char -> bool) (l : str) : forallb p l = true -> forallb p (rev l) = true.
Proof.
  rewrite !forallb_forall. intros Hall x Hx. apply Hall. apply in_rev. exact Hx.
Qed.

Lemma trailing_blanks_unique (a a' b b' : str) x x' :
  a ++ x :: b = a' ++ x' :: b' ->
  forallb is_space b = true -> forallb is_space b' = true ->
  is_space x = false -> is_space x' = false ->
  a = a' /\ x = x' /\ b = b'.
Proof.
  intros E Hb Hb' Hx Hx'. apply (f_equal (@rev char)) in E.
  rewrite !rev_app_distr in E. cbn [rev] in E. rewrite <- !app_assoc in E. cbn [app] in E.
  destruct (@leading_blanks_unique _ _ _ _ _ _ E (forallb_rev _ _ Hb) (forallb_rev _ _ Hb') Hx Hx')
    as (Eb & -> & Ea).
  apply (f_equal (@rev char)) in Eb, Ea. rewrite !rev_involutive in Eb, Ea. auto.
Qed.

Lemma app_inj_suffix (a : str) : forall (c b d : str),
  a ++ b = c ++ d -> List.length b = List.length d -> a = c /\ b = d.
Proof.
  induction a as [|x a IH]; intros [|y c] b d E Hlen; cbn [app] in E.
  - auto.
  - subst b. cbn [List.length] in Hlen. rewrite length_app in Hlen. lia.
  - subst d. cbn [List.length] in Hlen. rewrite length_app in Hlen. lia.
  - injection E as -> E. destruct (IH c b d E Hlen) as [-> ->]. auto.
Qed.

(** The characters a letter matches under IGNORECASE are no white
    space. *)
Lemma ci_letter_not_space a c :
  (97 <= ch a <= 122)%N -> ci a c = true -> is_space c = false.
Proof.
  intros Ha. unfold ci. rewrite !orb_true_iff, !andb_true_iff, !N.eqb_eq.
  intros [[Hl|[_ ->]]|[_ ->]]; [|reflexivity|reflexivity].
  unfold lower in Hl. destruct (in_range 65%N 90%N c) eqn:Hup.
  - apply in_range_iff in Hup. unfold is_space.
    rewrite !(@in_range_out _ _ c) by lia.
    repeat (match goal with |- context [(c =? ?n)%N] =>
              replace (c =? n)%N with false by (symmetry; apply N.eqb_neq; lia) end).
    reflexivity.
  - destruct (c =? 304)%N eqn:E1; [apply N.eqb_eq in E1; subst c; reflexivity|].
    destruct (c =? 8490)%N eqn:E2; [apply N.eqb_eq in E2; subst c; reflexivity|].
    subst c. unfold is_space.
    rewrite !(@in_range_out _ _ (ch a)) by lia.
    repeat (match goal with |- context [(ch a =? ?n)%N] =>
              replace (ch a =? n)%N with false by (symmetry; apply N.eqb_neq; lia) end).
    reflexivity.
Qed.
Ltac invert_spelling :=
  repeat match goal with
         | H : Forall2 _ (_ :: _) _ |- _ => inversion H; subst; clear H
         | H : Forall2 _ [] _ |- _ => inversion H; subst; clear H
         end.

(** A last line [<text> login: ] adds no login line: a match of the
    whole is a match of what came before. *)
Lemma login_not_after_text (before body : str) :
  ~ In LF body -> (exists x, In x body /\ is_space x = false) ->
  re_search LOGIN_REGEX (before ++ body ++ txt " login: ") = true ->
  re_search LOGIN_REGEX before = true.
Proof.
  intros Hnl (x & Hx & Hxs) Hm. apply login_search_iff in Hm.
  destruct Hm as (pre & sp1 & w & sp2 & sp3 & after & E & Hb & He & H1 & Hw & H2 & H3).
  assert (Hnl' : ~ In LF (body ++ txt " login: ")).
  { intros Hin. apply in_app_or in Hin as [Hin|Hin]; [exact (Hnl Hin)|].
    cbn in Hin. decompose [or] Hin; try discriminate; assumption. }
  destruct He as [-> | (a & ->)].
  - exfalso. rewrite app_nil_r in E.
    (* the colon of the match is the last colon of the text *)
    assert (E1 : (before ++ body ++ txt " login") ++ ch ":" :: [32%N]
                 = (pre ++ sp1 ++ w ++ sp2) ++ ch ":" :: sp3).
    { rewrite <- !app_assoc. exact E. }
    apply trailing_blanks_unique in E1 as (E1 & _ & _);
      [|reflexivity|exact H3|reflexivity|reflexivity].
    assert (Hsp1 : pre ++ sp1 = before ++ body ++ [32%N]).
    { unfold spells_ci in Hw. cbn [list_ascii_of_string] in Hw.
      destruct Hw as [Hw|Hw]; invert_spelling.
      - (* login *)
        match goal with Hn : ci "n" ?c = true |- _ =>
          assert (Hz : is_space c = false)
            by (apply (@ci_letter_not_space "n"); [vm_compute; split; discriminate|exact Hn]) end.
        assert (E2 : (before ++ body ++ txt " logi") ++ 110%N :: []
                     = (pre ++ sp1 ++ [y; y0; y1; y2]) ++ y3 :: sp2).
        { rewrite <- !app_assoc. exact E1. }
        apply trailing_blanks_unique in E2 as (E2 & _ & _);
          [|reflexivity|exact H2|reflexivity|exact Hz].
        assert (E3 : (before ++ body ++ [32%N]) ++ txt "logi" = (pre ++ sp1) ++ [y; y0; y1; y2]).
        { rewrite <- !app_assoc. exact E2. }
        apply app_inj_suffix in E3 as [E3 _]; [|reflexivity]. symmetry. exact E3.
      - (* username: its third letter would be the blank before "login" *)
        exfalso.
        assert (Hz : is_space y6 = false)
          by (apply (@ci_letter_not_space "e"); [vm_compute; split; discriminate|assumption]).
        assert (E2 : (before ++ body ++ txt " logi") ++ 110%N :: []
                     = (pre ++ sp1 ++ [y; y0; y1; y2; y3; y4; y5]) ++ y6 :: sp2).
        { rewrite <- !app_assoc. exact E1. }
        apply trailing_blanks_unique in E2 as (E2 & _ & _);
          [|reflexivity|exact H2|reflexivity|exact Hz].
        assert (E3 : (before ++ body) ++ txt " logi" = (pre ++ sp1 ++ [y; y0]) ++ [y1; y2; y3; y4; y5]).
        { rewrite <- !app_assoc. exact E2. }
        apply app_inj_suffix in E3 as [_ E3]; [|reflexivity].
        injection E3 as <- _ _ _ _.
        match goal with Hn : ci "e" 32%N = true |- _ => vm_compute in Hn; discriminate Hn end. }
    apply app_eq_app in Hsp1 as (l & [[Hpre Hl] | [_ Hl]]).
    + assert (Hxl : In x l).
      { assert (Hin : In x (l ++ sp1)) by (rewrite <- Hl; apply in_or_app; left; exact Hx).
        apply in_app_or in Hin as [Hin|Hin]; [exact Hin|].
        rewrite forallb_forall in H1. rewrite (H1 x Hin) in Hxs. discriminate. }
      destruct Hb as [-> | (b & ->)].
      * symmetry in Hpre. apply app_eq_nil in Hpre as [_ ->]. contradiction.
      * destruct l as [|z l] using rev_ind; [contradiction|].
        rewrite app_assoc in Hpre. apply app_inj_tail in Hpre as [_ <-].
        apply Hnl'. apply in_or_app.
        assert (Hin : In LF (body ++ [32%N])) by (rewrite Hl; apply in_or_app; left; apply in_or_app; right; left; reflexivity).
        apply in_app_or in Hin as [Hin|[Hin|[]]]; [left; exact Hin|discriminate].
    + assert (Hin : In x sp1) by (rewrite Hl; apply in_or_app; right; apply in_or_app; left; exact Hx).
      rewrite forallb_forall in H1. rewrite (H1 x Hin) in Hxs. discriminate.
  - assert (E' : before ++ (body ++ txt " login: ")
                 = (pre ++ sp1 ++ w ++ sp2 ++ ch ":" :: sp3) ++ LF :: a).
    { rewrite E. rewrite <- !app_assoc. cbn [app]. reflexivity. }
    apply app_eq_app in E' as (l & [[Hs Ha] | [_ Ha]]).
    + destruct l as [|z l].
      * exfalso. apply Hnl'. cbn [app] in Ha. rewrite <- Ha. left. reflexivity.
      * cbn [app] in Ha. injection Ha as <- _. apply login_search_iff.
        exists pre, sp1, w, sp2, sp3, (LF :: l).
        split; [rewrite Hs, <- !app_assoc; cbn [app]; reflexivity|].
        split; [exact Hb|]. split; [right; eauto|]. auto.
    + exfalso. apply Hnl'. rewrite Ha. apply in_or_app. right. left. reflexivity.
Qed.

(** X13.  A login banner that names the host is not a login line for
    [ensure_shell]: a last line made of some text that is not blank
    followed by [ login: ] never makes the login pattern match, whatever
    comes before it. *)
Theorem login_after_hostname_not_recognised (before body : str) :
  ~ In LF body -> (exists x, In x body /\ is_space x = false) ->
  re_search LOGIN_REGEX before = false ->
  re_search LOGIN_REGEX (before ++ body ++ txt " login: ") = false.
Proof.
  intros Hnl Hx Hbefore.
  destruct (re_search LOGIN_REGEX (before ++ body ++ txt " login: ")) eqn:Hm; [|reflexivity].
  rewrite (login_not_after_text before body Hnl Hx Hm) in Hbefore. discriminate.
Qed.

Lemma login_after_hostname_not_recognised_witness :
  re_search LOGIN_REGEX ((CR :: LF :: txt "Welcome" ++ [CR; LF])
                         ++ txt "ecb10-135a5m5m" ++ txt " login: ") = false.
Proof.
  apply login_after_hostname_not_recognised.
  - cbn. intros Hin. decompose [or] Hin; try discriminate; assumption.
  - exists (ch "e"). split; [left; reflexivity|reflexivity].
  - vm_compute. reflexivity.
Defined.

(* ------------------------------------------------------------------ *)
(** ** [SerialShell]: [run_cmd], [_drain], [ensure_shell] *)
(* ------------------------------------------------------------------ *)

Lemma set_buffer_same (self : SerialShell.SerialShell) :
  SerialShell.set_buffer self (SerialShell.buffer self) = self.
Proof. destruct self; reflexivity. Qed.

Lemma set_buffer_twice (self : SerialShell.SerialShell) a b :
  SerialShell.set_buffer (SerialShell.set_buffer self a) b = SerialShell.set_buffer self b.
Proof. reflexivity. Qed.

Section ShellTimed.

Context {D : Type} `{Serial D}.

Hypothesis read_blocks : forall d t,
  let '(_, blocked, _) := ser_read d t READ_CHUNK in 0 < blocked <= 100.

Lemma shell_read_open (self : SerialShell.SerialShell) (w : World D) :
  SerialShell.ser self <> None ->
  SerialShell._read_some self w
  = let '(chunk, blocked, d') := ser_read (dev w) (now w) READ_CHUNK in
    Done chunk (mkWorld (now w + blocked) d' (ReadGot chunk :: io w) (lock_held w)).
Proof.
  intros Hopen. unfold SerialShell._read_some. destruct (SerialShell.ser self); [|congruence].
  unfold bind, port_read. destruct (ser_read (dev w) (now w) READ_CHUNK) as [[chunk blocked] d'].
  destruct chunk; reflexivity.
Qed.

Lemma shell_write_open (self : SerialShell.SerialShell) s (w : World D) :
  SerialShell.ser self <> None ->
  SerialShell._write self s w
  = Done tt (mkWorld (now w) (ser_write (dev w) (now w) s) (Wrote s :: io w) (lock_held w)).
Proof.
  intros Hopen. unfold SerialShell._write. destruct (SerialShell.ser self); [reflexivity|congruence].
Qed.

(** One round of the read loop of [run_cmd]. *)
Lemma cmd_loop_round (self : SerialShell.SerialShell) end_ fuel collected (w : World D) :
  SerialShell.ser self <> None ->
  SerialShell.cmd_loop self end_ (S fuel) collected w
  = if now w <? end_ then
      let '(chunk, blocked, d') := ser_read (dev w) (now w) READ_CHUNK in
      let w1 := mkWorld (next_round (now w) chunk blocked) d'
                        (ReadGot chunk :: io w) (lock_held w) in
      let self1 := SerialShell.set_buffer self (SerialShell.buffer self ++ chunk) in
      if negb (is_empty chunk) && re_search PROMPT_REGEX (SerialShell.buffer self ++ chunk)
      then Done (collected ++ chunk, self1) w1
      else SerialShell.cmd_loop self1 end_ fuel (collected ++ chunk) w1
    else Done (collected, self) w.
Proof.
  intros Hopen. cbn [SerialShell.cmd_loop]. unfold bind at 1. unfold time_time.
  destruct (now w <? end_); [|reflexivity].
  unfold bind at 1. rewrite (shell_read_open self w Hopen).
  destruct (ser_read (dev w) (now w) READ_CHUNK) as [[chunk blocked] d'].
  unfold next_round. destruct chunk as [|c chunk]; cbn [is_empty negb andb].
  - rewrite !app_nil_r, set_buffer_same. reflexivity.
  - cbn [SerialShell.buffer SerialShell.set_buffer].
    destruct (re_search PROMPT_REGEX (SerialShell.buffer self ++ c :: chunk)); reflexivity.
Qed.

Lemma cmd_loop_shape end_ : forall fuel (self : SerialShell.SerialShell) collected (w : World D),
  SerialShell.ser self <> None ->
  (Z.to_nat (end_ - now w) < fuel)%nat ->
  exists reads w',
    SerialShell.cmd_loop self end_ fuel collected w
    = Done (collected ++ reads_of reads,
            SerialShell.set_buffer self (SerialShell.buffer self ++ reads_of reads)) w'
    /\ io w' = reads ++ io w /\ Forall is_read reads
    /\ now w <= now w'
    /\ (now w <= end_ -> now w' <= end_ + 119)
    /\ (now w' < end_ ->
        re_search PROMPT_REGEX (SerialShell.buffer self ++ reads_of reads) = true).
Proof.
  induction fuel as [|fuel IH]; intros self collected w Hopen Hfuel; [lia|].
  rewrite (cmd_loop_round self end_ fuel collected w Hopen).
  destruct (now w <? end_) eqn:Ht.
  - apply Z.ltb_lt in Ht. pose proof (read_blocks (dev w) (now w)) as Hb.
    destruct (ser_read (dev w) (now w) READ_CHUNK) as [[chunk blocked] d'].
    assert (Hnext : now w < next_round (now w) chunk blocked <= now w + 120).
    { unfold next_round. destruct (is_empty chunk); lia. }
    cbv zeta.
    destruct (negb (is_empty chunk)
              && re_search PROMPT_REGEX (SerialShell.buffer self ++ chunk)) eqn:Hbreak.
    + apply andb_true_iff in Hbreak as [_ Hp].
      exists [ReadGot chunk],
        (mkWorld (next_round (now w) chunk blocked) d' (ReadGot chunk :: io w) (lock_held w)).
      cbn [now io reads_of app]. split; [reflexivity|].
      split; [reflexivity|]. split; [repeat constructor|].
      split; [lia|]. split; [lia|]. intros _. exact Hp.
    + destruct (IH (SerialShell.set_buffer self (SerialShell.buffer self ++ chunk))
                   (collected ++ chunk)
                   (mkWorld (next_round (now w) chunk blocked) d'
                            (ReadGot chunk :: io w) (lock_held w)))
        as (reads & w' & Hrun & Hio & Hall & Hmono & Hup & Hp);
        [exact Hopen|cbn [now]; lia|].
      cbn [now io SerialShell.buffer SerialShell.set_buffer] in *.
      exists (reads ++ [ReadGot chunk]), w'.
      rewrite reads_of_app. cbn [reads_of app].
      rewrite <- !app_assoc in Hrun. rewrite <- !app_assoc in Hp.
      split; [exact Hrun|].
      split; [rewrite Hio, <- app_assoc; reflexivity|].
      split; [apply Forall_app; split; [exact Hall|repeat constructor]|].
      split; [lia|]. split; [|exact Hp].
      intros _. destruct (Z_le_gt_dec (next_round (now w) chunk blocked) end_) as [Hle|Hgt].
      * auto.
      * destruct fuel as [|fuel']; [cbn [SerialShell.cmd_loop] in Hrun; discriminate|].
        rewrite cmd_loop_round in Hrun by exact Hopen. cbn [now] in Hrun.
        replace (next_round (now w) chunk blocked <? end_) with false in Hrun
          by (symmetry; apply Z.ltb_ge; lia).
        injection Hrun as _ _ <-. cbn [now]. lia.
  - apply Z.ltb_ge in Ht. exists [], w. cbn [reads_of]. rewrite !app_nil_r, set_buffer_same.
    repeat split; auto; lia.
Qed.

(** X14.  [run_cmd] on an open port writes the trimmed command and a
    newline once (also when the command is blank, and without resetting the
    input buffer), and after that only reads; it returns the clean-up of
    exactly the text read, leaves that text in [self.buffer] (whatever the
    buffer held before) and nothing else of the object changed; it comes
    back at most 119 ms after the deadline, and before the deadline only if
    the prompt pattern has matched the text. *)
Theorem run_cmd_keeps_transcript fuel (self : SerialShell.SerialShell) cmd t (w : World D) :
  SerialShell.ser self <> None -> 0 <= t -> (Z.to_nat t < fuel)%nat ->
  exists reads w',
    SerialShell.run_cmd fuel self cmd t w
    = Done (clean_output (strip cmd) (reads_of reads),
            SerialShell.set_buffer self (reads_of reads)) w'
    /\ io w' = reads ++ Wrote (strip cmd ++ [LF]) :: io w
    /\ Forall is_read reads
    /\ now w <= now w' <= now w + t + 119
    /\ (now w' < now w + t -> re_search PROMPT_REGEX (reads_of reads) = true).
Proof.
  intros Hopen Ht Hfuel.
  destruct (@cmd_loop_shape (now w + t) fuel (SerialShell.set_buffer self []) []
              (mkWorld (now w) (ser_write (dev w) (now w) (strip cmd ++ [LF]))
                       (Wrote (strip cmd ++ [LF]) :: io w) (lock_held w)))
    as (reads & w' & Hrun & Hio & Hall & Hmono & Hup & Hp).
  { exact Hopen. }
  { cbn [now]. replace (now w + t - now w) with t by lia. exact Hfuel. }
  destruct self as [[sp|] u pw b]; [|cbn in Hopen; congruence].
  unfold SerialShell.set_buffer in *.
  cbn [now io app SerialShell.buffer SerialShell.ser
       SerialShell.username SerialShell.password] in *.
  exists reads, w'. split.
  - unfold SerialShell.run_cmd. cbn [SerialShell.ser]. unfold bind at 1.
    unfold SerialShell.set_buffer.
    cbn [SerialShell.ser SerialShell.username SerialShell.password].
    unfold SerialShell._write. cbn [SerialShell.ser]. unfold port_write.
    unfold bind at 1. unfold time_time. cbn [now].
    unfold bind at 1. rewrite Hrun. reflexivity.
  - repeat split; auto; lia.
Qed.

End ShellTimed.

Lemma run_cmd_keeps_transcript_witness :
  exists reads (w' : World Paced),
    SerialShell.run_cmd 600
      (SerialShell.mkShell (Some (mkPort (txt "COM3") 115200)) (txt "root") []
                           (txt "stale text"))
      (txt " uname ") 500
      (world0 (paced [txt "uname"; [CR; LF]; txt "Linux"; [CR; LF]; txt "root@board:~# "]))
    = Done (clean_output (strip (txt " uname ")) (reads_of reads),
            SerialShell.set_buffer
              (SerialShell.mkShell (Some (mkPort (txt "COM3") 115200)) (txt "root") []
                                   (txt "stale text"))
              (reads_of reads)) w'
    /\ io w' = reads ++ Wrote (strip (txt " uname ") ++ [LF]) :: io (world0 (paced
                 [txt "uname"; [CR; LF]; txt "Linux"; [CR; LF]; txt "root@board:~# "]))
    /\ Forall is_read reads
    /\ now (world0 (paced [txt "uname"; [CR; LF]; txt "Linux"; [CR; LF];
                           txt "root@board:~# "])) <= now w'
       <= now (world0 (paced [txt "uname"; [CR; LF]; txt "Linux"; [CR; LF];
                              txt "root@board:~# "])) + 500 + 119
    /\ (now w' < now (world0 (paced [txt "uname"; [CR; LF]; txt "Linux"; [CR; LF];
                                     txt "root@board:~# "])) + 500 ->
        re_search PROMPT_REGEX (reads_of reads) = true).
Proof.
  apply (@run_cmd_keeps_transcript Paced _ paced_read_blocks); [discriminate|lia|vm_compute; lia].
Defined.
(* ------------------------------------------------------------------ *)
(** ** [SerialShell.ensure_shell] on any port *)
(* ------------------------------------------------------------------ *)

Lemma shell_advanced_refl {D} (P : io_event -> Prop) self (w : World D) :
  shell_advanced P 0 0 self w self w.
Proof.
  exists []. cbn [reads_of app]. rewrite app_nil_r, set_buffer_same.
  split; [reflexivity|]. split; [constructor|]. split; [reflexivity|lia].
Qed.

Lemma shell_advanced_trans {D} (P : io_event -> Prop) a b c d self self1 self2
      (w w1 w2 : World D) :
  shell_advanced P a b self w self1 w1 -> shell_advanced P c d self1 w1 self2 w2 ->
  shell_advanced P (a + c) (b + d) self w self2 w2.
Proof.
  intros (e1 & Hio1 & Hall1 & Hs1 & Ht1) (e2 & Hio2 & Hall2 & Hs2 & Ht2).
  exists (e2 ++ e1). split; [rewrite Hio2, Hio1, app_assoc; reflexivity|].
  split; [apply Forall_app; auto|]. split; [|lia].
  rewrite Hs2, Hs1, reads_of_app. cbn [SerialShell.buffer SerialShell.set_buffer].
  rewrite <- app_assoc. reflexivity.
Qed.

Lemma shell_advanced_weaken {D} (P : io_event -> Prop) a b a' b' self self'
      (w w' : World D) :
  shell_advanced P a b self w self' w' -> a' <= a -> b <= b' ->
  shell_advanced P a' b' self w self' w'.
Proof.
  intros (e & Hio & Hall & Hs & Ht) Ha Hb. exists e. repeat split; auto; lia.
Qed.

Section ShellBoot.

Context {D : Type} `{Serial D}.

Hypothesis read_blocks : forall d t,
  let '(_, blocked, _) := ser_read d t READ_CHUNK in 0 < blocked <= 100.

Variables user pw : str.

Let allowed : io_event -> Prop := bootstrap_event user pw.

(** An open session of the user. *)
Let session (self : SerialShell.SerialShell) : Prop :=
  SerialShell.ser self <> None
  /\ SerialShell.username self = user /\ SerialShell.password self = pw.

Lemma session_advanced lo hi self self' (w w' : World D) :
  session self -> shell_advanced allowed lo hi self w self' w' -> session self'.
Proof. intros Hs (e & _ & _ & -> & _). exact Hs. Qed.

(** One round of the loop of [SerialShell._drain]. *)
Lemma boot_drain_loop_round (self : SerialShell.SerialShell) end_ fuel out (w : World D) :
  SerialShell.ser self <> None ->
  SerialShellBoot.drain_loop self end_ (S fuel) out w
  = if now w <? end_ then
      let '(chunk, blocked, d') := ser_read (dev w) (now w) READ_CHUNK in
      SerialShellBoot.drain_loop
        (SerialShell.set_buffer self (SerialShell.buffer self ++ chunk)) end_ fuel
        (out ++ chunk)
        (mkWorld (next_round (now w) chunk blocked) d'
                 (ReadGot chunk :: io w) (lock_held w))
    else Done (out, self) w.
Proof.
  intros Hopen. cbn [SerialShellBoot.drain_loop]. unfold bind at 1. unfold time_time.
  destruct (now w <? end_); [|reflexivity].
  unfold bind at 1. rewrite (shell_read_open self w Hopen).
  destruct (ser_read (dev w) (now w) READ_CHUNK) as [[chunk blocked] d'].
  unfold next_round. destruct chunk as [|c chunk]; cbn [is_empty negb].
  - rewrite !app_nil_r, set_buffer_same. reflexivity.
  - reflexivity.
Qed.

Lemma boot_drain_loop_shape end_ :
  forall fuel (self : SerialShell.SerialShell) out (w : World D),
  SerialShell.ser self <> None ->
  (Z.to_nat (end_ - now w) < fuel)%nat ->
  exists reads w',
    SerialShellBoot.drain_loop self end_ fuel out w
    = Done (out ++ reads_of reads,
            SerialShell.set_buffer self (SerialShell.buffer self ++ reads_of reads)) w'
    /\ io w' = reads ++ io w /\ Forall is_read reads
    /\ now w <= now w' /\ end_ <= now w'
    /\ (now w < end_ -> now w' <= end_ + 119).
Proof.
  induction fuel as [|fuel IH]; intros self out w Hopen Hfuel; [lia|].
  rewrite (boot_drain_loop_round self end_ fuel out w Hopen).
  destruct (now w <? end_) eqn:Ht.
  - apply Z.ltb_lt in Ht. pose proof (read_blocks (dev w) (now w)) as Hb.
    destruct (ser_read (dev w) (now w) READ_CHUNK) as [[chunk blocked] d'].
    assert (Hnext : now w < next_round (now w) chunk blocked <= now w + 120).
    { unfold next_round. destruct (is_empty chunk); lia. }
    destruct (IH (SerialShell.set_buffer self (SerialShell.buffer self ++ chunk))
                 (out ++ chunk)
                 (mkWorld (next_round (now w) chunk blocked) d'
                          (ReadGot chunk :: io w) (lock_held w)))
      as (reads & w' & Hrun & Hio & Hall & Hmono & Hend & Hup);
      [exact Hopen|cbn [now]; lia|].
    cbn [now io SerialShell.buffer SerialShell.set_buffer] in *.
    exists (reads ++ [ReadGot chunk]), w'.
    rewrite reads_of_app. cbn [reads_of app].
    rewrite <- !app_assoc in Hrun.
    split; [exact Hrun|].
    split; [rewrite Hio, <- app_assoc; reflexivity|].
    split; [apply Forall_app; split; [exact Hall|repeat constructor]|].
    split; [lia|]. split; [exact Hend|].
    intros _. destruct (Z_lt_le_dec (next_round (now w) chunk blocked) end_) as [Hlt|Hge].
    + auto.
    + destruct fuel as [|fuel']; [cbn [SerialShellBoot.drain_loop] in Hrun; discriminate|].
      rewrite boot_drain_loop_round in Hrun by exact Hopen. cbn [now] in Hrun.
      replace (next_round (now w) chunk blocked <? end_) with false in Hrun
        by (symmetry; apply Z.ltb_ge; exact Hge).
      injection Hrun as _ _ <-. cbn [now]. lia.
  - apply Z.ltb_ge in Ht. exists [], w. cbn [reads_of]. rewrite !app_nil_r, set_buffer_same.
    repeat split; auto; lia.
Qed.

Lemma boot_drain_advances fuel self duration (w : World D) :
  SerialShell.ser self <> None ->
  0 <= duration -> (Z.to_nat duration < fuel)%nat ->
  returns (SerialShellBoot._drain fuel self duration) w
          (fun r w' => shell_advanced allowed duration (duration + 119) self w (snd r) w'
                       /\ writes_of (io w') = writes_of (io w)).
Proof.
  intros Hopen Hd Hfuel. unfold SerialShellBoot._drain. apply returns_bind_time.
  destruct (@boot_drain_loop_shape (now w + duration) fuel self [] w Hopen)
    as (reads & w' & Hrun & Hio & Hall & Hmono & Hend & Hup).
  { replace (now w + duration - now w) with duration by lia. exact Hfuel. }
  eexists _, w'. split; [exact Hrun|]. cbn [snd]. split.
  - exists reads. split; [exact Hio|]. split.
    + eapply Forall_impl; [|exact Hall]. intros [s| |]; cbn; tauto.
    + split; [reflexivity|]. split; [lia|].
      destruct (Z.eq_dec duration 0) as [->|Hne].
      * destruct fuel as [|fuel']; [lia|].
        rewrite boot_drain_loop_round in Hrun by exact Hopen.
        replace (now w <? now w + 0) with false in Hrun by (symmetry; apply Z.ltb_ge; lia).
        injection Hrun as _ _ <-. lia.
      * assert (now w' <= now w + duration + 119) by (apply Hup; lia). lia.
  - rewrite Hio, writes_of_app, (writes_of_reads Hall), app_nil_r. reflexivity.
Qed.

Lemma boot_returns_write {B} self s (f : unit -> M D B) (w : World D)
      (Q : B -> World D -> Prop) :
  SerialShell.ser self <> None ->
  returns (f tt)
          (mkWorld (now w) (ser_write (dev w) (now w) s) (Wrote s :: io w) (lock_held w)) Q ->
  returns (bind (SerialShell._write self s) f) w Q.
Proof.
  intros Hopen Hf. apply returns_bind. eexists tt, _.
  split; [apply shell_write_open; exact Hopen|exact Hf].
Qed.

Lemma boot_wrote_advances self s (w : World D) :
  allowed (Wrote s) ->
  shell_advanced allowed 0 0 self w self
    (mkWorld (now w) (ser_write (dev w) (now w) s) (Wrote s :: io w) (lock_held w)).
Proof.
  intros Hs. exists [Wrote s]. cbn [reads_of app now io]. rewrite app_nil_r, set_buffer_same.
  split; [reflexivity|]. split; [apply Forall_cons; [exact Hs|apply Forall_nil]|].
  split; [reflexivity|lia].
Qed.

Lemma boot_slept_advances self ms (w : World D) :
  shell_advanced allowed ms ms self w self
    (mkWorld (now w + ms) (dev w) (io w) (lock_held w)).
Proof.
  exists []. cbn [reads_of app now io]. rewrite app_nil_r, set_buffer_same.
  split; [reflexivity|]. split; [constructor|]. split; [reflexivity|lia].
Qed.

(** A line is written and the answer is drained. *)
Lemma boot_send_and_drain fuel self s duration hi (w : World D) :
  SerialShell.ser self <> None ->
  allowed (Wrote s) -> 0 <= duration -> (Z.to_nat duration < fuel)%nat ->
  duration + 119 <= hi ->
  returns (SerialShell._write self s ;;;
           r <- SerialShellBoot._drain fuel self duration ;; ret (snd r)) w
          (fun self' w' => shell_advanced allowed 0 hi self w self' w').
Proof.
  intros Hopen Hs Hd Hfuel Hhi. apply boot_returns_write; [exact Hopen|].
  apply returns_bind. eapply returns_weaken; [apply boot_drain_advances; assumption|].
  cbn beta. intros r w1 [Hadv _]. apply returns_ret.
  apply (shell_advanced_trans (boot_wrote_advances self w Hs)) in Hadv.
  apply (shell_advanced_weaken Hadv); lia.
Qed.

Lemma boot_when_advances cond self body hi (w : World D) :
  0 <= hi ->
  (cond = true -> returns body w (fun self' w' => shell_advanced allowed 0 hi self w self' w')) ->
  returns (SerialShellBoot.when_ cond self body) w
          (fun self' w' => shell_advanced allowed 0 hi self w self' w').
Proof.
  intros Hhi Hbody. unfold SerialShellBoot.when_. destruct cond; [auto|].
  apply returns_ret. apply (shell_advanced_weaken (shell_advanced_refl allowed self w)); lia.
Qed.

(** A newline, a pause, (a newline,) a drain. *)
Lemma boot_nudge fuel self duration {B} (k : str * SerialShell.SerialShell -> M D B)
      (w : World D) (Q : B -> World D -> Prop) :
  SerialShell.ser self <> None -> 0 <= duration -> (Z.to_nat duration < fuel)%nat ->
  (forall r w1, shell_advanced allowed (100 + duration) (219 + duration) self w (snd r) w1 ->
                writes_of (io w1) = writes_of (io w) ++ [[LF]] ->
                returns (k r) w1 Q) ->
  returns (SerialShell._write self [LF] ;;; time_sleep 100 ;;;
           r <- SerialShellBoot._drain fuel self duration ;; k r) w Q.
Proof.
  intros Hopen Hd Hfuel Hk. apply boot_returns_write; [exact Hopen|]. apply returns_bind_sleep.
  apply returns_bind. eapply returns_weaken; [apply (@boot_drain_advances fuel self duration); assumption|].
  cbn beta. intros r w1 [Hadv Hw]. apply Hk.
  - assert (Hnl : allowed (Wrote [LF])) by (left; reflexivity).
    pose proof (shell_advanced_trans
                  (shell_advanced_trans (boot_wrote_advances self w Hnl)
                                        (boot_slept_advances self 100 _)) Hadv) as Hall.
    apply (shell_advanced_weaken Hall); lia.
  - exact Hw.
Qed.

(** One wake-up attempt: two newlines 100 ms apart, then a drain of
    400 ms. *)
Lemma boot_wake_round fuel self {B} (k : str * SerialShell.SerialShell -> M D B)
      (w : World D) (Q : B -> World D -> Prop) :
  SerialShell.ser self <> None -> (400 < fuel)%nat ->
  (forall r w1, shell_advanced allowed 500 619 self w (snd r) w1 ->
                writes_of (io w1) = writes_of (io w) ++ [[LF]; [LF]] ->
                returns (k r) w1 Q) ->
  returns (SerialShell._write self [LF] ;;; time_sleep 100 ;;;
           SerialShell._write self [LF] ;;;
           r <- SerialShellBoot._drain fuel self 400 ;; k r) w Q.
Proof.
  intros Hopen Hfuel Hk. apply boot_returns_write; [exact Hopen|]. apply returns_bind_sleep.
  apply boot_returns_write; [exact Hopen|].
  apply returns_bind. eapply returns_weaken; [apply (@boot_drain_advances fuel self 400); [exact Hopen|lia|lia]|].
  cbn beta. intros r w1 [Hadv Hw]. apply Hk.
  - assert (Hnl : allowed (Wrote [LF])) by (left; reflexivity).
    pose proof (shell_advanced_trans
                  (shell_advanced_trans
                     (shell_advanced_trans (boot_wrote_advances self w Hnl)
                                           (boot_slept_advances self 100 _))
                     (boot_wrote_advances self _ Hnl)) Hadv) as Hall.
    apply (shell_advanced_weaken Hall); lia.
  - rewrite Hw. cbn [writes_of io]. rewrite <- app_assoc. reflexivity.
Qed.

Lemma boot_wake_shape fuel self (w : World D) :
  SerialShell.ser self <> None -> (400 < fuel)%nat ->
  returns (SerialShellBoot.wake fuel self 3) w
          (fun self' w' =>
             shell_advanced allowed 1500 1857 self w self' w'
             /\ writes_of (io w') = writes_of (io w) ++ [[LF]; [LF]; [LF]; [LF]; [LF]; [LF]]).
Proof.
  intros Hopen Hfuel. cbn [SerialShellBoot.wake].
  apply boot_wake_round; [exact Hopen|exact Hfuel|]. intros r1 w1 Hadv1 Hw1.
  assert (Ho1 : SerialShell.ser (snd r1) <> None).
  { destruct Hadv1 as (e & _ & _ & -> & _). exact Hopen. }
  apply boot_wake_round; [exact Ho1|exact Hfuel|]. intros r2 w2 Hadv2 Hw2.
  assert (Ho2 : SerialShell.ser (snd r2) <> None).
  { destruct Hadv2 as (e & _ & _ & -> & _). exact Ho1. }
  apply boot_wake_round; [exact Ho2|exact Hfuel|]. intros r3 w3 Hadv3 Hw3.
  apply returns_ret. split.
  - pose proof (shell_advanced_trans (shell_advanced_trans Hadv1 Hadv2) Hadv3) as Hall.
    apply (shell_advanced_weaken Hall); lia.
  - rewrite Hw3, Hw2, Hw1, <- !app_assoc. reflexivity.
Qed.

Lemma boot_poll_shape fuel start T : (1000 < fuel)%nat ->
  forall n self (w : World D),
    session self ->
    (Z.to_nat (start + T - now w) < n)%nat ->
    returns (SerialShellBoot.poll_loop fuel start T n self) w
            (fun r w' =>
               shell_advanced allowed 0 (Z.max 0 (start + T + 3675 - now w)) self w (snd r) w'
               /\ ((fst r = (true, txt "Shell prompt detected.")
                    /\ re_search PROMPT_REGEX (SerialShell.buffer (snd r)) = true)
                   \/ (fst r = (false, txt "Could not detect prompt/login within timeout. Check COM/baud/UART wiring.")
                       /\ start + T <= now w'))).
Proof.
  intros Hfuel. induction n as [|n IH]; intros self w Hs Hn; [lia|].
  cbn [SerialShellBoot.poll_loop]. apply returns_bind_time.
  destruct (now w - start <? T) eqn:Ht.
  - apply Z.ltb_lt in Ht. apply boot_nudge; [apply Hs|lia|lia|].
    intros r1 w1 Hadv1 _. cbv zeta.
    pose proof (session_advanced Hs Hadv1) as Hs1.
    destruct (re_search PROMPT_REGEX (SerialShell.buffer (snd r1))) eqn:Hp.
    + apply returns_ret. cbn [fst snd]. split; [|left; split; [reflexivity|exact Hp]].
      apply (shell_advanced_weaken Hadv1); lia.
    + destruct Hs1 as (Ho1 & Hu1 & Hp1).
      apply returns_bind. eapply returns_weaken.
      { apply (@boot_when_advances _ _ _ 919); [lia|]. intros _.
        apply (@boot_send_and_drain fuel _ _ 800); [exact Ho1| |lia|lia|lia].
        right; left. rewrite Hu1. reflexivity. }
      cbn beta. intros s2 w2 Hadv2.
      pose proof (session_advanced (conj Ho1 (conj Hu1 Hp1)) Hadv2) as (Ho2 & Hu2 & Hp2).
      apply returns_bind. eapply returns_weaken.
      { apply (@boot_when_advances _ _ _ 1119); [lia|]. intros _.
        apply (@boot_send_and_drain fuel _ _ 1000); [exact Ho2| |lia|lia|lia].
        right; right. rewrite Hp2. reflexivity. }
      cbn beta. intros s3 w3 Hadv3.
      pose proof (session_advanced (conj Ho2 (conj Hu2 Hp2)) Hadv3) as (Ho3 & Hu3 & Hp3).
      apply returns_bind. eapply returns_weaken.
      { apply (@boot_when_advances _ _ _ 919); [lia|]. intros _.
        apply (@boot_send_and_drain fuel _ _ 800); [exact Ho3| |lia|lia|lia].
        left. reflexivity. }
      cbn beta. intros s4 w4 Hadv4.
      pose proof (session_advanced (conj Ho3 (conj Hu3 Hp3)) Hadv4) as Hs4.
      pose proof (shell_advanced_trans
                    (shell_advanced_trans (shell_advanced_trans Hadv1 Hadv2) Hadv3) Hadv4)
        as Hround.
      assert (Ht4 : now w + 600 <= now w4 <= now w + 3676)
        by (destruct Hround as (e & _ & _ & _ & Hb); lia).
      eapply returns_weaken; [apply IH; [exact Hs4|lia]|].
      cbn beta. intros r w' [Hadv Hr]. split; [|exact Hr].
      pose proof (shell_advanced_trans Hround Hadv) as Hall.
      destruct Hadv as (_ & _ & _ & _ & Hb).
      destruct Hall as (e & Hio & Hev & Hself & _).
      exists e. repeat split; auto; lia.
  - apply Z.ltb_ge in Ht. apply returns_ret. cbn [fst snd]. split.
    + apply (shell_advanced_weaken (shell_advanced_refl allowed self w)); lia.
    + right. split; [reflexivity|lia].
Qed.

Lemma boot_ensure_shell_shape fuel self overall_timeout (w : World D) :
  session self ->
  (Z.to_nat overall_timeout + 1000 < fuel)%nat ->
  returns (SerialShellBoot.ensure_shell fuel self overall_timeout) w
          (fun r w' =>
             (exists events,
                 io w' = events ++ io w /\ Forall allowed events
                 /\ snd r = SerialShell.set_buffer self (reads_of events))
             /\ now w + 1500 <= now w' <= now w + Z.max 1857 (overall_timeout + 3675)
             /\ ((fst r = (true, txt "Shell prompt detected.")
                  /\ re_search PROMPT_REGEX (SerialShell.buffer (snd r)) = true)
                 \/ (fst r = (false, txt "Could not detect prompt/login within timeout. Check COM/baud/UART wiring.")
                     /\ now w + overall_timeout <= now w'))).
Proof.
  intros Hs Hfuel. unfold SerialShellBoot.ensure_shell. apply returns_bind_time.
  cbv zeta. apply returns_bind.
  assert (Hs0 : session (SerialShell.set_buffer self [])) by exact Hs.
  eapply returns_weaken; [apply boot_wake_shape; [apply Hs0|lia]|].
  cbn beta. intros self3 w3 [Hwake _].
  pose proof (session_advanced Hs0 Hwake) as Hs3.
  assert (Htw : now w + 1500 <= now w3 <= now w + 1857)
    by (destruct Hwake as (e & _ & _ & _ & Hb); lia).
  eapply returns_weaken; [apply (@boot_poll_shape fuel (now w) overall_timeout); [lia|exact Hs3|lia]|].
  cbn beta. intros r w' [Hadv Hr].
  pose proof (shell_advanced_trans Hwake Hadv) as Hall.
  destruct Hadv as (_ & _ & _ & _ & Hb).
  destruct Hall as (e & Hio & Hev & Hself & _).
  split; [exists e; repeat split; auto|]. split; [lia|].
  destruct Hr as [Hr | [Hr Hlate]]; [left; exact Hr|right]. split; [exact Hr|lia].
Qed.

End ShellBoot.

(** X15.  [SerialShell.ensure_shell] on an open port always comes back,
    whatever the board sends: with fuel for the timeout it returns "Shell
    prompt detected." or the could-not-detect message.  Apart from reading
    it only ever writes a bare newline, the user name line or the password
    line; [self.buffer] ends up holding exactly the text read during the
    call, and on success the prompt pattern matches it.  The call lasts at
    least the three wake-up attempts (1.5 s) and it gives up only once the
    timeout, counted from the start of the call, has run out. *)
Theorem shell_ensure_shell_contract {D} `{Serial D} fuel
        (self : SerialShell.SerialShell) overall_timeout (w : World D) :
  (forall d t, let '(_, blocked, _) := ser_read d t READ_CHUNK in 0 < blocked <= 100) ->
  SerialShell.ser self <> None ->
  (Z.to_nat overall_timeout + 1000 < fuel)%nat ->
  exists r self' events w',
    SerialShellBoot.ensure_shell fuel self overall_timeout w = Done (r, self') w'
    /\ io w' = events ++ io w
    /\ Forall (bootstrap_event (SerialShell.username self) (SerialShell.password self)) events
    /\ self' = SerialShell.set_buffer self (reads_of events)
    /\ now w + 1500 <= now w' <= now w + Z.max 1857 (overall_timeout + 3675)
    /\ ((r = (true, txt "Shell prompt detected.")
         /\ re_search PROMPT_REGEX (reads_of events) = true)
        \/ (r = (false, txt "Could not detect prompt/login within timeout. Check COM/baud/UART wiring.")
            /\ now w + overall_timeout <= now w')).
Proof.
  intros read_blocks Ho Hfuel.
  destruct (@boot_ensure_shell_shape D _ read_blocks (SerialShell.username self)
              (SerialShell.password self) fuel self overall_timeout w
              (conj Ho (conj eq_refl eq_refl)) Hfuel)
    as ([r self'] & w' & Hrun & (events & Hio & Hall & Hself) & Hb & Hr).
  cbn [fst snd] in *. exists r, self', events, w'.
  split; [exact Hrun|]. split; [exact Hio|]. split; [exact Hall|].
  split; [exact Hself|]. split; [exact Hb|].
  rewrite Hself in Hr. exact Hr.
Qed.

(** X16.  The wake-up phase of [SerialShell.ensure_shell] counts against
    its timeout: with [overall_timeout] of 1.5 s or less the polling loop
    is never entered, and the call reports failure after its six wake-up
    newlines, whatever the port has delivered meanwhile (a prompt
    included). *)
Theorem shell_ensure_shell_short_timeout {D} `{Serial D} fuel
        (self : SerialShell.SerialShell) overall_timeout (w : World D) :
  (forall d t, let '(_, blocked, _) := ser_read d t READ_CHUNK in 0 < blocked <= 100) ->
  SerialShell.ser self <> None ->
  overall_timeout <= 1500 -> (400 < fuel)%nat ->
  exists self' w',
    SerialShellBoot.ensure_shell fuel self overall_timeout w
    = Done ((false, txt "Could not detect prompt/login within timeout. Check COM/baud/UART wiring."),
            self') w'
    /\ writes_of (io w') = writes_of (io w) ++ [[LF]; [LF]; [LF]; [LF]; [LF]; [LF]]
    /\ now w + 1500 <= now w' <= now w + 1857.
Proof.
  intros read_blocks Ho HT Hfuel.
  assert (Hret : returns (SerialShellBoot.ensure_shell fuel self overall_timeout) w
            (fun r w' =>
               fst r = (false, txt "Could not detect prompt/login within timeout. Check COM/baud/UART wiring.")
               /\ writes_of (io w') = writes_of (io w) ++ [[LF]; [LF]; [LF]; [LF]; [LF]; [LF]]
               /\ now w + 1500 <= now w' <= now w + 1857)).
  { unfold SerialShellBoot.ensure_shell. apply returns_bind_time. cbv zeta.
    apply returns_bind.
    eapply returns_weaken;
      [apply (@boot_wake_shape D _ read_blocks (SerialShell.username self)
                (SerialShell.password self) fuel (SerialShell.set_buffer self []));
       [exact Ho|exact Hfuel]|].
    cbn beta. intros self3 w3 [Hwake Hw].
    assert (Htw : now w + 1500 <= now w3 <= now w + 1857)
      by (destruct Hwake as (e & _ & _ & _ & Hb); lia).
    destruct fuel as [|n]; [lia|]. cbn [SerialShellBoot.poll_loop]. apply returns_bind_time.
    replace (now w3 - now w <? overall_timeout) with false
      by (symmetry; apply Z.ltb_ge; lia).
    apply returns_ret. cbn [fst]. split; [reflexivity|]. split; [exact Hw|exact Htw]. }
  destruct Hret as ([r self'] & w' & Hrun & Hr & Hw & Hb). cbn [fst] in Hr. subst r.
  exists self', w'. auto.
Qed.

(** X17.  A [SerialShell] whose port was never opened does not report
    the failure as a result, as [ShellExecutor] does: [ensure_shell] and
    [run_cmd] both raise [RuntimeError("Serial not open")] at their first
    step, before any time has passed or anything has reached a port. *)
Theorem shell_not_open_raises {D} `{Serial D} fuel u p b cmd t overall_timeout (w : World D) :
  SerialShellBoot.ensure_shell fuel (SerialShell.mkShell None u p b) overall_timeout w
  = Raised (RuntimeError (txt "Serial not open")) w
  /\ SerialShell.run_cmd fuel (SerialShell.mkShell None u p b) cmd t w
     = Raised (RuntimeError (txt "Serial not open")) w.
Proof. split; reflexivity. Qed.

Lemma shell_ensure_shell_contract_witness :
  exists r self' events (w' : World Paced),
    SerialShellBoot.ensure_shell 3000
      (SerialShell.mkShell (Some (mkPort (txt "COM3") 115200)) (txt "root") (txt "secret") [])
      1600 (world0 (paced [txt "login: "])) = Done (r, self') w'
    /\ io w' = events ++ io (world0 (paced [txt "login: "]))
    /\ Forall (bootstrap_event
                 (SerialShell.username
                    (SerialShell.mkShell (Some (mkPort (txt "COM3") 115200)) (txt "root")
                                         (txt "secret") []))
                 (SerialShell.password
                    (SerialShell.mkShell (Some (mkPort (txt "COM3") 115200)) (txt "root")
                                         (txt "secret") []))) events
    /\ self' = SerialShell.set_buffer
                 (SerialShell.mkShell (Some (mkPort (txt "COM3") 115200)) (txt "root")
                                      (txt "secret") [])
                 (reads_of events)
    /\ now (world0 (paced [txt "login: "])) + 1500 <= now w'
       <= now (world0 (paced [txt "login: "])) + Z.max 1857 (1600 + 3675)
    /\ ((r = (true, txt "Shell prompt detected.")
         /\ re_search PROMPT_REGEX (reads_of events) = true)
        \/ (r = (false, txt "Could not detect prompt/login within timeout. Check COM/baud/UART wiring.")
            /\ now (world0 (paced [txt "login: "])) + 1600 <= now w')).
Proof.
  apply (@shell_ensure_shell_contract Paced _);
    [exact paced_read_blocks|discriminate|vm_compute; lia].
Defined.

Lemma shell_ensure_shell_short_timeout_witness :
  exists self' (w' : World Paced),
    SerialShellBoot.ensure_shell 500
      (SerialShell.mkShell (Some (mkPort (txt "COM3") 115200)) (txt "root") [] [])
      1500 (world0 (paced [txt "root@board:~# "]))
    = Done ((false, txt "Could not detect prompt/login within timeout. Check COM/baud/UART wiring."),
            self') w'
    /\ writes_of (io w')
       = writes_of (io (world0 (paced [txt "root@board:~# "])))
         ++ [[LF]; [LF]; [LF]; [LF]; [LF]; [LF]]
    /\ now (world0 (paced [txt "root@board:~# "])) + 1500 <= now w'
       <= now (world0 (paced [txt "root@board:~# "])) + 1857.
Proof.
  apply (@shell_ensure_shell_short_timeout Paced _); [exact paced_read_blocks|discriminate|lia|lia].
Defined.

(* ------------------------------------------------------------------ *)
(** ** [parse_lsusb] *)
(* ------------------------------------------------------------------ *)

Lemma splitlines_chars : forall n (s : str), (List.length s <= n)%nat ->
  forall (l : str) c, In l (splitlines s) -> In c l -> In c s /\ is_linebreak c = false.
Proof.
  induction n as [|n IH]; intros s Hn l c Hl Hc.
  - destruct s; [contradiction|cbn in Hn; lia].
  - destruct s as [|c0 s']; [contradiction|]. cbn [List.length] in Hn.
    cbn [splitlines] in Hl. destruct (is_linebreak c0) eqn:Hc0.
    + destruct Hl as [<-|Hl]; [contradiction|].
      destruct s' as [|d s'']; [contradiction|]. cbn [List.length] in Hn.
      destruct ((c0 =? CR) && (d =? LF))%N.
      * destruct (IH s'' ltac:(lia) l c Hl Hc) as [Hin Hlb]. split; [right; right; exact Hin|exact Hlb].
      * destruct (IH (d :: s'') ltac:(cbn [List.length]; lia) l c Hl Hc) as [Hin Hlb].
        split; [right; exact Hin|exact Hlb].
    + destruct (splitlines s') as [|l0 ls] eqn:E.
      * destruct Hl as [<-|[]]. destruct Hc as [<-|[]]. split; [left; reflexivity|exact Hc0].
      * destruct Hl as [<-|Hl].
        -- destruct Hc as [<-|Hc]; [split; [left; reflexivity|exact Hc0]|].
           destruct (IH s' ltac:(lia) l0 c) as [Hin Hlb]; [rewrite E; left; reflexivity|exact Hc|].
           split; [right; exact Hin|exact Hlb].
        -- destruct (IH s' ltac:(lia) l c) as [Hin Hlb]; [rewrite E; right; exact Hl|exact Hc|].
           split; [right; exact Hin|exact Hlb].
Qed.

Lemma splitlines_covers : forall n (s : str), (List.length s <= n)%nat ->
  forall c, In c s -> is_linebreak c = false ->
  exists l : str, In l (splitlines s) /\ In c l.
Proof.
  induction n as [|n IH]; intros s Hn c Hc Hlb.
  - destruct s; [contradiction|cbn in Hn; lia].
  - destruct s as [|c0 s']; [contradiction|]. cbn [List.length] in Hn.
    cbn [splitlines]. destruct (is_linebreak c0) eqn:Hc0.
    + destruct Hc as [->|Hc]; [congruence|].
      destruct s' as [|d s'']; [contradiction|]. cbn [List.length] in Hn.
      destruct ((c0 =? CR) && (d =? LF))%N eqn:Hcrlf.
      * destruct Hc as [->|Hc].
        { apply andb_true_iff in Hcrlf as [_ Hd]. apply N.eqb_eq in Hd. subst c.
          discriminate Hlb. }
        destruct (IH s'' ltac:(lia) c Hc Hlb) as (l & Hl & Hin). exists l. split; [right; exact Hl|exact Hin].
      * destruct (IH (d :: s'') ltac:(cbn [List.length]; lia) c Hc Hlb) as (l & Hl & Hin).
        exists l. split; [right; exact Hl|exact Hin].
    + destruct Hc as [->|Hc].
      * destruct (splitlines s') as [|l0 ls]; eexists; (split; [left; reflexivity|left; reflexivity]).
      * destruct (IH s' ltac:(lia) c Hc Hlb) as (l & Hl & Hin).
        destruct (splitlines s') as [|l0 ls]; [contradiction|].
        destruct Hl as [<-|Hl].
        -- exists (c0 :: l0). split; [left; reflexivity|right; exact Hin].
        -- exists l. split; [right; exact Hl|exact Hin].
Qed.

Lemma splitlines_line (l rest : str) :
  forallb (fun c => negb (is_linebreak c)) l = true ->
  splitlines (l ++ LF :: rest) = l :: splitlines rest.
Proof.
  induction l as [|c l IH]; intros Hl.
  - cbn [app splitlines]. change (is_linebreak LF) with true. cbv iota.
    destruct rest as [|d s'']; reflexivity.
  - cbn [forallb] in Hl. apply andb_true_iff in Hl as [Hc Hl]. apply negb_true_iff in Hc.
    cbn [app splitlines]. rewrite Hc, (IH Hl). reflexivity.
Qed.

Lemma splitlines_solid (l : str) :
  l <> [] -> forallb (fun c => negb (is_linebreak c)) l = true -> splitlines l = [l].
Proof.
  induction l as [|c l IH]; intros Hne Hl; [congruence|].
  cbn [forallb] in Hl. apply andb_true_iff in Hl as [Hc Hl]. apply negb_true_iff in Hc.
  cbn [splitlines]. rewrite Hc. destruct l as [|c' l'].
  - reflexivity.
  - rewrite IH; [reflexivity|discriminate|exact Hl].
Qed.

Lemma splitlines_join (ls : list str) :
  Forall (fun l : str => l <> [] /\ forallb (fun c => negb (is_linebreak c)) l = true) ls ->
  splitlines (join [LF] ls) = ls.
Proof.
  induction ls as [|l rest IH]; intros Hall; [reflexivity|].
  inversion Hall as [|? ? [Hne Hl] Hrest]; subst. cbn [join].
  destruct rest as [|r rs].
  - apply splitlines_solid; assumption.
  - cbn [app]. rewrite (splitlines_line _ _ Hl), (IH Hrest). reflexivity.
Qed.

Lemma lstrip_keeps (s : str) c : In c s -> is_space c = false -> In c (lstrip s).
Proof.
  induction s as [|x s IH]; intros Hin Hc; [contradiction|].
  cbn [lstrip]. destruct (is_space x) eqn:Hx; [|exact Hin].
  destruct Hin as [->|Hin]; [congruence|]. apply IH; assumption.
Qed.

Lemma strip_keeps (s : str) c : In c s -> is_space c = false -> In c (strip s).
Proof.
  intros Hin Hc. unfold strip, rstrip. apply (proj1 (in_rev _ _)).
  apply lstrip_keeps; [|exact Hc]. apply (proj1 (in_rev _ _)).
  apply lstrip_keeps; assumption.
Qed.

Lemma linebreak_is_space c : is_linebreak c = true -> is_space c = true.
Proof.
  unfold is_linebreak, one_of. cbn [existsb]. rewrite !orb_true_iff, !N.eqb_eq.
  intros Hc. decompose [or] Hc; subst; try reflexivity; discriminate.
Qed.

(** The entries of the report. *)
Lemma lsusb_devices_spec (t : str) (d : str) :
  In d (devices (parse_lsusb t)) ->
  is_empty d = false /\ strip d = d
  /\ (forall c, In c d -> In c t /\ is_linebreak c = false).
Proof.
  unfold parse_lsusb. cbn [devices]. rewrite in_map_iff.
  intros (ln & <- & Hln). apply filter_In in Hln as [Hln Hne].
  apply negb_true_iff in Hne. split; [exact Hne|]. split; [apply strip_idem|].
  intros c Hc. apply strip_incl in Hc.
  exact (@splitlines_chars (List.length t) t (le_n _) ln c Hln Hc).
Qed.

Lemma pieces_skip (a : str) (ds : list str) (b : str) :
  pieces_in_order ds b -> pieces_in_order ds (a ++ b).
Proof.
  intros Hds. destruct Hds as [t | a' d ds b Hrest]; [constructor|].
  rewrite app_assoc. constructor. exact Hrest.
Qed.

(** The lines of a text stand in it one after the other, the first at its
    head. *)
Lemma splitlines_pieces : forall n (s : str), (List.length s <= n)%nat ->
  match splitlines s with
  | [] => True
  | l :: ls => exists b, s = l ++ b /\ pieces_in_order ls b
  end.
Proof.
  assert (Hall : forall (x : str),
             match splitlines x with
             | [] => True
             | l :: ls => exists b, x = l ++ b /\ pieces_in_order ls b
             end ->
             forall a : str, pieces_in_order (splitlines x) (a ++ x)).
  { intros x Hx a. destruct (splitlines x) as [|l ls]; [constructor|].
    destruct Hx as (b & -> & Hls). constructor. exact Hls. }
  induction n as [|n IH]; intros s Hn.
  - destruct s; [exact I|cbn in Hn; lia].
  - destruct s as [|c s']; [exact I|]. cbn [List.length] in Hn.
    cbn [splitlines]. destruct (is_linebreak c).
    + exists (c :: s'). split; [reflexivity|].
      destruct s' as [|d s'']; [constructor|]. cbn [List.length] in Hn.
      destruct ((c =? CR) && (d =? LF))%N.
      * apply (Hall s'' (IH s'' ltac:(lia)) [c; d]).
      * apply (Hall (d :: s'') (IH (d :: s'') ltac:(cbn [List.length]; lia)) [c]).
    + pose proof (IH s' ltac:(lia)) as Hs'.
      destruct (splitlines s') as [|l ls].
      * exists s'. split; [reflexivity|constructor].
      * destruct Hs' as (b & -> & Hls). exists b. split; [reflexivity|exact Hls].
Qed.

Lemma splitlines_in_order (s : str) : pieces_in_order (splitlines s) s.
Proof.
  pose proof (@splitlines_pieces (List.length s) s (le_n _)) as Hs.
  destruct (splitlines s) as [|l ls]; [constructor|].
  destruct Hs as (b & E & Hls). rewrite E.
  apply (pieces_next [] l Hls).
Qed.

Lemma pieces_filter (f : str -> bool) (ds : list str) (t : str) :
  pieces_in_order ds t -> pieces_in_order (filter f ds) t.
Proof.
  induction 1 as [t | a d ds b Hrest IH]; [constructor|].
  cbn [filter]. destruct (f d).
  - constructor. exact IH.
  - rewrite app_assoc. apply pieces_skip. exact IH.
Qed.

Lemma lstrip_suffix (s : str) : exists x, s = x ++ lstrip s.
Proof.
  induction s as [|c s (x & IH)]; [exists []; reflexivity|].
  cbn [lstrip]. destruct (is_space c).
  - exists (c :: x). cbn [app]. rewrite <- IH. reflexivity.
  - exists []. reflexivity.
Qed.

(** What [strip] returns stands in its argument as it is. *)
Lemma strip_piece (s : str) : exists x y, s = x ++ strip s ++ y.
Proof.
  destruct (lstrip_suffix s) as (x & Ex).
  destruct (lstrip_suffix (rev (lstrip s))) as (y & Ey).
  exists x, (rev y). unfold strip, rstrip. rewrite <- rev_app_distr, <- Ey, rev_involutive.
  exact Ex.
Qed.

Lemma pieces_map_strip (ds : list str) (t : str) :
  pieces_in_order ds t -> pieces_in_order (map strip ds) t.
Proof.
  induction 1 as [t | a d ds b Hrest IH]; [constructor|].
  cbn [map]. destruct (strip_piece d) as (x & y & Ed).
  replace (a ++ d ++ b) with ((a ++ x) ++ strip d ++ (y ++ b)).
  - constructor. apply pieces_skip. exact IH.
  - rewrite Ed at 2. rewrite <- !app_assoc. reflexivity.
Qed.

(** X18.  The device entries of [parse_lsusb] are pieces of the text:
    they stand in it as they are, one after the other in the order
    reported and without overlap; each is non-empty, trimmed and free of
    line boundaries. *)
Theorem parse_lsusb_entries_clean (t : str) :
  pieces_in_order (devices (parse_lsusb t)) t
  /\ Forall (fun d : str =>
               is_empty d = false /\ strip d = d
               /\ forallb (fun c => negb (is_linebreak c)) d = true)
            (devices (parse_lsusb t)).
Proof.
  split.
  - unfold parse_lsusb. cbn [devices].
    apply pieces_map_strip, pieces_filter, splitlines_in_order.
  - apply Forall_forall. intros d Hd.
    destruct (lsusb_devices_spec t d Hd) as (Hne & Hs & Hc).
    split; [exact Hne|]. split; [exact Hs|].
    apply forallb_forall. intros c Hin. apply negb_true_iff. apply (Hc c Hin).
Qed.

(** X19.  [parse_lsusb] reports no device exactly when the text is blank
    (empty, or white space only). *)
Theorem parse_lsusb_no_device_iff_blank (t : str) :
  device_count (parse_lsusb t) = 0%nat <-> forallb is_space t = true.
Proof.
  unfold parse_lsusb. cbn [device_count]. rewrite length_map. split.
  - intros Hlen. apply forallb_forall. intros c Hc.
    destruct (is_space c) eqn:Hsp; [reflexivity|exfalso].
    assert (Hlb : is_linebreak c = false).
    { destruct (is_linebreak c) eqn:E; [|reflexivity].
      apply linebreak_is_space in E. congruence. }
    destruct (@splitlines_covers (List.length t) t (le_n _) c Hc Hlb) as (l & Hl & Hin).
    assert (Hkept : In l (filter (fun ln => negb (is_empty (strip ln))) (splitlines t))).
    { apply filter_In. split; [exact Hl|]. apply negb_true_iff.
      pose proof (strip_keeps l c Hin Hsp) as Hk.
      destruct (strip l); [contradiction|reflexivity]. }
    destruct (filter (fun ln => negb (is_empty (strip ln))) (splitlines t));
      [contradiction|discriminate].
  - intros Hblank.
    assert (Hnone : forall l, In l (splitlines t) ->
                              negb (is_empty (strip l)) = false).
    { intros l Hl. apply negb_false_iff. apply is_empty_true. apply strip_blank.
      apply forallb_forall. intros c Hc.
      destruct (@splitlines_chars (List.length t) t (le_n _) l c Hl Hc) as [Hin _].
      rewrite forallb_forall in Hblank. apply Hblank. exact Hin. }
    induction (splitlines t) as [|l ls IH]; [reflexivity|].
    cbn [filter]. rewrite (Hnone l (or_introl eq_refl)). apply IH.
    intros l' Hl'. apply Hnone. right. exact Hl'.
Qed.

(** X20.  Round trip: the entries of a report, joined by newlines, parse
    to the same report. *)
Theorem parse_lsusb_round_trip (t : str) :
  parse_lsusb (join [LF] (devices (parse_lsusb t))) = parse_lsusb t.
Proof.
  assert (Hclean : Forall (fun d : str => is_empty d = false /\ strip d = d
                             /\ forall c, In c d -> In c t /\ is_linebreak c = false)
                          (devices (parse_lsusb t))).
  { apply Forall_forall. intros d Hd. apply lsusb_devices_spec. exact Hd. }
  set (ds := devices (parse_lsusb t)) in *.
  assert (Hlines : splitlines (join [LF] ds) = ds).
  { apply splitlines_join. eapply Forall_impl; [|exact Hclean].
    intros d (Hne & _ & Hc). split.
    - intros ->. discriminate Hne.
    - apply forallb_forall. intros c Hin. apply negb_true_iff. apply (Hc c Hin). }
  assert (Hsame : map strip (filter (fun ln => negb (is_empty (strip ln))) ds) = ds).
  { clear Hlines. induction ds as [|d ds' IH]; [reflexivity|].
    inversion Hclean as [|? ? (Hne & Hs & _) Hrest]; subst.
    cbn [filter]. rewrite Hs, Hne. cbn [negb map]. rewrite Hs, (IH Hrest). reflexivity. }
  unfold parse_lsusb at 1. rewrite Hlines, Hsame. reflexivity.
Qed.
